(** * Uncertainty-aware gradual domain ensemble (adapter/uagde.py)

    A shallow embedding of the class [UncertaintyAwareGradualDomainEnsemble]
    and the properties of its pseudo-label store, confidence thresholder,
    epoch accounting and sweep orchestrator.

    Modelling conventions.
    - A tensor entry is a real number: float32 rounding, overflow and
      infinities are not modelled.  The NaN of the mean of an empty tensor
      is modelled ([scalar]), and so is the NaN momentum it leads to.  Rows
      of NaN are not: where the code goes on to write them the model ends
      with [NaNValue], which is no exception of the code.  The logarithm is
      [ln] of the reals, which is 0 where torch gives NaN or -inf; with the
      1e-20 the code adds, the two agree on every row without negative
      entries, and what is proved of the entropies is proved for such rows.
    - A tensor of shape (B, C) is a list of B rows, a row a list of C reals.
      In the arithmetic and the indexed assignments of the store update
      shapes have to agree exactly: where torch would broadcast a dimension
      of size 1 there the model reports [ShapeError], so what is proved of
      the rows written is proved for operands of equal shape.  [torch.eq]
      in the oracle epoch is modelled with its broadcasting.
    - A Python exception is an [error]; a method that mutates [self] and may
      raise returns the state reached together with the outcome.
    - The network, the optimizer and the validator are collaborators of the
      class, not part of it: they are the fields of [Backend].  Printing
      and the tensorboard writer do not act on anything the class reads and
      are left out. *)

From Stdlib Require Import Reals Lra Lia ZArith.
From stdpp Require Import base decidable list sets sorting.

Open Scope R_scope.

(** ** Decidable comparisons on the reals *)

#[global] Instance Rle_decision : RelDecision Rle := Rle_dec.
#[global] Instance Rlt_decision : RelDecision Rlt := Rlt_dec.
#[global] Instance Rge_decision : RelDecision Rge := Rge_dec.
#[global] Instance Rgt_decision : RelDecision Rgt := Rgt_dec.
#[global] Instance Req_decision : EqDecision R := Req_dec_T.

(** ** Exceptions and results *)

Inductive error : Set :=
| IndexError            (* tensor index, or nll_loss target, out of range *)
| ShapeError            (* operands whose shapes differ *)
| CatEmptyError         (* torch.cat of an empty list of tensors *)
| ReductionEmptyError   (* amax / amin / argmax over a dimension of size 0 *)
| QuantileEmptyError    (* torch.quantile of an empty tensor *)
| QuantileRangeError    (* torch.quantile with q outside [0, 1] *)
| KeyError              (* dict lookup of a missing key *)
| ZeroDivisionError     (* Python division by 0 *)
| UnboundLocalError     (* local variable read before assignment *)
| AttributeError        (* attribute access on None *)
| NaNValue.             (* no exception: rows of NaN would be written, which
                           the real-valued rows below cannot hold *)

Inductive error_class : Set := InvalidInput | Arithmetic | Programming.

Definition classify (e : error) : error_class :=
  match e with
  | IndexError | ShapeError | CatEmptyError | ReductionEmptyError
  | QuantileEmptyError | QuantileRangeError | KeyError => InvalidInput
  | ZeroDivisionError | NaNValue => Arithmetic
  | UnboundLocalError | AttributeError => Programming
  end.

Inductive res (A : Type) : Type :=
| Ok (a : A)
| Err (e : error).
Arguments Ok {A} a.
Arguments Err {A} e.

#[global] Instance res_ret : MRet res := @Ok.
#[global] Instance res_bind : MBind res :=
  fun A B f m => match m with Ok a => f a | Err e => Err e end.

(** [traverse f l] applies a fallible [f] to every element, left to right,
    and stops at the first exception. *)
Fixpoint traverse {A B : Type} (f : A → res B) (l : list A) : res (list B) :=
  match l with
  | [] => Ok []
  | a :: l' => b ← f a; bs ← traverse f l'; Ok (b :: bs)
  end.

(** ** Scalars read back into Python ([.item()]) *)

Inductive scalar : Set :=
| Num (r : R)
| NaN.

Definition scalar_add (a b : scalar) : scalar :=
  match a, b with
  | Num x, Num y => Num (x + y)
  | _, _ => NaN
  end.

Definition scalar_mul_nat (a : scalar) (n : nat) : scalar :=
  match a with
  | Num x => Num (x * INR n)
  | NaN => NaN
  end.

(** Python [a / n] with [n] an int: raises on 0, whatever [a] is. *)
Definition py_truediv (a : scalar) (n : nat) : res scalar :=
  match n with
  | O => Err ZeroDivisionError
  | S _ => Ok (match a with Num x => Num (x / INR n) | NaN => NaN end)
  end.

(** ** Tensors and the torch operations the class calls *)

Abbreviation row := (list R).
Abbreviation tensor := (list (list R)).

Definition Rsum (v : list R) : R := foldr Rplus 0 v.

(** [t.mean()] of a one-dimensional tensor. *)
Definition mean (v : list R) : scalar :=
  match v with
  | [] => NaN
  | _ :: _ => Num (Rsum v / INR (length v))
  end.

Definition amax (v : row) : res R :=
  match v with
  | [] => Err ReductionEmptyError
  | x :: xs => Ok (foldl Rmax x xs)
  end.

Definition amin (v : row) : res R :=
  match v with
  | [] => Err ReductionEmptyError
  | x :: xs => Ok (foldl Rmin x xs)
  end.

(** Index of the first maximal entry among [v], given the best entry
    [best] seen so far at index [besti]; [i] is the index of the head. *)
Fixpoint argmax_from (best : R) (besti i : nat) (v : list R) : nat :=
  match v with
  | [] => besti
  | x :: xs =>
      if bool_decide (best < x) then argmax_from x i (S i) xs
      else argmax_from best besti (S i) xs
  end.

Definition argmax (v : row) : res nat :=
  match v with
  | [] => Err ReductionEmptyError
  | x :: xs => Ok (argmax_from x 0%nat 1%nat xs)
  end.

Definition softmax (v : row) : row :=
  let s := Rsum (exp <$> v) in (λ x, exp x / s) <$> v.

Definition log_softmax (v : row) : row :=
  let lse := ln (Rsum (exp <$> v)) in (λ x, x - lse) <$> v.

(** [F.nll_loss(logp, target, reduction='none')]. *)
Definition nll_loss (logp : tensor) (target : list nat) : res (list R) :=
  if bool_decide (length logp = length target) then
    traverse (λ '(r, t), match r !! t with
                         | Some x => Ok (- x)
                         | None => Err IndexError
                         end) (zip logp target)
  else Err ShapeError.

(** [F.normalize(v, p=1)] on one row: division by the L1 norm, clamped
    from below by eps = 1e-12. *)
Definition eps_normalize : R := 1e-12.

Definition L1_norm (v : row) : R := Rsum (Rabs <$> v).

Definition F_normalize (v : row) : row :=
  let d := Rmax (L1_norm v) eps_normalize in (λ x, x / d) <$> v.

Definition clip (x lo hi : R) : R := Rmin (Rmax x lo) hi.

Definition cat (ts : list tensor) : res tensor :=
  match ts with
  | [] => Err CatEmptyError
  | _ :: _ => Ok (concat ts)
  end.

(** Advanced indexing [t[idx]] with a tensor of row indices. *)
Definition gather (t : tensor) (idx : list nat) : res tensor :=
  traverse (λ i, match t !! i with
                 | Some r => Ok r
                 | None => Err IndexError
                 end) idx.

(** Rows written one after the other: with a repeated index the last
    write stays. *)
Fixpoint write_rows (t : tensor) (idx : list nat) (vals : tensor) : tensor :=
  match idx, vals with
  | i :: idx', v :: vals' => write_rows (<[i := v]> t) idx' vals'
  | _, _ => t
  end.

(** A value row fits the row it replaces when both have the same width. *)
Definition fits (t : tensor) (i : nat) (v : row) : Prop :=
  match t !! i with
  | Some r => length v = length r
  | None => False
  end.

#[global] Instance fits_dec t i v : Decision (fits t i v).
Proof. unfold fits. destruct (t !! i); apply _. Defined.

(** Indexed assignment [t[idx] = vals]; nothing is written when an index
    is out of range or the shapes disagree. *)
Definition index_put (t : tensor) (idx : list nat) (vals : tensor) : res tensor :=
  if bool_decide (Forall (λ i, (i < length t)%nat) idx) then
    if bool_decide (length vals = length idx
                    ∧ Forall (λ '(i, v), fits t i v) (zip idx vals))
    then Ok (write_rows t idx vals)
    else Err ShapeError
  else Err IndexError.

(** [m * a + (1 - m) * b] on two tensors of the same shape. *)
Definition blend (m : R) (a b : tensor) : res tensor :=
  if bool_decide (length a = length b) then
    traverse (λ '(ra, rb),
                if bool_decide (length ra = length rb)
                then Ok (zip_with (λ x y, m * x + (1 - m) * y) ra rb)
                else Err ShapeError) (zip a b)
  else Err ShapeError.

(** Ascending insertion sort, the order [torch.quantile] works on. *)
Fixpoint insert_sorted (x : R) (l : list R) : list R :=
  match l with
  | [] => [x]
  | y :: l' => if bool_decide (x <= y) then x :: y :: l' else y :: insert_sorted x l'
  end.

Definition sort_asc (l : list R) : list R := foldr insert_sorted [] l.

Definition floorZ (x : R) : Z := Int_part x.
Definition ceilZ (x : R) : Z := (- Int_part (- x))%Z.

(** [torch.lerp(a, b, w)], in exact arithmetic. *)
Definition lerp (a b w : R) : R := a + w * (b - a).

(** [torch.quantile(v, q)] with the default linear interpolation; the
    range of [q] is checked before the input is looked at. *)
Definition quantile (v : list R) (q : R) : res R :=
  if bool_decide (0 <= q <= 1) then
    match sort_asc v with
    | [] => Err QuantileEmptyError
    | (_ :: _) as sorted =>
        let rank := q * INR (length sorted - 1) in
        let below := Z.to_nat (floorZ rank) in
        let above := Z.to_nat (ceilZ rank) in
        let weight := rank - IZR (floorZ rank) in
        Ok (lerp (nth below sorted 0) (nth above sorted 0) weight)
    end
  else Err QuantileRangeError.

(** ** Collaborators of the class *)

(** The network, its optimizer and the validator.  [forward training w x]
    is the module called on the batch [x] with weights [w], in training
    mode or not; [opt_step] stands for [zero_grad(); loss.backward();
    step()] on the pseudo-label loss of the batch [x] against the ensemble
    rows and the threshold it is given. *)
Class Backend : Type := {
  input : Type;
  params : Type;
  optim : Type;
  forward : bool → params → input → tensor;
  batch_len : input → nat;
  Adam : params → R → optim;
  opt_step : params → optim → input → tensor → R → params * optim;
  IMValidator : tensor → R;
}.

Section UAGDE.
Context `{B : Backend}.

(** A [torch.nn.Module]: its weights and its train / eval flag. *)
Record module : Type := {
  weights : params;
  training : bool;
}.

Definition call (m : module) (x : input) : tensor :=
  forward (training m) (weights m) x.

Definition set_training (m : module) (b : bool) : module :=
  {| weights := weights m; training := b |}.

(** What a loader yields: example ids, inputs, labels. *)
Record batch : Type := {
  b_idx : list nat;
  b_data : input;
  b_y : list nat;
}.

Definition loader := list batch.

(** The fields of [args] the class reads. *)
Record config : Type := {
  adapt_lr : R;
  adapt_epochs : nat;
}.

(** The instance: [ens_Z] and [ens_z] are the attributes [Z] and [z]. *)
Record UncertaintyAwareGradualDomainEnsemble : Type := {
  model : module;
  ens_Z : tensor;
  ens_z : tensor;
  slope : R;
  pl_acc_list : list R;
}.

Local Abbreviation self_t := UncertaintyAwareGradualDomainEnsemble.

Definition set_model (s : self_t) (m : module) : self_t :=
  {| model := m; ens_Z := ens_Z s; ens_z := ens_z s; slope := slope s;
     pl_acc_list := pl_acc_list s |}.

Definition set_Z (s : self_t) (t : tensor) : self_t :=
  {| model := model s; ens_Z := t; ens_z := ens_z s; slope := slope s;
     pl_acc_list := pl_acc_list s |}.

Definition set_z (s : self_t) (t : tensor) : self_t :=
  {| model := model s; ens_Z := ens_Z s; ens_z := t; slope := slope s;
     pl_acc_list := pl_acc_list s |}.

Definition push_pl_acc (s : self_t) (a : R) : self_t :=
  {| model := model s; ens_Z := ens_Z s; ens_z := ens_z s; slope := slope s;
     pl_acc_list := pl_acc_list s ++ [a] |}.

(** *** [_pseudo_label_loss] *)

Definition count_true (mask : list bool) : nat := length (filter (λ b, b = true) mask).

Definition mask_weight (b : bool) : R := if b then 1 else 0.

Definition _pseudo_label_loss (student_logits ensemble_probs : tensor) (alpha : R)
  : res (scalar * list bool) :=
  mx ← traverse amax ensemble_probs;
  mn ← traverse amin ensemble_probs;
  let confidence := zip_with Rminus mx mn in
  let mask := (λ c, bool_decide (c >= alpha)) <$> confidence in
  teacher_pred ← traverse argmax ensemble_probs;
  nll ← nll_loss (log_softmax <$> student_logits) teacher_pred;
  let pseudo_loss := mean (zip_with (λ l b, l * mask_weight b) nll mask) in
  Ok (pseudo_loss, mask).

(** *** [_adapt_train_epoch] and [_adapt_eval_epoch] *)

(** The running totals of an epoch. *)
Record totals : Type := {
  total_loss : scalar;
  total_num : nat;
  total_logits : list tensor;
}.

Definition totals0 : totals :=
  {| total_loss := Num 0; total_num := 0%nat; total_logits := [] |}.

Definition account (t : totals) (loss : scalar) (mask : list bool) (logits : tensor)
  : totals :=
  {| total_loss := scalar_add (total_loss t) (scalar_mul_nat loss (count_true mask));
     total_num := (total_num t + count_true mask)%nat;
     total_logits := total_logits t ++ [logits] |}.

Definition finish_epoch (t : totals) : res (scalar * R) :=
  l ← py_truediv (total_loss t) (total_num t);
  logits ← cat (total_logits t);
  Ok (l, IMValidator logits).

Fixpoint train_batches (z : tensor) (alpha : R) (bs : loader)
    (st : module * optim * totals) : res (module * optim * totals) :=
  match bs with
  | [] => Ok st
  | b :: bs' =>
      let '(m, o, t) := st in
      let student_logits := call m (b_data b) in
      ensemble_probs ← gather z (b_idx b);
      '(loss, mask) ← _pseudo_label_loss student_logits ensemble_probs alpha;
      let '(w', o') := opt_step (weights m) o (b_data b) ensemble_probs alpha in
      train_batches z alpha bs'
        ({| weights := w'; training := training m |}, o',
         account t loss mask student_logits)
  end.

Definition _adapt_train_epoch (s : self_t) (m : module) (train_loader : loader)
    (o : optim) (alpha : R) : res (module * optim * (scalar * R)) :=
  '(m', o', t) ← train_batches (ens_z s) alpha train_loader
                   (set_training m true, o, totals0);
  r ← finish_epoch t;
  Ok (m', o', r).

Fixpoint eval_batches (z : tensor) (alpha : R) (m : module) (bs : loader)
    (t : totals) : res totals :=
  match bs with
  | [] => Ok t
  | b :: bs' =>
      let student_logits := call m (b_data b) in
      ensemble_probs ← gather z (b_idx b);
      '(loss, mask) ← _pseudo_label_loss student_logits ensemble_probs alpha;
      eval_batches z alpha m bs' (account t loss mask student_logits)
  end.

Definition _adapt_eval_epoch (s : self_t) (m : module) (val_loader : loader)
    (alpha : R) : res (module * (scalar * R)) :=
  let m' := set_training m false in
  t ← eval_batches (ens_z s) alpha m' val_loader totals0;
  r ← finish_epoch t;
  Ok (m', r).

(** *** [_oracle_eval_epoch] *)

(** [torch.eq(a, b).sum().item()] on two vectors: entry by entry when the
    lengths agree; a vector of one entry is broadcast against the other. *)
Definition count_eq (a b : list nat) : res nat :=
  if bool_decide (length a = length b)
  then Ok (length (filter (λ '(x, y), x = y) (zip a b)))
  else match a, b with
       | [x], _ => Ok (length (filter (λ y, x = y) b))
       | _, [y] => Ok (length (filter (λ x, x = y) a))
       | _, _ => Err ShapeError
       end.

Fixpoint oracle_batches (z : tensor) (m : module) (bs : loader)
    (acc : nat * nat * nat) : res (nat * nat * nat) :=
  match bs with
  | [] => Ok acc
  | b :: bs' =>
      let '(total_correct, total_pl_correct, num) := acc in
      pred ← traverse argmax (call m (b_data b));
      c ← count_eq pred (b_y b);
      zs ← gather z (b_idx b);
      pl ← traverse argmax zs;
      c_pl ← count_eq pl (b_y b);
      oracle_batches z m bs'
        ((total_correct + c)%nat, (total_pl_correct + c_pl)%nat,
         (num + batch_len (b_data b))%nat)
  end.

Definition _oracle_eval_epoch (s : self_t) (m : module) (val_loader : loader)
  : res (module * (R * R)) :=
  let m' := set_training m false in
  '(total_correct, total_pl_correct, num) ←
    oracle_batches (ens_z s) m' val_loader (0%nat, 0%nat, 0%nat);
  match num with
  | O => Err ZeroDivisionError
  | S _ => Ok (m', (INR total_correct / INR num, INR total_pl_correct / INR num))
  end.

(** *** [_entropy] *)

Definition eps_log : R := 1e-20.

Definition row_entropy (r : row) : R := - Rsum ((λ p, p * ln (p + eps_log)) <$> r).

Definition _entropy (probs : tensor) : scalar := mean (row_entropy <$> probs).

(** *** [_update_Z] *)

(** The pass over the loader of the domain being adapted to (lines
    112-119): the current predictions and the ensemble rows, per batch. *)
Fixpoint collect_probs (s : self_t) (bs : loader) (acc : list tensor * list tensor)
  : res (list tensor * list tensor) :=
  match bs with
  | [] => Ok acc
  | b :: bs' =>
      let '(total_ensemble_probs, total_current_probs) := acc in
      let probs := softmax <$> call (model s) (b_data b) in
      zs ← gather (ens_z s) (b_idx b);
      collect_probs s bs' (total_ensemble_probs ++ [zs], total_current_probs ++ [probs])
  end.

(** Line 124.  A NaN entropy (the mean over no example at all) makes the
    momentum NaN unless the domain is the first one: [torch.clip] of NaN is
    NaN, and nothing is raised. *)
Definition momentum_of (slope : R) (domain_idx : Z)
    (current_avg_entropy ensemble_avg_entropy : scalar) : scalar :=
  if bool_decide (domain_idx ≠ 1%Z) then
    match current_avg_entropy, ensemble_avg_entropy with
    | Num c, Num e => Num (clip (0.5 + slope * (c - e)) 0 1)
    | _, _ => NaN
    end
  else Num 0.

Definition compute_momentum (s : self_t) (domain_idx : Z) (ld : loader)
  : res scalar :=
  '(total_ensemble_probs, total_current_probs) ← collect_probs s ld ([], []);
  ens ← cat total_ensemble_probs;
  cur ← cat total_current_probs;
  Ok (momentum_of (slope s) domain_idx (_entropy cur) (_entropy ens)).

(** Lines 128-133 for one batch; [momentum] is [None] while the local
    variable is unbound.  With a NaN momentum every entry of
    [momentum * Z[idx] + (1 - momentum) * probs] is NaN: the shapes are
    checked as for a number and the rows of the batch's ids become rows of
    NaN in [Z] and in [z].  Rows of reals cannot hold them: a batch without
    an id writes nothing and the loop goes on as in the code; at a batch
    with an id the model ends ([NaNValue]), where the code goes on. *)
Definition update_batch (momentum : option scalar) (b : batch) (s : self_t)
  : self_t * res unit :=
  let probs := softmax <$> call (model s) (b_data b) in
  match momentum with
  | None => (s, Err UnboundLocalError)
  | Some NaN =>
      match (rows ← gather (ens_Z s) (b_idx b);
             vals ← blend 0 rows probs;
             index_put (ens_Z s) (b_idx b) vals) with
      | Err e => (s, Err e)
      | Ok _ =>
          match b_idx b with
          | [] => (s, Ok ())
          | _ :: _ => (s, Err NaNValue)
          end
      end
  | Some (Num m) =>
      match (rows ← gather (ens_Z s) (b_idx b);
             vals ← blend m rows probs;
             index_put (ens_Z s) (b_idx b) vals) with
      | Err e => (s, Err e)
      | Ok Z' =>
          let s1 := set_Z s Z' in
          match (rows' ← gather Z' (b_idx b);
                 index_put (ens_z s1) (b_idx b) (F_normalize <$> rows')) with
          | Err e => (s1, Err e)
          | Ok z' => (set_z s1 z', Ok ())
          end
      end
  end.

Fixpoint update_batches (momentum : option scalar) (bs : loader) (s : self_t)
  : self_t * res unit :=
  match bs with
  | [] => (s, Ok ())
  | b :: bs' =>
      match update_batch momentum b s with
      | (s', Ok _) => update_batches momentum bs' s'
      | (s', Err e) => (s', Err e)
      end
  end.

(** The loop over [domain2trainloader.items()], a dict in insertion order. *)
Fixpoint update_domains (domain_idx : Z) (ds : list (Z * loader))
    (momentum : option scalar) (s : self_t) : self_t * res unit :=
  match ds with
  | [] => (s, Ok ())
  | (d, ld) :: ds' =>
      if bool_decide (d < domain_idx)%Z then update_domains domain_idx ds' momentum s
      else
        match (if bool_decide (d = domain_idx)
               then m ← compute_momentum s domain_idx ld; Ok (Some m)
               else Ok momentum) with
        | Err e => (s, Err e)
        | Ok momentum' =>
            match update_batches momentum' ld s with
            | (s', Ok _) => update_domains domain_idx ds' momentum' s'
            | (s', Err e) => (s', Err e)
            end
        end
  end.

Definition _update_Z (s : self_t) (domain2trainloader : list (Z * loader))
    (domain_idx : Z) : self_t * res unit :=
  update_domains domain_idx domain2trainloader None
    (set_model s (set_training (model s) false)).

(** *** [_calc_alpha] *)

Definition _calc_alpha (s : self_t) (ld : loader) (confidence_q : R) : res R :=
  total_prob ← traverse (λ b, gather (ens_Z s) (b_idx b)) ld;
  total_prob ← cat total_prob;
  mx ← traverse amax total_prob;
  mn ← traverse amin total_prob;
  quantile (zip_with Rminus mx mn) confidence_q.

(** *** [_adapt_train_eval] *)

Fixpoint dict_get {V : Type} (d : list (Z * V)) (k : Z) : res V :=
  match d with
  | [] => Err KeyError
  | (k', v) :: d' => if bool_decide (k' = k) then Ok v else dict_get d' k
  end.

(** The epochs of one run; [last] holds [train_score] and [pl_acc] once
    they are bound. *)
Fixpoint run_epochs (s : self_t) (train_loader : loader) (alpha : R) (n : nat)
    (st : module * optim * option (R * R)) : res (module * optim * option (R * R)) :=
  match n with
  | O => Ok st
  | S n' =>
      let '(m, o, _) := st in
      '(m1, o1, (train_loss, train_score)) ←
        _adapt_train_epoch s m train_loader o alpha;
      '(m2, (train_acc, pl_acc)) ← _oracle_eval_epoch s m1 train_loader;
      run_epochs s train_loader alpha n' (m2, o1, Some (train_score, pl_acc))
  end.

Definition _adapt_train_eval (s : self_t) (domain_idx : Z)
    (domain2trainloader : list (Z * loader)) (confidence_q : R) (args : config)
  : self_t * res (module * R) :=
  match _update_Z s domain2trainloader domain_idx with
  | (s1, Err e) => (s1, Err e)
  | (s1, Ok _) =>
      match (train_loader ← dict_get domain2trainloader domain_idx;
             alpha ← _calc_alpha s1 train_loader confidence_q;
             let m := model s1 in
             let optimizer := Adam (weights m) (adapt_lr args) in
             run_epochs s1 train_loader alpha (adapt_epochs args)
               (m, optimizer, None)) with
      | Err e => (s1, Err e)
      | Ok (_, _, None) => (s1, Err UnboundLocalError)
      | Ok (m', _, Some (train_score, pl_acc)) =>
          (push_pl_acc s1 pl_acc, Ok (m', train_score))
      end
  end.

(** *** [adapt] *)

(** [performance_dict]: a Python dict keyed by [confidence_q].  Assigning
    to a key that is present replaces its value where it stands; a new key
    goes to the end. *)
Local Abbreviation candidate := (module * R)%type.

Fixpoint dict_set (d : list (R * candidate)) (k : R) (v : candidate)
  : list (R * candidate) :=
  match d with
  | [] => [(k, v)]
  | (k', v') :: d' =>
      if bool_decide (k' = k) then (k', v) :: d' else (k', v') :: dict_set d' k v
  end.

Fixpoint sweep (s : self_t) (domain_idx : Z) (domain2trainloader : list (Z * loader))
    (args : config) (confidence_q_list : list R)
    (performance_dict : list (R * candidate))
  : self_t * res (list (R * candidate)) :=
  match confidence_q_list with
  | [] => (s, Ok performance_dict)
  | confidence_q :: qs =>
      match _adapt_train_eval s domain_idx domain2trainloader confidence_q args with
      | (s', Err e) => (s', Err e)
      | (s', Ok (m, val_score)) =>
          sweep s' domain_idx domain2trainloader args qs
            (dict_set performance_dict confidence_q (m, val_score))
      end
  end.

(** [best_score], which starts at [-np.inf]. *)
Inductive bound : Set :=
| NegInf
| Score (r : R).

Definition exceeds (x : R) (b : bound) : bool :=
  match b with
  | NegInf => true
  | Score y => bool_decide (x > y)
  end.

Fixpoint select_best (items : list (R * candidate)) (best_score : bound)
    (best_model : option module) : bound * option module :=
  match items with
  | [] => (best_score, best_model)
  | (_, (m, score)) :: items' =>
      if exceeds score best_score then select_best items' (Score score) (Some m)
      else select_best items' best_score best_model
  end.

Definition adapt (s : self_t) (domain_idx : Z) (domain2trainloader : list (Z * loader))
    (confidence_q_list : list R) (args : config) : self_t * res unit :=
  match sweep s domain_idx domain2trainloader args confidence_q_list [] with
  | (s', Err e) => (s', Err e)
  | (s', Ok performance_dict) =>
      match select_best performance_dict NegInf None with
      | (_, None) => (s', Err AttributeError)
      | (_, Some best_model) => (set_model s' best_model, Ok ())
      end
  end.

(** *** [__init__], [target_validate], [get_model] *)

(** [device] only places the tensors: [.to(device)] keeps their values.
    [self.validator] is the [IMValidator] of the backend. *)
Definition __init__ (model : module) (Z z : tensor) (slope : R)
  : UncertaintyAwareGradualDomainEnsemble :=
  {| model := model; ens_Z := Z; ens_z := z; slope := slope; pl_acc_list := [] |}.

Definition target_validate (s : UncertaintyAwareGradualDomainEnsemble)
    (val_loader : loader) : res R :=
  let total_logits := (λ b, call (model s) (b_data b)) <$> val_loader in
  total_logits ← cat total_logits;
  Ok (IMValidator total_logits).

Definition get_model (s : UncertaintyAwareGradualDomainEnsemble) : module := model s.

End UAGDE.

Abbreviation candidate := (module * R)%type.

(** ** What the specification words say, for comparison with the code *)

(** The negative log-likelihood of every example at its teacher label. *)
Definition per_example_nll (student_logits ensemble_probs : tensor) : res (list R) :=
  teacher_pred ← traverse argmax ensemble_probs;
  nll_loss (log_softmax <$> student_logits) teacher_pred.

(** The sum of the entries of [v] whose mask is set. *)
Definition masked_sum (v : list R) (mask : list bool) : R :=
  Rsum ((λ p : R * bool, p.1) <$> filter (λ p : R * bool, p.2 = true) (zip v mask)).

(** "Mean over the masked examples only": normalised by the number of
    masked examples, undefined when there is none. *)
Definition masked_mean (v : list R) (mask : list bool) : scalar :=
  match count_true mask with
  | O => NaN
  | S _ => Num (masked_sum v mask / INR (count_true mask))
  end.

Definition is_max (M : R) (v : row) : Prop := M ∈ v ∧ ∀ x, x ∈ v → x <= M.
Definition is_min (m : R) (v : row) : Prop := m ∈ v ∧ ∀ x, x ∈ v → m <= x.

(** The mask of one batch of a loader, as lines 28 and 151-152 compute it:
    it depends on the store and on [alpha], not on the student. *)
Definition batch_mask `{B : Backend} (z : tensor) (alpha : R) (b : batch) : res (list bool) :=
  ensemble_probs ← gather z (b_idx b);
  mx ← traverse amax ensemble_probs;
  mn ← traverse amin ensemble_probs;
  Ok ((λ c, bool_decide (c >= alpha)) <$> zip_with Rminus mx mn).

(** The interpolated value at rank [p] of an ascending list. *)
Definition at_rank (l : list R) (p : R) : R :=
  lerp (nth (Z.to_nat (floorZ p)) l 0) (nth (Z.to_nat (ceilZ p)) l 0)
       (p - IZR (floorZ p)).

(** Row [i] of [z] is the normalisation of row [i] of [Z]. *)
Definition in_sync `{B : Backend} (s : UncertaintyAwareGradualDomainEnsemble) (i : nat) : Prop :=
  ∃ r, ens_Z s !! i = Some r ∧ ens_z s !! i = Some (F_normalize r).

(** The candidates of a sweep in the order the loop of [adapt] trains
    them, one per element of [confidence_q_list]. *)
Fixpoint sweep_runs `{B : Backend} (s : UncertaintyAwareGradualDomainEnsemble)
    (domain_idx : Z) (domain2trainloader : list (Z * loader)) (args : config)
    (confidence_q_list : list R)
  : UncertaintyAwareGradualDomainEnsemble * res (list (R * candidate)) :=
  match confidence_q_list with
  | [] => (s, Ok [])
  | confidence_q :: qs =>
      match _adapt_train_eval s domain_idx domain2trainloader confidence_q args with
      | (s', Err e) => (s', Err e)
      | (s', Ok c) =>
          match sweep_runs s' domain_idx domain2trainloader args qs with
          | (s'', Ok runs) => (s'', Ok ((confidence_q, c) :: runs))
          | (s'', Err e) => (s'', Err e)
          end
      end
  end.

(** [performance_dict] after the assignments of [runs], from [d]. *)
Definition dict_of_runs `{B : Backend} (d runs : list (R * candidate))
  : list (R * candidate) :=
  foldl (λ acc r, dict_set acc r.1 r.2) d runs.

(** [e] is the first entry of [items] whose score is the largest. *)
Definition first_max `{B : Backend} (items : list (R * candidate))
    (e : R * candidate) : Prop :=
  ∃ l1 l2, items = l1 ++ e :: l2 ∧
    (∀ x, x ∈ l1 → x.2.2 < e.2.2) ∧ (∀ x, x ∈ l2 → x.2.2 <= e.2.2).


(** ** Notions the further properties are stated with *)

(** A row that is a probability vector. *)
Definition prob_row (r : row) : Prop := (∀ x, x ∈ r → 0 <= x) ∧ Rsum r = 1.

(** The widths of the rows of a tensor. *)
Definition widths (t : tensor) : list nat := length <$> t.

(** The momentum, while bound, is a weight in [0, 1]. *)
Definition momentum_ok (momentum : option scalar) : Prop :=
  ∀ m, momentum = Some (Num m) → 0 <= m <= 1.

(** What [_update_Z] leaves alone: the weights, the slope, the recorded
    accuracies and the shape of both accumulators. *)
Definition same_frame `{B : Backend} (s s' : UncertaintyAwareGradualDomainEnsemble)
  : Prop :=
  weights (model s') = weights (model s) ∧ slope s' = slope s ∧
  pl_acc_list s' = pl_acc_list s ∧
  widths (ens_Z s') = widths (ens_Z s) ∧ widths (ens_z s') = widths (ens_z s).

(** [momentum * zr + (1 - momentum) * p], entry by entry. *)
Definition blend_row (m : R) (zr p : row) : row :=
  zip_with (λ x y, m * x + (1 - m) * y) zr p.

(** The ids the loaders of the current and the future domains yield, in the
    order [_update_Z] meets them. *)
Definition touched_ids `{B : Backend} (domain_idx : Z) (ds : list (Z * loader))
  : list nat :=
  concat ((λ e : Z * loader,
             if bool_decide (domain_idx <= e.1)%Z then concat (b_idx <$> e.2) else [])
          <$> ds).

(** Row [i] of [Z] in [s'] is the blend of its row in [s] with the softmax
    of the logits the model of [s] gives to example [k] of batch [b]. *)
Definition blended `{B : Backend} (m : R) (s s' : UncertaintyAwareGradualDomainEnsemble)
    (b : batch) (k i : nat) : Prop :=
  ∃ zr logits, ens_Z s !! i = Some zr ∧
    call (model s) (b_data b) !! k = Some logits ∧
    length zr = length logits ∧
    ens_Z s' !! i = Some (blend_row m zr (softmax logits)).

(** The confidence of row [i] of [t]: largest minus least entry. *)
Definition confidence_of (t : tensor) (i : nat) (c : R) : Prop :=
  ∃ r M m, t !! i = Some r ∧ is_max M r ∧ is_min m r ∧ c = M - m.

(** A row of [n] non-negative entries whose sum is within [tol] of 1. *)
Definition near_prob_row (tol : R) (n : nat) (r : row) : Prop :=
  length r = n ∧ (∀ x, x ∈ r → 0 <= x) ∧ Rabs (Rsum r - 1) <= tol.

(** On every batch the update meets, the network [m] gives one row of [n]
    logits for each example id: nothing is broadcast at line 132. *)
Definition logits_fit `{B : Backend} (m : module) (n : nat) (domain_idx : Z)
    (ds : list (Z * loader)) : Prop :=
  ∀ d ld b, (d, ld) ∈ ds → (domain_idx <= d)%Z → b ∈ ld →
    length (call m (b_data b)) = length (b_idx b) ∧
    Forall (λ l, length l = n) (call m (b_data b)).

(** The entropies of line 122-123 are means over at least one example: the
    domain is the first one, where they are not read, or its loader yields
    an example id. *)
Definition momentum_defined `{B : Backend} (domain_idx : Z) (ds : list (Z * loader))
  : Prop :=
  domain_idx = 1%Z ∨ ∀ ld, (domain_idx, ld) ∈ ds → concat (b_idx <$> ld) ≠ [].

(** The outcomes of [_update_Z] on such inputs. *)
Definition returns_or_raises (r : res unit) : Prop :=
  r = Ok () ∨ r = Err IndexError ∨ r = Err CatEmptyError ∨ r = Err UnboundLocalError.

(** No batch has more output rows, labels or ids than inputs. *)
Definition batches_within `{B : Backend} (m : module) (ld : loader) : Prop :=
  ∀ b, b ∈ ld →
    (length (call m (b_data b)) <= batch_len (b_data b))%nat ∧
    (length (b_y b) <= batch_len (b_data b))%nat ∧
    (length (b_idx b) <= batch_len (b_data b))%nat.

(** ** Concrete instances

    A backend small enough to run by hand: two classes, a network whose
    logits are [0, 0] whatever its weights, an optimizer step that stores
    the threshold in the weights, a validator that scores 0. *)

Definition toy_backend : Backend :=
  {| input := unit; params := R; optim := unit;
     forward := λ _ _ _, [[0; 0]];
     batch_len := λ _, 1%nat;
     Adam := λ _ _, tt;
     opt_step := λ _ o _ _ alpha, (alpha, o);
     IMValidator := λ _, 0 |}.

Definition toy_batch : @batch toy_backend :=
  @Build_batch toy_backend [0%nat] tt [0%nat].

Definition tiny_store : @UncertaintyAwareGradualDomainEnsemble toy_backend :=
  @Build_UncertaintyAwareGradualDomainEnsemble toy_backend
    (@Build_module toy_backend 0 true) [[5e-13; 0]] [[0.5; 0]] 4 [].

Definition tiny_store_after : @UncertaintyAwareGradualDomainEnsemble toy_backend :=
  @Build_UncertaintyAwareGradualDomainEnsemble toy_backend
    (@Build_module toy_backend 0 false) [[5e-13; 0]] [[0.5; 0]] 4 [].

Definition toy_store : @UncertaintyAwareGradualDomainEnsemble toy_backend :=
  @Build_UncertaintyAwareGradualDomainEnsemble toy_backend
    (@Build_module toy_backend 0 true) [[1; 0]] [[1; 0]] 0 [].

Definition toy_loaders : list (Z * @loader toy_backend) := [(1%Z, [toy_batch])].

Definition toy_args : config := {| adapt_lr := 0.001; adapt_epochs := 1 |}.

Definition toy_updated (pl : list R) : @UncertaintyAwareGradualDomainEnsemble toy_backend :=
  @Build_UncertaintyAwareGradualDomainEnsemble toy_backend
    (@Build_module toy_backend 0 false) [[0.5; 0.5]] [[0.5; 0.5]] 0 pl.

Definition past_batch : @batch toy_backend :=
  @Build_batch toy_backend [1%nat] tt [1%nat].

Definition two_row_store : @UncertaintyAwareGradualDomainEnsemble toy_backend :=
  @Build_UncertaintyAwareGradualDomainEnsemble toy_backend
    (@Build_module toy_backend 0 true)
    [[1; 0]; [0.25; 0.75]] [[1; 0]; [0.25; 0.75]] 0 [].

Definition two_domains : list (Z * @loader toy_backend) :=
  [(1%Z, [past_batch]); (2%Z, [toy_batch])].

(** Arguments with no epoch, and a dict whose only loader is empty. *)
Definition zero_epoch_args : config := {| adapt_lr := 0.001; adapt_epochs := 0 |}.

Definition empty_loaders : list (Z * @loader toy_backend) := [(1%Z, [])].

(** A batch that yields no example id, and one that yields both rows of
    [two_row_store]. *)
Definition no_example_batch : @batch toy_backend :=
  @Build_batch toy_backend [] tt [].

Definition pair_batch : @batch toy_backend :=
  @Build_batch toy_backend [0%nat; 1%nat] tt [0%nat; 1%nat].




(** A store with a steep slope. *)
Definition steep_store : @UncertaintyAwareGradualDomainEnsemble toy_backend :=
  @Build_UncertaintyAwareGradualDomainEnsemble toy_backend
    (@Build_module toy_backend 0 true) [[1; 0]] [[1; 0]] 2 [].

#[local] Arguments Z.pow_pos : simpl never.

(** * Properties *)

(** ** The result monad *)

Lemma bind_ok {A C : Type} (m : res A) (f : A → res C) (c : C) :
  m ≫= f = Ok c → ∃ a, m = Ok a ∧ f a = Ok c.
Proof. destruct m as [a|e]; simpl; [eauto | discriminate]. Qed.

Ltac inv_bind H :=
  repeat match type of H with
  | (?m ≫= _) = Ok _ =>
      let a := fresh "a" in let Ha := fresh "H" a in
      apply bind_ok in H; destruct H as (a & Ha & H)
  end.

Lemma traverse_length {A C : Type} (f : A → res C) l l' :
  traverse f l = Ok l' → length l' = length l.
Proof.
  revert l'. induction l as [|a l IH]; intros l' H; simpl in H.
  - by inversion H.
  - inv_bind H. inversion H; subst. simpl. f_equal. by apply IH.
Qed.

Lemma traverse_lookup {A C : Type} (f : A → res C) l l' i a :
  traverse f l = Ok l' → l !! i = Some a →
  ∃ c, f a = Ok c ∧ l' !! i = Some c.
Proof.
  revert l' i. induction l as [|x l IH]; intros l' i H Hi; [done|].
  simpl in H. inv_bind H. inversion H; subst.
  destruct i as [|i]; simpl in *.
  - inversion Hi; subst. eauto.
  - eapply IH; eauto.
Qed.

Lemma traverse_total {A C : Type} (f : A → res C) l :
  Forall (λ a, ∃ c, f a = Ok c) l → ∃ l', traverse f l = Ok l'.
Proof.
  induction 1 as [|a l (c & Hc) _ (l' & IH)]; simpl; [eauto|].
  rewrite Hc, IH. simpl. eauto.
Qed.

(** ** Reductions over a row *)

Lemma foldl_Rmax_spec xs x :
  is_max (foldl Rmax x xs) (x :: xs).
Proof.
  revert x. induction xs as [|y xs IH]; intros x; simpl.
  - split; [left|]. intros z Hz. apply list_elem_of_singleton in Hz. subst. lra.
  - destruct (IH (Rmax x y)) as [Hin Hle]. split.
    + apply elem_of_cons in Hin as [Heq|Hin']; [rewrite Heq|by do 2 right].
      unfold Rmax. destruct (Rle_dec x y); [right|]; left.
    + intros z Hz. apply elem_of_cons in Hz as [->|Hz'].
      * etransitivity; [apply (Rmax_l _ y)|]. apply Hle. left.
      * apply elem_of_cons in Hz' as [->|Hz''].
        -- etransitivity; [apply (Rmax_r x)|]. apply Hle. left.
        -- apply Hle. by right.
Qed.

Lemma foldl_Rmin_spec xs x :
  is_min (foldl Rmin x xs) (x :: xs).
Proof.
  revert x. induction xs as [|y xs IH]; intros x; simpl.
  - split; [left|]. intros z Hz. apply list_elem_of_singleton in Hz. subst. lra.
  - destruct (IH (Rmin x y)) as [Hin Hle]. split.
    + apply elem_of_cons in Hin as [Heq|Hin']; [rewrite Heq|by do 2 right].
      unfold Rmin. destruct (Rle_dec x y); [|right]; left.
    + intros z Hz. apply elem_of_cons in Hz as [->|Hz'].
      * etransitivity; [|apply (Rmin_l _ y)]. apply Hle. left.
      * apply elem_of_cons in Hz' as [->|Hz''].
        -- etransitivity; [|apply (Rmin_r x)]. apply Hle. left.
        -- apply Hle. by right.
Qed.

Lemma amax_spec v M : amax v = Ok M → is_max M v.
Proof.
  destruct v as [|x xs]; simpl; [discriminate|].
  intros H; inversion H; subst. apply foldl_Rmax_spec.
Qed.

Lemma amin_spec v m : amin v = Ok m → is_min m v.
Proof.
  destruct v as [|x xs]; simpl; [discriminate|].
  intros H; inversion H; subst. apply foldl_Rmin_spec.
Qed.

Lemma is_max_unique v M M' : is_max M v → is_max M' v → M = M'.
Proof. intros [H1 H2] [H3 H4]. apply Rle_antisym; auto. Qed.

Lemma is_min_unique v m m' : is_min m v → is_min m' v → m = m'.
Proof. intros [H1 H2] [H3 H4]. apply Rle_antisym; auto. Qed.

(** [argmax_from], started on an entry [best] at [besti] that is the first
    largest of the [i] entries before [v], ends on the first largest entry
    of the whole row [pre ++ v]. *)
Lemma argmax_from_spec (pre v : list R) best besti :
  pre !! besti = Some best →
  (∀ j y, pre !! j = Some y → y <= best) →
  (∀ j y, (j < besti)%nat → pre !! j = Some y → y < best) →
  ∃ M, (pre ++ v) !! argmax_from best besti (length pre) v = Some M ∧
       (∀ j y, (pre ++ v) !! j = Some y → y <= M) ∧
       (∀ j y, (j < argmax_from best besti (length pre) v)%nat →
               (pre ++ v) !! j = Some y → y < M).
Proof.
  revert pre best besti. induction v as [|x v IH]; intros pre best besti Hb Hle Hlt.
  - simpl. rewrite app_nil_r. eauto.
  - simpl. replace (pre ++ x :: v) with ((pre ++ [x]) ++ v) by (by rewrite <- app_assoc).
    replace (S (length pre)) with (length (pre ++ [x])) by (rewrite length_app; simpl; lia).
    case_bool_decide as Hx.
    + apply IH.
      * rewrite lookup_app_r by lia. by rewrite Nat.sub_diag.
      * intros j y Hj. apply lookup_app_Some in Hj as [Hj|[_ Hj]].
        -- specialize (Hle j y Hj). lra.
        -- apply list_lookup_singleton_Some in Hj as [_ ->]. lra.
      * intros j y Hjl Hj. rewrite lookup_app_l in Hj by done.
        specialize (Hle j y Hj). lra.
    + apply IH.
      * apply lookup_app_l_Some. done.
      * intros j y Hj. apply lookup_app_Some in Hj as [Hj|[_ Hj]]; [by eapply Hle|].
        apply list_lookup_singleton_Some in Hj as [_ ->]. lra.
      * intros j y Hjl Hj. apply lookup_lt_Some in Hb.
        rewrite lookup_app_l in Hj by lia. by eapply Hlt.
Qed.

Lemma argmax_spec v k :
  argmax v = Ok k →
  ∃ M, v !! k = Some M ∧ is_max M v ∧
       ∀ j y, (j < k)%nat → v !! j = Some y → y < M.
Proof.
  destruct v as [|x v]; simpl; [discriminate|]. intros H; inversion H; subst; clear H.
  destruct (argmax_from_spec [x] v x 0) as (M & HM & Hle & Hlt).
  - done.
  - intros j y Hj. apply list_lookup_singleton_Some in Hj as [_ ->]. lra.
  - intros j y Hj. lia.
  - simpl in *. exists M. split; [done|]. split; [|done].
    split; [by eapply list_elem_of_lookup_2|].
    intros y Hy. apply list_elem_of_lookup in Hy as (j & Hj). by eapply Hle.
Qed.


(** ** Evaluation on concrete reals *)

Ltac shape_ok :=
  repeat first [ split | apply Forall_cons | apply Forall_nil ];
  unfold fits; simpl; first [ lia | done ].

Ltac rdecide :=
  repeat first
    [ rewrite bool_decide_eq_true_2 by (first [lra | done | simpl; lia | shape_ok])
    | rewrite bool_decide_eq_false_2 by (first [lra | done | simpl; lia])
    | rewrite decide_True by done
    | rewrite decide_False by done
    | rewrite Rmax_left by lra
    | rewrite Rmax_right by lra
    | rewrite Rmin_left by lra
    | rewrite Rmin_right by lra ].

Ltac reval := repeat (progress (cbn; rdecide)).

Ltac req :=
  first [ reflexivity
        | lazymatch goal with
          | |- _ :: _ = _ :: _ => apply (f_equal2 cons); req
          end
        | lra ].

(** ** The pseudo-label loss and its mask *)

(** C2.  Whenever [_pseudo_label_loss] returns, the mask has one entry per
    example, and the entry of example [i] tells whether the spread of its
    ensemble row, its maximum minus its minimum, is at least [alpha]; a
    spread equal to [alpha] is in the mask. *)
Theorem pseudo_label_mask_spec student ens alpha loss mask :
  _pseudo_label_loss student ens alpha = Ok (loss, mask) →
  length mask = length ens ∧
  ∀ i r, ens !! i = Some r →
    ∃ M m, is_max M r ∧ is_min m r ∧
      mask !! i = Some (bool_decide (M - m >= alpha)) ∧
      (M - m = alpha → mask !! i = Some true).
Proof.
  unfold _pseudo_label_loss. intros H. inv_bind H.
  inversion H; subst; clear H.
  pose proof (traverse_length _ _ _ Ha) as Lmx.
  pose proof (traverse_length _ _ _ Ha0) as Lmn.
  split.
  - rewrite length_fmap, length_zip_with. lia.
  - intros i r Hi.
    destruct (traverse_lookup _ _ _ _ _ Ha Hi) as (M & HM & HMi).
    destruct (traverse_lookup _ _ _ _ _ Ha0 Hi) as (m & Hm & Hmi).
    exists M, m. split; [by apply amax_spec|]. split; [by apply amin_spec|].
    assert (Hmask : ((λ c, bool_decide (c >= alpha)) <$> zip_with Rminus a a0) !! i
                    = Some (bool_decide (M - m >= alpha))).
    { rewrite list_lookup_fmap, lookup_zip_with, HMi. simpl. by rewrite Hmi. }
    split; [exact Hmask|].
    intros Heq. rewrite Hmask. f_equal. apply bool_decide_eq_true. lra.
Qed.

Lemma weighted_sum_masked nll mask :
  Rsum (zip_with (λ l b, l * mask_weight b) nll mask) = masked_sum nll mask.
Proof.
  unfold masked_sum. revert mask.
  induction nll as [|x nll IH]; intros [|b mask]; simpl; try done.
  rewrite filter_cons. destruct b; simpl.
  - rewrite Rmult_1_r. f_equal. apply IH.
  - rewrite Rmult_0_r, Rplus_0_l. apply IH.
Qed.

Lemma masked_sum_none v mask :
  count_true mask = 0%nat → masked_sum v mask = 0.
Proof.
  unfold masked_sum, count_true. revert mask.
  induction v as [|x v IH]; intros [|b mask]; simpl; try done.
  rewrite !filter_cons. destruct b; simpl; [discriminate|apply IH].
Qed.

Lemma nll_loss_length logp target nll :
  nll_loss logp target = Ok nll → length nll = length target ∧ length logp = length target.
Proof.
  unfold nll_loss. case_bool_decide as Hl; [|discriminate].
  intros H. apply traverse_length in H. rewrite length_zip in H. lia.
Qed.

Lemma per_example_nll_lookup student ens nll i sr er :
  per_example_nll student ens = Ok nll →
  student !! i = Some sr → ens !! i = Some er →
  ∃ k x, argmax er = Ok k ∧ log_softmax sr !! k = Some x ∧ nll !! i = Some (- x).
Proof.
  unfold per_example_nll, nll_loss. intros H Hs He. inv_bind H.
  case_bool_decide as Hl; [|discriminate].
  destruct (traverse_lookup _ _ _ _ _ Ha He) as (k & Hk & Hki).
  assert (Hz : zip (log_softmax <$> student) a !! i = Some (log_softmax sr, k)).
  { apply lookup_zip_with_Some. exists (log_softmax sr), k.
    split; [done|]. split; [|done]. by rewrite list_lookup_fmap, Hs. }
  destruct (traverse_lookup _ _ _ _ _ H Hz) as (y & Hy & Hyi).
  simpl in Hy. destruct (log_softmax sr !! k) as [x|] eqn:Ex; [|discriminate].
  inversion Hy; subst. eauto.
Qed.

(** C1, as the code has it.  The loss is the mean over the whole batch of
    the per-example negative log-likelihood at the teacher label, the index
    of the first largest entry of the ensemble row, with the unmasked
    examples set to zero: the masked sum divided by the batch size.  A
    non-empty batch with an empty mask gives 0; only the empty batch gives
    NaN. *)
Theorem pseudo_label_loss_value student ens alpha loss mask :
  _pseudo_label_loss student ens alpha = Ok (loss, mask) →
  ∃ nll, per_example_nll student ens = Ok nll ∧
    (∀ i sr er, student !! i = Some sr → ens !! i = Some er →
       ∃ k x M, argmax er = Ok k ∧ er !! k = Some M ∧ is_max M er ∧
                log_softmax sr !! k = Some x ∧ nll !! i = Some (- x)) ∧
    length nll = length ens ∧ length mask = length ens ∧
    loss = mean (zip_with (λ l b, l * mask_weight b) nll mask) ∧
    (ens = [] → loss = NaN) ∧
    (ens ≠ [] → loss = Num (masked_sum nll mask / INR (length ens))) ∧
    (ens ≠ [] → count_true mask = 0%nat → loss = Num 0).
Proof.
  unfold _pseudo_label_loss. intros H. inv_bind H.
  inversion H; subst; clear H.
  assert (Hnll : per_example_nll student ens = Ok a2).
  { unfold per_example_nll. by rewrite Ha1. }
  exists a2. split; [done|]. split.
  { intros i sr er Hs He.
    destruct (per_example_nll_lookup _ _ _ _ _ _ Hnll Hs He) as (k & x & Hk & Hx & Hi).
    destruct (argmax_spec _ _ Hk) as (M & HM & Hmax & _). eauto 10. }
  pose proof (traverse_length _ _ _ Ha) as Lmx.
  pose proof (traverse_length _ _ _ Ha0) as Lmn.
  pose proof (traverse_length _ _ _ Ha1) as Lt.
  destruct (nll_loss_length _ _ _ Ha2) as [Ln _].
  set (mask := (λ c, bool_decide (c >= alpha)) <$> zip_with Rminus a a0).
  assert (Lmask : length mask = length ens).
  { unfold mask. rewrite length_fmap, length_zip_with. lia. }
  assert (Lw : length (zip_with (λ l b, l * mask_weight b) a2 mask) = length ens).
  { rewrite length_zip_with. lia. }
  assert (Hne : ens ≠ [] → mean (zip_with (λ l b, l * mask_weight b) a2 mask)
                          = Num (masked_sum a2 mask / INR (length ens))).
  { intros Hens. unfold mean.
    destruct (zip_with _ a2 mask) as [|w ws] eqn:E.
    - destruct ens; [done|]. simpl in Lw. discriminate.
    - rewrite <- Lw, <- weighted_sum_masked, E. done. }
  repeat split; try lia; try done.
  - intros ->. destruct a2; [done|]. simpl in *. lia.
  - intros Hens Hc. rewrite (Hne Hens), masked_sum_none by done.
    f_equal. unfold Rdiv. lra.
Qed.

Lemma ln2_pos : 0 < ln 2.
Proof. rewrite <- ln_1. apply ln_increasing; lra. Qed.


(** ** Epoch accounting *)

Section Epochs.
Context `{B : Backend}.

Lemma pseudo_label_loss_mask student ens alpha loss mask :
  _pseudo_label_loss student ens alpha = Ok (loss, mask) →
  ∃ mx mn, traverse amax ens = Ok mx ∧ traverse amin ens = Ok mn ∧
    mask = (λ c, bool_decide (c >= alpha)) <$> zip_with Rminus mx mn.
Proof.
  unfold _pseudo_label_loss. intros H. inv_bind H. inversion H; subst. eauto.
Qed.

Lemma batch_mask_of_loss z alpha (b : batch) ens student loss mask :
  gather z (b_idx b) = Ok ens →
  _pseudo_label_loss student ens alpha = Ok (loss, mask) →
  batch_mask z alpha b = Ok mask.
Proof.
  intros Hg Hl. apply pseudo_label_loss_mask in Hl as (mx & mn & Hmx & Hmn & ->).
  unfold batch_mask. rewrite Hg. simpl. rewrite Hmx. simpl. by rewrite Hmn.
Qed.

Lemma sum_list_cons (x : nat) (l : list nat) :
  sum_list (x :: l) = (x + sum_list l)%nat.
Proof. reflexivity. Qed.

Lemma train_batches_totals z alpha ld m o t m' o' t' :
  train_batches z alpha ld (m, o, t) = Ok (m', o', t') →
  ∃ masks, traverse (batch_mask z alpha) ld = Ok masks ∧
    total_num t' = (total_num t + sum_list (count_true <$> masks))%nat ∧
    length (total_logits t') = (length (total_logits t) + length ld)%nat.
Proof.
  revert m o t. induction ld as [|b ld IH]; intros m o t H; simpl in H.
  - inversion H; subst. exists []. simpl. split; [done|]. lia.
  - inv_bind H. destruct a0 as [loss mask].
    destruct (opt_step _ _ _ _ _) as [w' o1].
    apply IH in H as (masks & Hm & Hn & Hl).
    exists (mask :: masks). split.
    + simpl. rewrite (batch_mask_of_loss _ _ _ _ _ _ _ Ha Ha0). simpl.
      by rewrite Hm.
    + rewrite fmap_cons. simpl in Hn, Hl. rewrite length_app in Hl.
      simpl in Hl. rewrite sum_list_cons, length_cons. lia.
Qed.

Lemma eval_batches_totals z alpha m ld t t' :
  eval_batches z alpha m ld t = Ok t' →
  ∃ masks, traverse (batch_mask z alpha) ld = Ok masks ∧
    total_num t' = (total_num t + sum_list (count_true <$> masks))%nat ∧
    length (total_logits t') = (length (total_logits t) + length ld)%nat.
Proof.
  revert t. induction ld as [|b ld IH]; intros t H; simpl in H.
  - inversion H; subst. exists []. simpl. split; [done|]. lia.
  - inv_bind H. destruct a0 as [loss mask].
    apply IH in H as (masks & Hm & Hn & Hl).
    exists (mask :: masks). split.
    + simpl. rewrite (batch_mask_of_loss _ _ _ _ _ _ _ Ha Ha0). simpl.
      by rewrite Hm.
    + rewrite fmap_cons. simpl in Hn, Hl. rewrite length_app in Hl.
      simpl in Hl. rewrite sum_list_cons, length_cons. lia.
Qed.

Lemma finish_epoch_zero t :
  total_num t = 0%nat → finish_epoch t = Err ZeroDivisionError.
Proof. unfold finish_epoch. by intros ->. Qed.

Lemma sum_list_pos (l : list nat) :
  sum_list l ≠ 0%nat → ∃ k n, l !! k = Some n ∧ n ≠ 0%nat.
Proof.
  induction l as [|x l IH]; simpl; [done|]. intros H.
  destruct (decide (x = 0%nat)) as [->|Hx].
  - destruct (IH H) as (k & n & Hk & Hn). by exists (S k), n.
  - by exists 0%nat, x.
Qed.

Lemma masks_some_pass z alpha (ld : loader) masks :
  traverse (batch_mask z alpha) ld = Ok masks →
  sum_list (count_true <$> masks) ≠ 0%nat →
  ∃ b mask, b ∈ ld ∧ batch_mask z alpha b = Ok mask ∧ true ∈ mask.
Proof.
  intros Ht Hs. apply sum_list_pos in Hs as (k & n & Hk & Hn).
  rewrite list_lookup_fmap in Hk.
  destruct (masks !! k) as [mask|] eqn:Hmk; [|done]. simpl in Hk. inversion Hk; subst.
  pose proof (traverse_length _ _ _ Ht) as Hlen.
  destruct (ld !! k) as [b|] eqn:Hb.
  - destruct (traverse_lookup _ _ _ _ _ Ht Hb) as (mask' & Hbm & Hmk').
    rewrite Hmk in Hmk'. inversion Hmk'; subst.
    exists b, mask'. split; [by eapply list_elem_of_lookup_2|]. split; [done|].
    unfold count_true in Hn.
    destruct (filter (λ b, b = true) mask') as [|x xs] eqn:Hf; [done|].
    assert (Hx : x ∈ filter (λ b, b = true) mask') by (rewrite Hf; left).
    apply list_elem_of_filter in Hx as [-> Hx]. done.
  - apply lookup_ge_None in Hb. apply lookup_lt_Some in Hmk. lia.
Qed.

Lemma finish_epoch_eq t n :
  total_num t = n → length (total_logits t) ≠ 0%nat →
  finish_epoch t =
    match n with
    | O => Err ZeroDivisionError
    | S _ => l ← py_truediv (total_loss t) n;
             Ok (l, IMValidator (concat (total_logits t)))
    end.
Proof.
  intros <- Hl. unfold finish_epoch.
  destruct (total_num t); [done|]. simpl.
  destruct (total_logits t); [done|]. done.
Qed.

Lemma masks_empty_loader z alpha (ld : loader) masks :
  traverse (batch_mask z alpha) ld = Ok masks →
  sum_list (count_true <$> masks) ≠ 0%nat → length ld ≠ 0%nat.
Proof. destruct ld; simpl; [|done]. intros H; inversion H; subst. done. Qed.

(** C9.  Both epochs divide the accumulated loss by [total_num], the number
    of mask-passing examples summed over the batches.  When the loop over
    the loader completes with [total_num = 0] the epoch raises
    ZeroDivisionError; an epoch that returns has at least one batch with an
    example in its mask. *)
Theorem epoch_needs_masked_example (s : UncertaintyAwareGradualDomainEnsemble)
    (m : module) (ld : loader) (o : optim) (alpha : R) :
  (∀ m' o' t,
     train_batches (ens_z s) alpha ld (set_training m true, o, totals0) = Ok (m', o', t) →
     ∃ masks, traverse (batch_mask (ens_z s) alpha) ld = Ok masks ∧
       total_num t = sum_list (count_true <$> masks) ∧
       _adapt_train_epoch s m ld o alpha =
         match total_num t with
         | O => Err ZeroDivisionError
         | S _ => l ← py_truediv (total_loss t) (total_num t);
                  Ok (m', o', (l, IMValidator (concat (total_logits t))))
         end) ∧
  (∀ t,
     eval_batches (ens_z s) alpha (set_training m false) ld totals0 = Ok t →
     ∃ masks, traverse (batch_mask (ens_z s) alpha) ld = Ok masks ∧
       total_num t = sum_list (count_true <$> masks) ∧
       _adapt_eval_epoch s m ld alpha =
         match total_num t with
         | O => Err ZeroDivisionError
         | S _ => l ← py_truediv (total_loss t) (total_num t);
                  Ok (set_training m false, (l, IMValidator (concat (total_logits t))))
         end) ∧
  (∀ r, _adapt_train_epoch s m ld o alpha = Ok r →
     ∃ b mask, b ∈ ld ∧ batch_mask (ens_z s) alpha b = Ok mask ∧ true ∈ mask) ∧
  (∀ r, _adapt_eval_epoch s m ld alpha = Ok r →
     ∃ b mask, b ∈ ld ∧ batch_mask (ens_z s) alpha b = Ok mask ∧ true ∈ mask).
Proof.
  assert (Htrain : ∀ m' o' t,
     train_batches (ens_z s) alpha ld (set_training m true, o, totals0) = Ok (m', o', t) →
     ∃ masks, traverse (batch_mask (ens_z s) alpha) ld = Ok masks ∧
       total_num t = sum_list (count_true <$> masks) ∧
       _adapt_train_epoch s m ld o alpha =
         match total_num t with
         | O => Err ZeroDivisionError
         | S _ => l ← py_truediv (total_loss t) (total_num t);
                  Ok (m', o', (l, IMValidator (concat (total_logits t))))
         end).
  { intros m' o' t H.
    destruct (train_batches_totals _ _ _ _ _ _ _ _ _ H) as (masks & Hm & Hn & Hl).
    simpl in Hn, Hl. exists masks. split; [done|]. split; [done|].
    unfold _adapt_train_epoch. rewrite H. simpl.
    destruct (total_num t) as [|n] eqn:En.
    - by rewrite finish_epoch_zero.
    - rewrite (finish_epoch_eq t (S n)); [done|done|].
      rewrite Hl. eapply masks_empty_loader; [done|]. lia. }
  assert (Heval : ∀ t,
     eval_batches (ens_z s) alpha (set_training m false) ld totals0 = Ok t →
     ∃ masks, traverse (batch_mask (ens_z s) alpha) ld = Ok masks ∧
       total_num t = sum_list (count_true <$> masks) ∧
       _adapt_eval_epoch s m ld alpha =
         match total_num t with
         | O => Err ZeroDivisionError
         | S _ => l ← py_truediv (total_loss t) (total_num t);
                  Ok (set_training m false, (l, IMValidator (concat (total_logits t))))
         end).
  { intros t H.
    destruct (eval_batches_totals _ _ _ _ _ _ H) as (masks & Hm & Hn & Hl).
    simpl in Hn, Hl. exists masks. split; [done|]. split; [done|].
    unfold _adapt_eval_epoch. rewrite H. simpl.
    destruct (total_num t) as [|n] eqn:En.
    - by rewrite finish_epoch_zero.
    - rewrite (finish_epoch_eq t (S n)); [done|done|].
      rewrite Hl. eapply masks_empty_loader; [done|]. lia. }
  split; [exact Htrain|]. split; [exact Heval|]. split.
  - intros r Hr. pose proof Hr as Hr'. unfold _adapt_train_epoch in Hr'.
    inv_bind Hr'. destruct a as [[m' o'] t].
    destruct (Htrain _ _ _ Ha) as (masks & Hm & Hn & He).
    rewrite Hr in He. destruct (total_num t) eqn:En; [discriminate|].
    eapply masks_some_pass; [done|]. lia.
  - intros r Hr. pose proof Hr as Hr'. unfold _adapt_eval_epoch in Hr'.
    inv_bind Hr'.
    destruct (Heval _ Ha) as (masks & Hm & Hn & He).
    rewrite Hr in He. destruct (total_num a) eqn:En; [discriminate|].
    eapply masks_some_pass; [done|]. lia.
Qed.
End Epochs.

(** ** Sorting and the quantile *)

Lemma insert_sorted_elem x l y : y ∈ insert_sorted x l ↔ y = x ∨ y ∈ l.
Proof.
  induction l as [|z l IH]; simpl.
  - rewrite list_elem_of_singleton. split; [auto|]. intros [->|H]; [done|]. inversion H.
  - case_bool_decide; rewrite !elem_of_cons; [tauto|]. rewrite IH. tauto.
Qed.

Lemma insert_sorted_length x l : length (insert_sorted x l) = S (length l).
Proof.
  induction l as [|z l IH]; simpl; [done|].
  case_bool_decide; simpl; [done|]. by rewrite IH.
Qed.

Lemma insert_sorted_ascending x l :
  StronglySorted Rle l → StronglySorted Rle (insert_sorted x l).
Proof.
  induction l as [|z l IH]; simpl; intros Hs.
  - repeat constructor.
  - apply StronglySorted_cons in Hs as [Hz Hs].
    case_bool_decide as Hxz.
    + apply StronglySorted_cons. split.
      * constructor; [done|]. eapply Forall_impl; [exact Hz|]. intros y Hy. simpl in Hy. lra.
      * by apply StronglySorted_cons.
    + apply StronglySorted_cons. split; [|by apply IH].
      apply Forall_forall. intros y Hy. apply insert_sorted_elem in Hy as [->|Hy].
      * lra.
      * by eapply Forall_forall in Hz.
Qed.

Lemma sort_asc_ascending l : StronglySorted Rle (sort_asc l).
Proof.
  induction l as [|x l IH]; simpl; [constructor|]. by apply insert_sorted_ascending.
Qed.

Lemma sort_asc_length l : length (sort_asc l) = length l.
Proof.
  induction l as [|x l IH]; simpl; [done|]. by rewrite insert_sorted_length, IH.
Qed.

Lemma ascending_nth l i j :
  StronglySorted Rle l → (i <= j < length l)%nat → nth i l 0 <= nth j l 0.
Proof.
  intros Hs. revert i j. induction Hs as [|x l Hs IH Hx]; intros i j Hij; simpl in *; [lia|].
  destruct i as [|i], j as [|j]; try lia.
  - lra.
  - eapply Forall_forall in Hx; [exact Hx|]. apply list_elem_of_In, nth_In. lia.
  - apply IH. lia.
Qed.

Lemma floorZ_bounds x : IZR (floorZ x) <= x < IZR (floorZ x) + 1.
Proof. unfold floorZ. destruct (base_Int_part x). lra. Qed.

Lemma ceilZ_bounds x : x <= IZR (ceilZ x) < x + 1.
Proof.
  unfold ceilZ. rewrite opp_IZR. destruct (base_Int_part (- x)). lra.
Qed.

Lemma floorZ_mono x y : x <= y → (floorZ x <= floorZ y)%Z.
Proof.
  intros Hxy. pose proof (floorZ_bounds x). pose proof (floorZ_bounds y).
  apply Z.lt_succ_r, lt_IZR. rewrite succ_IZR. lra.
Qed.

Lemma ceilZ_mono x y : x <= y → (ceilZ x <= ceilZ y)%Z.
Proof.
  intros Hxy. pose proof (ceilZ_bounds x). pose proof (ceilZ_bounds y).
  apply Z.lt_succ_r, lt_IZR. rewrite succ_IZR. lra.
Qed.

Lemma floorZ_le_ceilZ x : (floorZ x <= ceilZ x <= floorZ x + 1)%Z.
Proof.
  pose proof (floorZ_bounds x). pose proof (ceilZ_bounds x). split.
  - apply le_IZR. lra.
  - apply Z.lt_succ_r, lt_IZR. rewrite succ_IZR, plus_IZR. lra.
Qed.

Lemma rank_indices (l : list R) p :
  0 <= p <= INR (length l) - 1 →
  (0 <= floorZ p)%Z ∧ (Z.to_nat (floorZ p) <= Z.to_nat (ceilZ p) < length l)%nat.
Proof.
  intros Hp. pose proof (floorZ_bounds p). pose proof (ceilZ_bounds p).
  pose proof (floorZ_le_ceilZ p).
  assert (0 <= floorZ p)%Z.
  { apply Z.lt_succ_r, lt_IZR. rewrite succ_IZR. lra. }
  assert (ceilZ p < Z.of_nat (length l))%Z.
  { apply lt_IZR. rewrite <- INR_IZR_INZ. lra. }
  split; [done|]. lia.
Qed.

Lemma at_rank_bounds (l : list R) p :
  StronglySorted Rle l → 0 <= p <= INR (length l) - 1 →
  nth (Z.to_nat (floorZ p)) l 0 <= at_rank l p <= nth (Z.to_nat (ceilZ p)) l 0.
Proof.
  intros Hs Hp. destruct (rank_indices l p Hp) as [H0 Hi].
  pose proof (ascending_nth l _ _ Hs Hi) as Hle.
  pose proof (floorZ_bounds p). unfold at_rank, lerp. nra.
Qed.

Lemma at_rank_mono (l : list R) p1 p2 :
  StronglySorted Rle l → 0 <= p1 → p1 <= p2 → p2 <= INR (length l) - 1 →
  at_rank l p1 <= at_rank l p2.
Proof.
  intros Hs H0 H12 Hn.
  assert (Hp1 : 0 <= p1 <= INR (length l) - 1) by lra.
  assert (Hp2 : 0 <= p2 <= INR (length l) - 1) by lra.
  destruct (rank_indices l p1 Hp1) as [Hf1 Hi1].
  destruct (rank_indices l p2 Hp2) as [Hf2 Hi2].
  pose proof (floorZ_mono p1 p2 H12) as Hfm.
  pose proof (ceilZ_mono p1 p2 H12) as Hcm.
  pose proof (floorZ_le_ceilZ p1) as Hfc1.
  pose proof (at_rank_bounds l p1 Hs Hp1) as Hb1.
  pose proof (at_rank_bounds l p2 Hs Hp2) as Hb2.
  destruct (decide (floorZ p1 = floorZ p2)) as [Heq|Hne].
  - assert (Hhi : nth (Z.to_nat (ceilZ p1)) l 0 <= nth (Z.to_nat (ceilZ p2)) l 0).
    { apply ascending_nth; [done|]. lia. }
    assert (Hlo : nth (Z.to_nat (floorZ p1)) l 0 <= nth (Z.to_nat (ceilZ p1)) l 0).
    { apply ascending_nth; [done|]. lia. }
    pose proof (floorZ_bounds p1). pose proof (floorZ_bounds p2).
    unfold at_rank, lerp. rewrite <- Heq in *.
    set (a := nth (Z.to_nat (floorZ p1)) l 0) in *.
    set (b1 := nth (Z.to_nat (ceilZ p1)) l 0) in *.
    set (b2 := nth (Z.to_nat (ceilZ p2)) l 0) in *.
    set (f := IZR (floorZ p1)) in *.
    nra.
  - assert (Hmid : nth (Z.to_nat (ceilZ p1)) l 0 <= nth (Z.to_nat (floorZ p2)) l 0).
    { apply ascending_nth; [done|]. lia. }
    lra.
Qed.

Lemma quantile_ok v q a :
  quantile v q = Ok a →
  v ≠ [] ∧ 0 <= q <= 1 ∧ a = at_rank (sort_asc v) (q * INR (length v - 1)).
Proof.
  unfold quantile. pose proof (sort_asc_length v) as Hl.
  case_bool_decide as Hq; [|discriminate].
  destruct (sort_asc v) as [|x l] eqn:E; [discriminate|]. intros H; inversion H; subst.
  split; [by intros ->|]. split; [done|]. unfold at_rank. rewrite <- Hl. reflexivity.
Qed.

Lemma quantile_returns v q :
  v ≠ [] → 0 <= q <= 1 → quantile v q = Ok (at_rank (sort_asc v) (q * INR (length v - 1))).
Proof.
  intros Hv Hq. unfold quantile. pose proof (sort_asc_length v) as Hl.
  rewrite bool_decide_eq_true_2 by done.
  destruct (sort_asc v) as [|x l] eqn:E.
  - destruct v; [done|]. discriminate.
  - unfold at_rank. rewrite <- Hl. reflexivity.
Qed.

Lemma quantile_mono v q1 q2 a1 :
  0 <= q1 → q1 <= q2 → q2 <= 1 → quantile v q1 = Ok a1 →
  ∃ a2, quantile v q2 = Ok a2 ∧ a1 <= a2.
Proof.
  intros H0 H12 H1 Hq. apply quantile_ok in Hq as (Hv & _ & ->).
  eexists. split; [apply quantile_returns; [done|lra]|].
  assert (Hn : INR (length v - 1) = INR (length v) - 1).
  { destruct v as [|x v]; [done|]. rewrite minus_INR by (simpl; lia). simpl (INR 1). lra. }
  assert (0 <= INR (length v - 1)) by apply pos_INR.
  apply at_rank_mono.
  - apply sort_asc_ascending.
  - nra.
  - nra.
  - rewrite sort_asc_length, <- Hn. nra.
Qed.

(** ** The confidence threshold and the momentum *)

Section Thresholder.
Context `{B : Backend}.

(** C5.  For a fixed store and loader, [_calc_alpha] is non-decreasing in
    [confidence_q] on [0, 1]: when it returns for [q1] it returns for every
    larger [q2], with a value at least as large. *)
Theorem calc_alpha_monotone (s : UncertaintyAwareGradualDomainEnsemble)
    (ld : loader) (q1 q2 alpha1 : R) :
  0 <= q1 → q1 <= q2 → q2 <= 1 →
  _calc_alpha s ld q1 = Ok alpha1 →
  ∃ alpha2, _calc_alpha s ld q2 = Ok alpha2 ∧ alpha1 <= alpha2.
Proof.
  intros H0 H12 H1. unfold _calc_alpha. intros H. inv_bind H.
  rewrite Ha. simpl. rewrite Ha0. simpl. rewrite Ha1. simpl. rewrite Ha2. simpl.
  by eapply quantile_mono.
Qed.

(** C8.  On a loader that yields no batch [_calc_alpha] raises: [torch.cat]
    rejects the empty list, an error of the invalid-input class, and no
    value is returned. *)
Theorem calc_alpha_empty_loader (s : UncertaintyAwareGradualDomainEnsemble) (q : R) :
  _calc_alpha s [] q = Err CatEmptyError ∧
  classify CatEmptyError = InvalidInput ∧
  ∀ a, _calc_alpha s [] q ≠ Ok a.
Proof. repeat split. intros a H. discriminate. Qed.

Lemma cat_ok ts t : cat ts = Ok t → t = concat ts ∧ ts ≠ [].
Proof. destruct ts; simpl; [discriminate|]. intros H; inversion H. done. Qed.

Lemma clip_bounds x : 0 <= clip x 0 1 <= 1.
Proof.
  unfold clip, Rmin, Rmax.
  destruct (Rle_dec x 0); destruct (Rle_dec _ 1); lra.
Qed.

Lemma clip_sat_hi x : 1 <= x → clip x 0 1 = 1.
Proof.
  intros Hx. unfold clip, Rmin, Rmax.
  destruct (Rle_dec x 0); destruct (Rle_dec _ 1); lra.
Qed.

Lemma clip_sat_lo x : x <= 0 → clip x 0 1 = 0.
Proof.
  intros Hx. unfold clip, Rmin, Rmax.
  destruct (Rle_dec x 0); destruct (Rle_dec _ 1); lra.
Qed.

Lemma clip_id x : 0 <= x <= 1 → clip x 0 1 = x.
Proof.
  intros Hx. unfold clip, Rmin, Rmax.
  destruct (Rle_dec x 0); destruct (Rle_dec _ 1); lra.
Qed.

Lemma collect_probs_spec (s : UncertaintyAwareGradualDomainEnsemble) (ld : loader)
    te tc te' tc' :
  collect_probs s ld (te, tc) = Ok (te', tc') →
  ∃ zs, traverse (λ b, gather (ens_z s) (b_idx b)) ld = Ok zs ∧
        te' = te ++ zs ∧
        tc' = tc ++ ((λ b, softmax <$> call (model s) (b_data b)) <$> ld).
Proof.
  revert te tc. induction ld as [|b ld IH]; intros te tc H.
  - inversion H; subst. exists []. by rewrite !app_nil_r.
  - cbn [collect_probs] in H. inv_bind H.
    destruct (IH _ _ H) as (zs & Hzs & -> & ->).
    exists (a :: zs). cbn [traverse]. rewrite Ha, Hzs. cbn [mbind res_bind].
    rewrite fmap_cons, <- !app_assoc. done.
Qed.

Lemma entropy_nan (probs : tensor) : _entropy probs = NaN ↔ probs = [].
Proof.
  unfold _entropy, mean. destruct probs as [|r probs]; [done|].
  rewrite fmap_cons. split; discriminate.
Qed.

(** C3, corrected.  On a store [z] without negative entries, the momentum
    of a store update is computed from two average entropies: the one of
    the softmax of the model's outputs over the loader (current) and the one
    of the rows of [z] at the loader's ids (ensemble).  For the first domain
    it is 0 whatever they are.  For another domain it is NaN when one of the
    two tensors has no row (its mean is NaN), and otherwise
    [clip(0.5 + slope * (current - ensemble), 0, 1)], a number in [0, 1]
    that is 1 when the argument is at least 1 and 0 when it is at most 0.
    It is 0 for every slope and all entropies exactly when the domain index
    is 1. *)
Theorem momentum_clipped_or_forced (s : UncertaintyAwareGradualDomainEnsemble)
    (domain_idx : Z) (ld : loader) :
  (∀ momentum,
     Forall (λ r : row, ∀ x, x ∈ r → 0 <= x) (ens_z s) →
     compute_momentum s domain_idx ld = Ok momentum →
     ∃ zs,
       traverse (λ b, gather (ens_z s) (b_idx b)) ld = Ok zs ∧ ld ≠ [] ∧
       let total_current_probs :=
         concat ((λ b, softmax <$> call (model s) (b_data b)) <$> ld) in
       let total_ensemble_probs := concat zs in
       (domain_idx = 1%Z → momentum = Num 0) ∧
       (domain_idx ≠ 1%Z →
        total_current_probs = [] ∨ total_ensemble_probs = [] → momentum = NaN) ∧
       (domain_idx ≠ 1%Z → total_current_probs ≠ [] → total_ensemble_probs ≠ [] →
        ∃ current ensemble,
          _entropy total_current_probs = Num current ∧
          _entropy total_ensemble_probs = Num ensemble ∧
          momentum = Num (clip (0.5 + slope s * (current - ensemble)) 0 1) ∧
          0 <= clip (0.5 + slope s * (current - ensemble)) 0 1 <= 1 ∧
          (1 <= 0.5 + slope s * (current - ensemble) → momentum = Num 1) ∧
          (0.5 + slope s * (current - ensemble) <= 0 → momentum = Num 0))) ∧
  ((∀ sl current ensemble, momentum_of sl domain_idx current ensemble = Num 0)
   ↔ domain_idx = 1%Z).
Proof.
  split.
  - intros mo _ H. unfold compute_momentum in H. inv_bind H.
    destruct a as [tot_ens tot_cur]. inv_bind H.
    apply cat_ok in Ha0 as [-> _]. apply cat_ok in Ha1 as [-> Hne].
    destruct (collect_probs_spec _ _ _ _ _ _ Ha) as (zs & Hzs & -> & ->).
    rewrite !app_nil_l in *. inversion H; subst mo; clear H.
    exists zs. split; [done|]. split.
    { intros ->. by apply Hne. }
    cbv zeta. unfold momentum_of. split; [|split].
    + intros ->. by rewrite bool_decide_eq_false_2 by (intros Hn; by apply Hn).
    + intros Hd Hno. rewrite bool_decide_eq_true_2 by done.
      destruct Hno as [E|E]; rewrite E.
      * done.
      * by destruct (_entropy _).
    + intros Hd Hc He. rewrite bool_decide_eq_true_2 by done.
      destruct (_entropy (concat (_ <$> ld))) as [c|] eqn:Ec.
      2:{ by apply entropy_nan in Ec. }
      destruct (_entropy (concat zs)) as [e|] eqn:Ee.
      2:{ by apply entropy_nan in Ee. }
      exists c, e. repeat split; try done.
      * apply clip_bounds.
      * apply clip_bounds.
      * intros Hhi. by rewrite clip_sat_hi.
      * intros Hlo. by rewrite clip_sat_lo.
  - split.
    + intros H. destruct (decide (domain_idx = 1%Z)) as [|Hn]; [done|].
      specialize (H 0 (Num 0) (Num 0)). unfold momentum_of in H.
      rewrite bool_decide_eq_true_2 in H by done.
      inversion H as [Hc]. rewrite clip_id in Hc by lra. lra.
    + intros -> sl c e. unfold momentum_of.
      by rewrite bool_decide_eq_false_2 by (intros Hn; by apply Hn).
Qed.

End Thresholder.

(** ** The store update *)

Lemma write_rows_length t idx vals : length (write_rows t idx vals) = length t.
Proof.
  revert t vals. induction idx as [|i idx IH]; intros t [|v vals]; simpl; try done.
  rewrite IH. apply length_insert.
Qed.

Lemma write_rows_other t idx vals (i : nat) :
  i ∉ idx → write_rows t idx vals !! i = t !! i.
Proof.
  revert t vals. induction idx as [|j idx IH]; intros t [|v vals] Hi; simpl; try done.
  apply not_elem_of_cons in Hi as [Hij Hi].
  rewrite IH by done. by apply list_lookup_insert_ne.
Qed.

(** When every value written at index [j] is [f j], that is what is read
    back at a written index, however often it is repeated. *)
Lemma write_rows_written (f : nat → row) t idx vals (i : nat) :
  length vals = length idx →
  (∀ k j v, idx !! k = Some j → vals !! k = Some v → v = f j) →
  i ∈ idx → (i < length t)%nat →
  write_rows t idx vals !! i = Some (f i).
Proof.
  revert t vals. induction idx as [|j idx IH]; intros t [|v vals] Hl Hf Hi Hlt;
    simpl in Hl; cbn [write_rows]; try done.
  - by apply elem_of_nil in Hi.
  - destruct (decide (i ∈ idx)) as [Hin|Hnin].
    + apply IH; [lia| |done|by rewrite length_insert].
      intros k j' v' Hk Hv. by apply (Hf (S k)).
    + apply elem_of_cons in Hi as [->|Hi]; [|done].
      rewrite write_rows_other by done.
      rewrite list_lookup_insert_eq by done. f_equal. by apply (Hf 0%nat).
Qed.

Lemma index_put_ok t idx vals t' :
  index_put t idx vals = Ok t' →
  t' = write_rows t idx vals ∧ length vals = length idx ∧
  Forall (λ i, (i < length t)%nat) idx.
Proof.
  unfold index_put. case_bool_decide as Hb; [|discriminate].
  case_bool_decide as Hs; [|discriminate]. intros H; inversion H. tauto.
Qed.

Lemma gather_lookup t idx rows k j :
  gather t idx = Ok rows → idx !! k = Some j →
  ∃ r, t !! j = Some r ∧ rows !! k = Some r.
Proof.
  intros Hg Hk. destruct (traverse_lookup _ _ _ _ _ Hg Hk) as (r & Hr & Hrk).
  destruct (t !! j) as [r'|]; [|discriminate]. inversion Hr; subst. eauto.
Qed.

Section Store.
Context `{B : Backend}.

Local Abbreviation self_t := UncertaintyAwareGradualDomainEnsemble.

Lemma update_batch_frame momentum (b : batch) (s : self_t) (i : nat) :
  i ∉ b_idx b →
  ens_Z (update_batch momentum b s).1 !! i = ens_Z s !! i ∧
  ens_z (update_batch momentum b s).1 !! i = ens_z s !! i.
Proof.
  intros Hi. unfold update_batch. destruct momentum as [[m|]|]; [| |done].
  2:{ destruct (_ ≫= _); [|done]. by destruct (b_idx b). }
  destruct (_ ≫= _) as [Z'|e] eqn:EZ; [|done].
  inv_bind EZ. apply index_put_ok in EZ as (-> & _ & _).
  destruct (_ ≫= _) as [z'|e] eqn:Ez; simpl.
  - inv_bind Ez. apply index_put_ok in Ez as (-> & _ & _). simpl.
    by rewrite !write_rows_other.
  - by rewrite write_rows_other.
Qed.

Lemma update_batch_sync momentum (b : batch) (s s' : self_t) (i : nat) :
  update_batch momentum b s = (s', Ok ()) →
  i ∈ b_idx b ∨ in_sync s i → in_sync s' i.
Proof.
  intros H Hi.
  destruct (decide (i ∈ b_idx b)) as [Hin|Hnin].
  - clear Hi. unfold update_batch in H. destruct momentum as [[m|]|]; [| |by inversion H].
    2:{ destruct (_ ≫= _); [|by inversion H].
        destruct (b_idx b); [by apply elem_of_nil in Hin|by inversion H]. }
    destruct (_ ≫= _) as [Z'|e] eqn:EZ; [|by inversion H].
    destruct (_ ≫= _) as [z'|e] eqn:Ez in H; inversion H; subst; clear H.
    inv_bind EZ. apply index_put_ok in EZ as (-> & _ & HZr).
    inv_bind Ez. apply index_put_ok in Ez as (-> & Hlen & Hzr). simpl in *.
    rewrite length_fmap in Hlen.
    assert (HiZ : (i < length (ens_Z s))%nat) by (by eapply Forall_forall in HZr).
    assert (Hiz : (i < length (ens_z s))%nat) by (by eapply Forall_forall in Hzr).
    destruct (write_rows (ens_Z s) (b_idx b) a0 !! i) as [r|] eqn:Er.
    2:{ apply lookup_ge_None in Er. rewrite write_rows_length in Er. lia. }
    exists r. split; [done|]. unfold in_sync. simpl.
    rewrite (write_rows_written
               (λ j, F_normalize (default [] (write_rows (ens_Z s) (b_idx b) a0 !! j)))).
    + by rewrite Er.
    + by rewrite length_fmap.
    + intros k j v Hk Hv. rewrite list_lookup_fmap in Hv.
      destruct (gather_lookup _ _ _ _ _ Ha1 Hk) as (r' & Hr' & Hrk).
      rewrite Hrk in Hv. inversion Hv. by rewrite Hr'.
    + done.
    + done.
  - destruct Hi as [Hi|(r & HZ & Hz)]; [done|].
    destruct (update_batch_frame momentum b s i Hnin) as [EZ Ez].
    rewrite H in EZ, Ez. simpl in *. exists r. by rewrite EZ, Ez.
Qed.


Lemma update_batches_frame momentum (ld : loader) (s : self_t) (i : nat) :
  (∀ b, b ∈ ld → i ∉ b_idx b) →
  ens_Z (update_batches momentum ld s).1 !! i = ens_Z s !! i ∧
  ens_z (update_batches momentum ld s).1 !! i = ens_z s !! i.
Proof.
  revert s. induction ld as [|b ld IH]; intros s Hi; simpl; [done|].
  destruct (update_batch_frame momentum b s i) as [EZ Ez].
  { apply Hi. left. }
  destruct (update_batch momentum b s) as [s1 [[]|e]]; simpl in *.
  - destruct (IH s1) as [EZ' Ez']. { intros b' Hb'. apply Hi. by right. }
    by rewrite EZ', Ez'.
  - done.
Qed.

Lemma update_batches_sync momentum (ld : loader) (s s' : self_t) (i : nat) :
  update_batches momentum ld s = (s', Ok ()) →
  (∃ b, b ∈ ld ∧ i ∈ b_idx b) ∨ in_sync s i → in_sync s' i.
Proof.
  revert s. induction ld as [|b ld IH]; intros s H Hi; simpl in H.
  - inversion H; subst. destruct Hi as [(b & Hb & _)|Hi]; [|done].
    by apply elem_of_nil in Hb.
  - destruct (update_batch momentum b s) as [s1 [[]|e]] eqn:E; [|by inversion H].
    apply (IH s1 H).
    destruct Hi as [(b' & Hb' & Hi)|Hi].
    + apply elem_of_cons in Hb' as [->|Hb'].
      * right. eapply update_batch_sync; eauto.
      * left. eauto.
    + right. eapply update_batch_sync; eauto.
Qed.

Lemma update_domains_frame domain_idx (ds : list (Z * loader)) momentum
    (s : self_t) (i : nat) :
  (∀ d ld b, (d, ld) ∈ ds → (domain_idx <= d)%Z → b ∈ ld → i ∉ b_idx b) →
  ens_Z (update_domains domain_idx ds momentum s).1 !! i = ens_Z s !! i ∧
  ens_z (update_domains domain_idx ds momentum s).1 !! i = ens_z s !! i.
Proof.
  revert momentum s. induction ds as [|[d ld] ds IH]; intros momentum s Hi; simpl; [done|].
  assert (Hrest : ∀ d' ld' b, (d', ld') ∈ ds → (domain_idx <= d')%Z → b ∈ ld' → i ∉ b_idx b).
  { intros d' ld' b' Hin. apply Hi. by right. }
  case_bool_decide as Hlt; [by apply IH|].
  destruct (if bool_decide (d = domain_idx) then _ else _) as [mo|e]; [|done].
  destruct (update_batches_frame mo ld s i) as [EZ Ez].
  { intros b' Hb'. apply (Hi d ld); [left|lia|done]. }
  destruct (update_batches mo ld s) as [s1 [[]|e]]; simpl in *; [|done].
  destruct (IH mo s1 Hrest) as [EZ' Ez']. by rewrite EZ', Ez'.
Qed.

Lemma update_domains_sync domain_idx (ds : list (Z * loader)) momentum
    (s s' : self_t) (i : nat) :
  update_domains domain_idx ds momentum s = (s', Ok ()) →
  (∃ d ld b, (d, ld) ∈ ds ∧ (domain_idx <= d)%Z ∧ b ∈ ld ∧ i ∈ b_idx b) ∨ in_sync s i →
  in_sync s' i.
Proof.
  revert momentum s. induction ds as [|[d ld] ds IH]; intros momentum s H Hi; simpl in H.
  - inversion H; subst. destruct Hi as [(d & ld & b & Hd & _)|Hi]; [|done].
    by apply elem_of_nil in Hd.
  - case_bool_decide as Hlt.
    + apply (IH _ _ H). destruct Hi as [(d' & ld' & b & Hd & Hle & Hb & Hi)|Hi]; [|by right].
      apply elem_of_cons in Hd as [Heq|Hd].
      * inversion Heq; subst. lia.
      * left. eauto 10.
    + destruct (if bool_decide (d = domain_idx) then _ else _) as [mo|e]; [|by inversion H].
      destruct (update_batches mo ld s) as [s1 [[]|e]] eqn:E; [|by inversion H].
      apply (IH _ _ H). destruct Hi as [(d' & ld' & b & Hd & Hle & Hb & Hi)|Hi].
      * apply elem_of_cons in Hd as [Heq|Hd].
        -- inversion Heq; subst. right. eapply update_batches_sync; eauto.
        -- left. eauto 10.
      * right. eapply update_batches_sync; eauto.
Qed.

Lemma Rsum_scale (v : list R) (d : R) : Rsum ((λ x, x / d) <$> v) = Rsum v / d.
Proof.
  induction v as [|x v IH].
  - simpl. unfold Rdiv. ring.
  - rewrite fmap_cons. unfold Rsum in *. cbn [foldr]. rewrite IH. unfold Rdiv. ring.
Qed.

Lemma L1_norm_nonneg (v : row) : (∀ x, x ∈ v → 0 <= x) → L1_norm v = Rsum v.
Proof.
  unfold L1_norm. induction v as [|x v IH]; intros Hv; [done|].
  rewrite fmap_cons. unfold Rsum in *. cbn [foldr].
  rewrite Rabs_pos_eq by (apply Hv; left). f_equal. apply IH.
  intros y Hy. apply Hv. by right.
Qed.

Lemma F_normalize_sum (v : row) :
  (∀ x, x ∈ v → 0 <= x) → eps_normalize <= Rsum v → Rsum (F_normalize v) = 1.
Proof.
  intros Hv He. unfold F_normalize. rewrite Rsum_scale, L1_norm_nonneg by done.
  rewrite Rmax_left by done. unfold eps_normalize in He. apply Rdiv_diag. lra.
Qed.

(** C6.  Whatever the outcome of [_update_Z], an example id that no loader
    of a domain with index at least [domain_idx] yields keeps its rows of
    [Z] and [z]: the rows of past domains are frozen. *)
Theorem update_touches_current_and_future_only (s : self_t)
    (domain2trainloader : list (Z * loader)) (domain_idx : Z) (i : nat) :
  (∀ d ld b, (d, ld) ∈ domain2trainloader → (domain_idx <= d)%Z → b ∈ ld →
             i ∉ b_idx b) →
  ens_Z (_update_Z s domain2trainloader domain_idx).1 !! i = ens_Z s !! i ∧
  ens_z (_update_Z s domain2trainloader domain_idx).1 !! i = ens_z s !! i.
Proof.
  intros Hi. unfold _update_Z.
  by destruct (update_domains_frame domain_idx domain2trainloader None
                 (set_model s (set_training (model s) false)) i Hi).
Qed.

Lemma F_normalize_sum_eq (v : row) :
  Rsum (F_normalize v) = Rsum v / Rmax (L1_norm v) eps_normalize.
Proof. unfold F_normalize. apply Rsum_scale. Qed.

Lemma F_normalize_sum_one (v : row) :
  Rsum (F_normalize v) = 1 ↔ Rsum v = Rmax (L1_norm v) eps_normalize.
Proof.
  rewrite F_normalize_sum_eq.
  assert (Hd : 0 < Rmax (L1_norm v) eps_normalize).
  { eapply Rlt_le_trans; [|apply Rmax_r]. unfold eps_normalize. lra. }
  split; intros H.
  - apply (Rmult_eq_compat_r (Rmax (L1_norm v) eps_normalize)) in H.
    unfold Rdiv in H. rewrite Rmult_assoc, Rinv_l, Rmult_1_r, Rmult_1_l in H by lra.
    done.
  - rewrite H. apply Rdiv_diag. lra.
Qed.

(** C4, as the code has it.  After a call of [_update_Z] that returns, every
    example id yielded by a loader of a domain with index at least
    [domain_idx] has its row of [z] equal to [F.normalize] of its row of
    [Z]: the row divided by its L1 norm, or by 1e-12 if that is larger.
    The row of [z] sums to 1 exactly when the row of [Z] sums to that
    divisor; it does when the entries of the row of [Z] are non-negative
    and sum to at least 1e-12. *)
Theorem update_normalizes_touched_rows (s s' : self_t)
    (domain2trainloader : list (Z * loader)) (domain_idx : Z) (i : nat) :
  _update_Z s domain2trainloader domain_idx = (s', Ok ()) →
  (∃ d ld b, (d, ld) ∈ domain2trainloader ∧ (domain_idx <= d)%Z ∧ b ∈ ld ∧
             i ∈ b_idx b) →
  ∃ r, ens_Z s' !! i = Some r ∧ ens_z s' !! i = Some (F_normalize r) ∧
    F_normalize r = (λ x, x / Rmax (L1_norm r) 1e-12) <$> r ∧
    (Rsum (F_normalize r) = 1 ↔ Rsum r = Rmax (L1_norm r) 1e-12) ∧
    ((∀ x, x ∈ r → 0 <= x) → 1e-12 <= Rsum r →
     Rsum (F_normalize r) = 1 ∧ Rabs (Rsum (F_normalize r) - 1) <= 1e-6).
Proof.
  intros H Hi. unfold _update_Z in H.
  destruct (update_domains_sync _ _ _ _ _ i H (or_introl Hi)) as (r & HZ & Hz).
  exists r. split; [done|]. split; [done|]. split; [done|].
  split; [apply F_normalize_sum_one|]. intros Hr He.
  rewrite F_normalize_sum by done. rewrite Rminus_diag, Rabs_R0. lra.
Qed.

End Store.

(** ** When the loss and the threshold return; the update of one domain *)

Lemma argmax_from_bound best besti i v :
  (besti < i)%nat → (argmax_from best besti i v < i + length v)%nat.
Proof.
  revert best besti i. induction v as [|x v IH]; intros best besti i Hi; simpl; [lia|].
  case_bool_decide.
  - specialize (IH x i (S i)). lia.
  - specialize (IH best besti (S i)). lia.
Qed.

Lemma argmax_bound v k : argmax v = Ok k → (k < length v)%nat.
Proof.
  destruct v as [|x v]; simpl; [discriminate|]. intros H; inversion H.
  pose proof (argmax_from_bound x 0 1 v). lia.
Qed.

Lemma traverse_nonempty_rows {C : Type} (f : row → res C) (t : tensor) :
  (∀ r, r ≠ [] → ∃ c, f r = Ok c) → Forall (λ r, r ≠ []) t →
  ∃ l, traverse f t = Ok l.
Proof.
  intros Hf Ht. apply traverse_total. eapply Forall_impl; [exact Ht|]. auto.
Qed.

Lemma amax_returns r : r ≠ [] → ∃ c, amax r = Ok c.
Proof. destruct r; [done|]. simpl. eauto. Qed.

Lemma amin_returns r : r ≠ [] → ∃ c, amin r = Ok c.
Proof. destruct r; [done|]. simpl. eauto. Qed.

Lemma argmax_returns r : r ≠ [] → ∃ c, argmax r = Ok c.
Proof. destruct r; [done|]. simpl. eauto. Qed.

(** [_pseudo_label_loss] returns on a batch of matching shapes: as many
    student rows as ensemble rows, every ensemble row non-empty, every
    student row at least as wide as its ensemble row. *)
Lemma pseudo_label_loss_returns student ens alpha :
  Forall2 (λ sr er : row, er ≠ [] ∧ (length er <= length sr)%nat) student ens →
  ∃ loss mask, _pseudo_label_loss student ens alpha = Ok (loss, mask).
Proof.
  intros Hs.
  assert (Hne : Forall (λ r : row, r ≠ []) ens).
  { clear -Hs. induction Hs as [|sr er ss es [Hr _] _ IH]; constructor; auto. }
  destruct (traverse_nonempty_rows amax ens amax_returns Hne) as (mx & Hmx).
  destruct (traverse_nonempty_rows amin ens amin_returns Hne) as (mn & Hmn).
  destruct (traverse_nonempty_rows argmax ens argmax_returns Hne) as (tp & Htp).
  assert (Hn : ∃ nll, nll_loss (log_softmax <$> student) tp = Ok nll).
  { unfold nll_loss. pose proof (traverse_length _ _ _ Htp) as Ltp.
    pose proof (Forall2_length _ _ _ Hs) as Ls.
    rewrite bool_decide_eq_true_2 by (rewrite length_fmap; lia).
    apply traverse_total. apply Forall_forall. intros [r t] Hin.
    apply list_elem_of_lookup in Hin as (i & Hi).
    apply lookup_zip_with_Some in Hi as (r' & t' & Heq & Hr & Ht).
    inversion Heq; subst r' t'.
    rewrite list_lookup_fmap in Hr.
    destruct (student !! i) as [sr|] eqn:Esr; [|done]. simpl in Hr. inversion Hr; subst r.
    destruct (ens !! i) as [er|] eqn:Eer.
    2:{ apply lookup_ge_None in Eer. apply lookup_lt_Some in Esr. lia. }
    destruct (traverse_lookup _ _ _ _ _ Htp Eer) as (k & Hk & Hki).
    rewrite Ht in Hki. inversion Hki; subst k.
    apply argmax_bound in Hk.
    pose proof (Forall2_lookup_lr _ _ _ _ _ _ Hs Esr Eer) as [_ Hw].
    destruct (log_softmax sr !! t) as [x|] eqn:Ex; [eauto|].
    apply lookup_ge_None in Ex. unfold log_softmax in Ex. rewrite length_fmap in Ex. lia. }
  destruct Hn as (nll & Hnll).
  unfold _pseudo_label_loss. rewrite Hmx. simpl. rewrite Hmn. simpl. rewrite Htp. simpl.
  rewrite Hnll. simpl. eauto.
Qed.

Section Returns.
Context `{B : Backend}.

Lemma gather_returns (t : tensor) idx :
  Forall (λ i, (i < length t)%nat) idx → ∃ rows, gather t idx = Ok rows.
Proof.
  intros H. apply traverse_total. eapply Forall_impl; [exact H|].
  intros i Hi. simpl in Hi. destruct (t !! i) as [r|] eqn:E; [eauto|].
  apply lookup_ge_None in E. lia.
Qed.

Lemma gather_rows_from (t : tensor) idx rows :
  gather t idx = Ok rows → Forall (λ r, r ∈ t) rows.
Proof.
  intros Hg. apply Forall_forall. intros r Hr.
  apply list_elem_of_lookup in Hr as (k & Hk).
  pose proof (traverse_length _ _ _ Hg) as Hl.
  destruct (idx !! k) as [j|] eqn:Ej.
  - destruct (gather_lookup _ _ _ _ _ Hg Ej) as (r' & Hr' & Hrk).
    rewrite Hk in Hrk. inversion Hrk; subst. by eapply list_elem_of_lookup_2.
  - apply lookup_ge_None in Ej. apply lookup_lt_Some in Hk. lia.
Qed.

(** [_calc_alpha] returns for every [confidence_q] in [0, 1] on a loader
    with a first batch that holds an example, when the ids are rows of the
    store and no row of [Z] is empty. *)
Lemma calc_alpha_returns (s : UncertaintyAwareGradualDomainEnsemble)
    (b : batch) (ld : loader) (q : R) :
  b_idx b ≠ [] →
  Forall (λ b', Forall (λ i, (i < length (ens_Z s))%nat) (b_idx b')) (b :: ld) →
  Forall (λ r, r ≠ []) (ens_Z s) →
  0 <= q <= 1 →
  ∃ alpha, _calc_alpha s (b :: ld) q = Ok alpha.
Proof.
  intros Hb Hidx Hrows Hq.
  assert (Ht : ∃ tp, traverse (λ b', gather (ens_Z s) (b_idx b')) (b :: ld) = Ok tp).
  { apply traverse_total. eapply Forall_impl; [exact Hidx|].
    intros b' Hb'. by apply gather_returns. }
  destruct Ht as (tp & Htp).
  pose proof (traverse_length _ _ _ Htp) as Ltp.
  destruct tp as [|rows0 tp]; [done|].
  assert (Hne : Forall (λ r : row, r ≠ []) (concat (rows0 :: tp))).
  { apply Forall_concat. apply Forall_forall. intros rows Hr.
    apply list_elem_of_lookup in Hr as (k & Hk).
    destruct ((b :: ld) !! k) as [b'|] eqn:Eb.
    2:{ apply lookup_ge_None in Eb. apply lookup_lt_Some in Hk. lia. }
    destruct (traverse_lookup _ _ _ _ _ Htp Eb) as (rows' & Hg & Hk').
    rewrite Hk in Hk'. inversion Hk'; subst rows'.
    apply gather_rows_from in Hg. eapply Forall_impl; [exact Hg|].
    intros r Hr. simpl in Hr. by eapply Forall_forall in Hrows. }
  destruct (traverse_nonempty_rows amax _ amax_returns Hne) as (mx & Hmx).
  destruct (traverse_nonempty_rows amin _ amin_returns Hne) as (mn & Hmn).
  unfold _calc_alpha. rewrite Htp. cbn [mbind res_bind cat]. rewrite Hmx.
  cbn [mbind res_bind]. rewrite Hmn. cbn [mbind res_bind]. eexists. apply quantile_returns; [|done].
  pose proof (traverse_length _ _ _ Hmx) as Lmx.
  pose proof (traverse_length _ _ _ Hmn) as Lmn.
  simpl in Htp. inv_bind Htp. inversion Htp; subst.
  pose proof (traverse_length _ _ _ Ha) as La.
  intros E. apply (f_equal length) in E. rewrite length_zip_with in E.
  simpl in E, Lmx, Lmn. rewrite length_app in Lmx, Lmn.
  destruct (b_idx b); [done|]. simpl in La. lia.
Qed.

(** On a dict that holds the domain being adapted to alone, the store
    update blends every batch with the momentum of [compute_momentum]. *)
Lemma update_single_domain (s : UncertaintyAwareGradualDomainEnsemble)
    (domain_idx : Z) (ld : loader) :
  _update_Z s [(domain_idx, ld)] domain_idx =
  let s0 := set_model s (set_training (model s) false) in
  match compute_momentum s0 domain_idx ld with
  | Ok m => update_batches (Some m) ld s0
  | Err e => (s0, Err e)
  end.
Proof.
  unfold _update_Z. cbn [update_domains].
  rewrite bool_decide_eq_false_2 by lia. rewrite bool_decide_eq_true_2 by done.
  destruct (compute_momentum _ _ _) as [m|e]; simpl; [|done].
  by destruct (update_batches (Some m) ld _) as [s' [[]|e]].
Qed.

End Returns.

(** ** The sweep and the selection of the best candidate *)

Section Sweep.
Context `{B : Backend}.
Local Abbreviation self_t := UncertaintyAwareGradualDomainEnsemble.

Lemma sweep_as_runs (s : self_t) d d2l args qs perf0 :
  sweep s d d2l args qs perf0 =
  match sweep_runs s d d2l args qs with
  | (s', Ok runs) => (s', Ok (dict_of_runs perf0 runs))
  | (s', Err e) => (s', Err e)
  end.
Proof.
  revert s perf0. induction qs as [|q qs IH]; intros s perf0; simpl; [done|].
  destruct (_adapt_train_eval s d d2l q args) as [s1 [[m sc]|e]]; [|done].
  rewrite IH. by destruct (sweep_runs s1 d d2l args qs) as [s2 [runs|e]].
Qed.




(** The selection loop, started from a best entry [e0] that follows the
    entries [l1] with smaller scores and precedes the entries [l2] with
    scores not larger. *)
Lemma select_best_from (items l1 l2 : list (R * candidate)) (e0 : R * candidate) :
  (∀ x, x ∈ l1 → x.2.2 < e0.2.2) → (∀ x, x ∈ l2 → x.2.2 <= e0.2.2) →
  ∃ e, select_best items (Score e0.2.2) (Some e0.2.1) = (Score e.2.2, Some e.2.1) ∧
       first_max (l1 ++ e0 :: l2 ++ items) e.
Proof.
  revert l1 l2 e0. induction items as [|[q [m sc]] items IH]; intros l1 l2 e0 H1 H2.
  - exists e0. split; [done|]. exists l1, l2. by rewrite app_nil_r.
  - simpl. case_bool_decide as Hgt.
    + destruct (IH (l1 ++ e0 :: l2) [] (q, (m, sc))) as (e & He & Hf).
      * intros x Hx. simpl. apply elem_of_app in Hx as [Hx|Hx].
        -- specialize (H1 x Hx). lra.
        -- apply elem_of_cons in Hx as [->|Hx]; [lra|]. specialize (H2 x Hx). lra.
      * intros x Hx. by apply elem_of_nil in Hx.
      * exists e. split; [done|]. simpl in Hf.
        by rewrite <- app_assoc in Hf.
    + destruct (IH l1 (l2 ++ [(q, (m, sc))]) e0) as (e & He & Hf); [done| |].
      * intros x Hx. apply elem_of_app in Hx as [Hx|Hx]; [by apply H2|].
        apply list_elem_of_singleton in Hx as ->. simpl. lra.
      * exists e. split; [done|]. by rewrite <- app_assoc in Hf.
Qed.

Lemma select_best_first_max (items : list (R * candidate)) m :
  (select_best items NegInf None).2 = Some m →
  ∃ q sc, first_max items (q, (m, sc)).
Proof.
  destruct items as [|[q [m0 sc0]] items]; simpl; [discriminate|].
  destruct (select_best_from items [] [] (q, (m0, sc0))) as ([q' [m' sc']] & He & Hf).
  - intros x Hx. by apply elem_of_nil in Hx.
  - intros x Hx. by apply elem_of_nil in Hx.
  - simpl in He. rewrite He. simpl. intros H; inversion H; subst. eauto.
Qed.



Lemma dict_set_entries (d : list (R * candidate)) k v e :
  e ∈ dict_set d k v → e ∈ d ∨ e = (k, v).
Proof.
  induction d as [|[k' v'] d IH]; simpl.
  - intros He. apply list_elem_of_singleton in He. auto.
  - case_bool_decide as Hk.
    + intros He. apply elem_of_cons in He as [->|He]; [subst; auto|].
      left. by right.
    + intros He. apply elem_of_cons in He as [->|He]; [left; left|].
      destruct (IH He) as [Hin|Heq]; [left; by right|auto].
Qed.

Lemma dict_of_runs_entries (d runs : list (R * candidate)) e :
  e ∈ dict_of_runs d runs → e ∈ d ∨ e ∈ runs.
Proof.
  unfold dict_of_runs. revert d. induction runs as [|[k v] runs IH]; intros d; simpl; [auto|].
  intros He. destruct (IH _ He) as [Hin|Hin]; [|right; by right].
  destruct (dict_set_entries _ _ _ _ Hin) as [Hd| ->]; [auto|right; left].
Qed.




(** C10.  With an empty [confidence_q_list] the sweep produces no
    candidate, the selection leaves [best_model] at None, and the commit
    raises AttributeError with the instance as it was: the current model is
    not replaced.  A call of [adapt] that returns was given a non-empty
    list. *)
Theorem adapt_empty_list (s : self_t) (domain_idx : Z)
    (domain2trainloader : list (Z * loader)) (args : config) :
  sweep s domain_idx domain2trainloader args [] [] = (s, Ok []) ∧
  select_best [] NegInf None = (NegInf, None) ∧
  adapt s domain_idx domain2trainloader [] args = (s, Err AttributeError) ∧
  (∀ confidence_q_list s',
     adapt s domain_idx domain2trainloader confidence_q_list args = (s', Ok ()) →
     confidence_q_list ≠ []).
Proof.
  repeat split. intros qs s' H ->. discriminate.
Qed.

End Sweep.

(** * Worked instances on the toy backend *)

Lemma softmax_00 : softmax [0; 0] = [0.5; 0.5].
Proof.
  unfold softmax. cbn. rewrite exp_0. repeat (apply (f_equal2 cons)); try done; lra.
Qed.

Lemma ln_half_eps : ln (0.5 + eps_log) <= - (1 / 4).
Proof.
  rewrite <- (ln_exp (- (1 / 4))). unfold eps_log.
  pose proof (exp_ineq1_le (- (1 / 4))).
  destruct (Rle_lt_or_eq_dec (0.5 + 1e-20) (exp (- (1 / 4)))) as [Hlt| ->]; [lra| |lra].
  left. apply ln_increasing; lra.
Qed.

Lemma row_entropy_half_half : row_entropy [0.5; 0.5] = - ln (0.5 + eps_log).
Proof. unfold row_entropy. cbn. lra. Qed.

Lemma row_entropy_half_zero : row_entropy [0.5; 0] = - (0.5 * ln (0.5 + eps_log)).
Proof. unfold row_entropy. cbn. lra. Qed.

Lemma tiny_momentum :
  compute_momentum (set_model tiny_store (set_training (model tiny_store) false))
    2 [toy_batch] = Ok (Num 1).
Proof.
  unfold compute_momentum. cbn -[softmax momentum_of]. rewrite softmax_00.
  unfold momentum_of. rewrite bool_decide_eq_true_2 by done.
  unfold _entropy. cbn -[row_entropy]. do 2 f_equal. apply clip_sat_hi.
  rewrite row_entropy_half_half, row_entropy_half_zero.
  pose proof ln_half_eps. lra.
Qed.

Lemma tiny_store_nonneg :
  Forall (λ r : row, ∀ x, x ∈ r → 0 <= x)
    (ens_z (set_model tiny_store (set_training (model tiny_store) false))).
Proof.
  apply Forall_singleton. intros x Hx.
  apply elem_of_cons in Hx as [->|Hx]; [lra|].
  apply list_elem_of_singleton in Hx. subst. lra.
Qed.

Lemma F_normalize_tiny : F_normalize [5e-13; 0] = [0.5; 0].
Proof.
  unfold F_normalize, L1_norm, eps_normalize. cbn.
  rewrite !Rabs_pos_eq by lra. rewrite Rmax_right by lra. req.
Qed.

Lemma blend_tiny :
  [1 * 5e-13 + (1 - 1) * 0.5; 1 * 0 + (1 - 1) * 0.5] = [5e-13; 0].
Proof. req. Qed.

Lemma tiny_update :
  _update_Z tiny_store [(2%Z, [toy_batch])] 2 = (tiny_store_after, Ok ()).
Proof.
  unfold _update_Z. cbn [update_domains].
  rewrite bool_decide_eq_false_2 by lia.
  rewrite bool_decide_eq_true_2 by done.
  rewrite tiny_momentum. cbn -[softmax F_normalize]. rewrite softmax_00.
  unfold blend. cbn -[F_normalize]. rdecide. cbn -[F_normalize].
  unfold index_put. cbn -[F_normalize]. rdecide. cbn -[F_normalize]. rdecide.
  rewrite blend_tiny, F_normalize_tiny. reflexivity.
Qed.

Lemma F_normalize_half_half : F_normalize [0.5; 0.5] = [0.5; 0.5].
Proof.
  unfold F_normalize, L1_norm, eps_normalize. cbn.
  rewrite !Rabs_pos_eq by lra. rewrite Rmax_left by lra. req.
Qed.

Lemma toy_update pl :
  _update_Z (@Build_UncertaintyAwareGradualDomainEnsemble toy_backend
               (@Build_module toy_backend 0 true) [[1; 0]] [[1; 0]] 0 pl)
            toy_loaders 1
  = (@Build_UncertaintyAwareGradualDomainEnsemble toy_backend
       (@Build_module toy_backend 0 false) [[0.5; 0.5]] [[0.5; 0.5]] 0 pl, Ok ()).
Proof.
  unfold _update_Z, toy_loaders. cbn [update_domains].
  rewrite bool_decide_eq_false_2 by lia.
  rewrite bool_decide_eq_true_2 by done.
  unfold compute_momentum, update_batches. cbn -[softmax update_batch momentum_of].
  unfold momentum_of. rewrite bool_decide_eq_false_2 by (intros H; by apply H).
  cbn -[softmax F_normalize]. rewrite softmax_00.
  unfold blend. cbn -[F_normalize]. rdecide. cbn -[F_normalize].
  unfold index_put. cbn -[F_normalize]. rdecide. cbn -[F_normalize]. rdecide.
  replace [0 * 1 + (1 - 0) * 0.5; 0 * 0 + (1 - 0) * 0.5] with [0.5; 0.5] by req.
  rewrite F_normalize_half_half. reflexivity.
Qed.

Lemma floorZ_0 : floorZ 0 = 0%Z.
Proof. unfold floorZ. symmetry. apply Int_part_spec. simpl. lra. Qed.

Lemma ceilZ_0 : ceilZ 0 = 0%Z.
Proof. unfold ceilZ. rewrite Ropp_0. fold (floorZ 0). by rewrite floorZ_0. Qed.

Lemma quantile_singleton (x q : R) : 0 <= q <= 1 → quantile [x] q = Ok x.
Proof.
  intros Hq. unfold quantile. cbn [sort_asc foldr insert_sorted length].
  rewrite bool_decide_eq_true_2 by done.
  replace (q * INR (1 - 1)) with 0 by (simpl; lra).
  rewrite floorZ_0, ceilZ_0. unfold lerp. simpl. f_equal. lra.
Qed.

Lemma toy_alpha pl q : 0 <= q <= 1 → _calc_alpha (toy_updated pl) [toy_batch] q = Ok 0.
Proof.
  intros Hq. unfold _calc_alpha. cbn -[quantile]. rdecide.
  rewrite quantile_singleton by done. f_equal. lra.
Qed.

Lemma ln_sum_exp0 : ln (exp 0 + (exp 0 + 0)) = ln 2.
Proof. rewrite exp_0. f_equal. lra. Qed.

Lemma toy_train_epoch pl (m : @module toy_backend) :
  _adapt_train_epoch (toy_updated pl) m [toy_batch] tt 0
  = Ok (@Build_module toy_backend 0 true, tt, (Num (ln 2), 0)).
Proof.
  unfold _adapt_train_epoch. cbn. unfold _pseudo_label_loss, nll_loss. cbn.
  rdecide. cbn. rdecide. cbn. unfold finish_epoch. cbn. rdecide. cbn.
  rewrite ln_sum_exp0. do 4 f_equal. lra.
Qed.

Lemma toy_oracle_epoch pl (m : @module toy_backend) :
  _oracle_eval_epoch (toy_updated pl) m [toy_batch]
  = Ok (set_training m false, (1, 1)).
Proof.
  unfold _oracle_eval_epoch. cbn. rdecide. cbn. unfold count_eq. cbn. rdecide. cbn.
  rdecide. cbn. do 3 f_equal; lra.
Qed.

Lemma toy_run pl q :
  0 <= q <= 1 →
  _adapt_train_eval
    (@Build_UncertaintyAwareGradualDomainEnsemble toy_backend
       (@Build_module toy_backend 0 true) [[1; 0]] [[1; 0]] 0 pl)
    1 toy_loaders q toy_args
  = (toy_updated (pl ++ [1]), Ok (@Build_module toy_backend 0 false, 0)).
Proof.
  intros Hq. unfold _adapt_train_eval. rewrite toy_update.
  fold (toy_updated pl). unfold toy_loaders. cbn [dict_get].
  rewrite bool_decide_eq_true_2 by done. cbn [mbind res_bind].
  rewrite toy_alpha by done. cbn [mbind res_bind toy_args adapt_epochs run_epochs].
  rewrite toy_train_epoch. cbn [mbind res_bind].
  rewrite toy_oracle_epoch. reflexivity.
Qed.

Lemma toy_adapt :
  adapt toy_store 1 toy_loaders [0.5] toy_args
  = (set_model (toy_updated [1]) (@Build_module toy_backend 0 false), Ok ()).
Proof.
  unfold adapt. cbn [sweep]. unfold toy_store. rewrite toy_run by lra.
  cbn [dict_set select_best exceeds]. reflexivity.
Qed.

Lemma loss_result_eq (x y : R) (m : list bool) :
  x = y → Ok (Num x, m) = Ok (Num y, m).
Proof. by intros ->. Qed.

Lemma loss_two_examples :
  _pseudo_label_loss [[0; 0]; [0; 0]] [[1; 0]; [0.5; 0.5]] 0.5
  = Ok (Num (ln 2 / 2), [true; false]).
Proof.
  unfold _pseudo_label_loss, nll_loss. reval. rewrite ln_sum_exp0.
  apply loss_result_eq. lra.
Qed.

Lemma nll_two_examples :
  per_example_nll [[0; 0]; [0; 0]] [[1; 0]; [0.5; 0.5]] = Ok [ln 2; ln 2].
Proof.
  unfold per_example_nll, nll_loss. reval. rewrite ln_sum_exp0.
  f_equal. req.
Qed.

Lemma loss_no_masked_example :
  _pseudo_label_loss [[0; 0]] [[0.5; 0.5]] 0.5 = Ok (Num 0, [false]).
Proof.
  unfold _pseudo_label_loss, nll_loss. reval. apply loss_result_eq. lra.
Qed.

Lemma loss_boundary_example :
  _pseudo_label_loss [[0; 0]] [[1; 0.5]] 0.5 = Ok (Num (ln 2), [true]).
Proof.
  unfold _pseudo_label_loss, nll_loss. reval. rewrite ln_sum_exp0.
  apply loss_result_eq. lra.
Qed.

Lemma toy_touched :
  ∃ d ld b, (d, ld) ∈ toy_loaders ∧ (1 <= d)%Z ∧ b ∈ ld ∧ 0%nat ∈ b_idx b.
Proof.
  exists 1%Z, [toy_batch], toy_batch.
  split; [left|]. split; [lia|]. split; left.
Qed.

Lemma two_domains_past (d : Z) (ld : @loader toy_backend) (b : @batch toy_backend) :
  (d, ld) ∈ two_domains → (2 <= d)%Z → b ∈ ld → 1%nat ∉ b_idx b.
Proof.
  unfold two_domains. intros Hd Hle Hb.
  apply elem_of_cons in Hd as [Hd|Hd].
  - inversion Hd; subst. lia.
  - apply list_elem_of_singleton in Hd. inversion Hd; subst.
    apply list_elem_of_singleton in Hb. subst. simpl.
    intros H1. apply list_elem_of_singleton in H1. discriminate.
Qed.

Lemma toy_epoch_no_masked_example (m : @module toy_backend) :
  _adapt_train_epoch (toy_updated []) m [toy_batch] tt 1 = Err ZeroDivisionError ∧
  _adapt_eval_epoch (toy_updated []) m [toy_batch] 1 = Err ZeroDivisionError.
Proof.
  split.
  - unfold _adapt_train_epoch. cbn. unfold _pseudo_label_loss, nll_loss. cbn.
    rdecide. cbn. rdecide. cbn. unfold finish_epoch. cbn. rdecide. reflexivity.
  - unfold _adapt_eval_epoch. cbn. unfold _pseudo_label_loss, nll_loss. cbn.
    rdecide. cbn. rdecide. cbn. unfold finish_epoch. cbn. rdecide. reflexivity.
Qed.

Lemma floorZ_unique x n : IZR n <= x < IZR n + 1 → floorZ x = n.
Proof.
  intros [H1 H2]. pose proof (floorZ_bounds x) as [H3 H4].
  assert (n < floorZ x + 1)%Z by (apply lt_IZR; rewrite plus_IZR; simpl; lra).
  assert (floorZ x < n + 1)%Z by (apply lt_IZR; rewrite plus_IZR; simpl; lra).
  lia.
Qed.

Lemma ceilZ_unique x n : x <= IZR n < x + 1 → ceilZ x = n.
Proof.
  intros [H1 H2]. pose proof (ceilZ_bounds x) as [H3 H4].
  assert (n < ceilZ x + 1)%Z by (apply lt_IZR; rewrite plus_IZR; simpl; lra).
  assert (ceilZ x < n + 1)%Z by (apply lt_IZR; rewrite plus_IZR; simpl; lra).
  lia.
Qed.

(** The quantile of two values interpolates between them. *)
Lemma quantile_two (x y q : R) :
  y <= x → 0 < q < 1 → quantile [x; y] q = Ok (lerp y x q).
Proof.
  intros Hxy Hq. unfold quantile. rewrite bool_decide_eq_true_2 by lra.
  assert (Hs : sort_asc [x; y] = [y; x]).
  { unfold sort_asc. cbn [foldr insert_sorted]. case_bool_decide as Hle; [|done].
    assert (x = y) by lra. by subst. }
  rewrite Hs. cbn [length Nat.sub].
  replace (q * INR 1) with q by (simpl; lra).
  rewrite (floorZ_unique q 0), (ceilZ_unique q 1) by (simpl; lra).
  simpl. f_equal. unfold lerp. lra.
Qed.

Lemma two_row_alpha q :
  0 < q < 1 → _calc_alpha two_row_store [pair_batch] q = Ok (0.5 + q * 0.5).
Proof.
  intros Hq. unfold _calc_alpha. cbn -[quantile]. rdecide.
  rewrite quantile_two by lra. f_equal. unfold lerp. lra.
Qed.

(** ** A sweep on the second domain: the store drifts from run to run *)














(** ** Where the stated claims fail *)

(** C1, as stated, fails.  With one of two examples in the mask the code
    returns [ln 2 / 2] where the mean over the masked examples is [ln 2];
    with no example in the mask it returns 0 where that mean is undefined. *)
Lemma pseudo_label_loss_not_masked_mean :
  (per_example_nll [[0; 0]; [0; 0]] [[1; 0]; [0.5; 0.5]] = Ok [ln 2; ln 2] ∧
   _pseudo_label_loss [[0; 0]; [0; 0]] [[1; 0]; [0.5; 0.5]] 0.5
     = Ok (Num (ln 2 / 2), [true; false]) ∧
   masked_mean [ln 2; ln 2] [true; false] = Num (ln 2) ∧
   ln 2 / 2 ≠ ln 2) ∧
  (_pseudo_label_loss [[0; 0]] [[0.5; 0.5]] 0.5 = Ok (Num 0, [false]) ∧
   masked_mean [ln 2] [false] = NaN ∧
   Num 0 ≠ NaN).
Proof.
  split; [split; [|split; [|split]]|split; [|split]].
  - exact nll_two_examples.
  - exact loss_two_examples.
  - unfold masked_mean, masked_sum, count_true. reval. f_equal. lra.
  - pose proof ln2_pos. lra.
  - exact loss_no_masked_example.
  - unfold masked_mean, count_true. by reval.
  - discriminate.
Qed.

(** C4, as stated, fails.  A row of [Z] that is not all zero but sums to
    5e-13 keeps its value under a saturated momentum of 1, and its row of
    [z] sums to 0.5. *)
Lemma update_tiny_row_not_normalized :
  _update_Z tiny_store [(2%Z, [toy_batch])] 2 = (tiny_store_after, Ok ()) ∧
  ens_Z tiny_store_after !! 0%nat = Some [5e-13; 0] ∧
  5e-13 ≠ 0 ∧
  ens_z tiny_store_after !! 0%nat = Some [0.5; 0] ∧
  Rsum [0.5; 0] = 0.5 ∧
  ¬ Rabs (Rsum [0.5; 0] - 1) <= 1e-6.
Proof.
  split; [exact tiny_update|]. split; [done|]. split; [lra|]. split; [done|].
  assert (E : Rsum [0.5; 0] = 0.5) by (cbn; lra).
  split; [exact E|]. rewrite E. rewrite Rabs_left by lra. lra.
Qed.

(** C3, as stated, fails.  On a loader whose only batch yields no example
    id the ensemble tensor has no row, its average entropy is NaN, and for
    the second domain the momentum is NaN: not a number of [0, 1]. *)
Lemma momentum_nan_without_example :
  compute_momentum toy_store 2 [no_example_batch] = Ok NaN ∧
  ∀ m, 0 <= m <= 1 → compute_momentum toy_store 2 [no_example_batch] ≠ Ok (Num m).
Proof.
  assert (E : compute_momentum toy_store 2 [no_example_batch] = Ok NaN).
  { unfold compute_momentum. cbn -[softmax momentum_of].
    unfold momentum_of. by rewrite bool_decide_eq_true_2 by done. }
  split; [exact E|]. intros m _. rewrite E. discriminate.
Qed.


(** ** The theorems at concrete inputs *)

Lemma pseudo_label_loss_value_witness :
  ∃ nll, per_example_nll [[0; 0]; [0; 0]] [[1; 0]; [0.5; 0.5]] = Ok nll ∧
    Num (ln 2 / 2) = Num (masked_sum nll [true; false] / INR 2).
Proof.
  destruct (pseudo_label_loss_value _ _ _ _ _ loss_two_examples)
    as (nll & Hn & _ & _ & _ & _ & _ & Hv & _).
  exists nll. split; [exact Hn|]. by apply Hv.
Defined.

Lemma pseudo_label_mask_spec_witness :
  ∃ M m, is_max M [1; 0.5] ∧ is_min m [1; 0.5] ∧
    [true] !! 0%nat = Some (bool_decide (M - m >= 0.5)).
Proof.
  destruct (pseudo_label_mask_spec _ _ _ _ _ loss_boundary_example) as [_ H].
  destruct (H 0%nat [1; 0.5] eq_refl) as (M & m & HM & Hm & Hi & _).
  exists M, m. auto.
Defined.

Lemma momentum_clipped_or_forced_witness :
  ∃ current ensemble,
    _entropy (concat ((λ b, softmax <$> call (model tiny_store_after) (b_data b))
                        <$> [toy_batch])) = Num current ∧
    _entropy (concat [[[0.5; 0]]]) = Num ensemble ∧
    Num 1 = Num (clip (0.5 + 4 * (current - ensemble)) 0 1).
Proof.
  destruct (proj1 (momentum_clipped_or_forced
                     (set_model tiny_store (set_training (model tiny_store) false))
                     2 [toy_batch]) (Num 1) tiny_store_nonneg tiny_momentum)
    as (zs & Hzs & _ & _ & _ & H).
  cbn in Hzs. inversion Hzs; subst zs.
  destruct (H ltac:(discriminate) ltac:(discriminate) ltac:(discriminate))
    as (c & e & Hc & He & Hm & _).
  exists c, e. split; [exact Hc|]. split; [exact He|exact Hm].
Defined.

Lemma update_normalizes_touched_rows_witness :
  ∃ r, ens_Z (toy_updated []) !! 0%nat = Some r ∧
       ens_z (toy_updated []) !! 0%nat = Some (F_normalize r).
Proof.
  destruct (update_normalizes_touched_rows toy_store (toy_updated []) toy_loaders 1 0
              (toy_update []) toy_touched) as (r & HZ & Hz & _).
  exists r. auto.
Defined.

Lemma calc_alpha_monotone_witness :
  _calc_alpha two_row_store [pair_batch] 0.25 = Ok (0.5 + 0.25 * 0.5) ∧
  _calc_alpha two_row_store [pair_batch] 0.75 = Ok (0.5 + 0.75 * 0.5) ∧
  ∃ alpha2, _calc_alpha two_row_store [pair_batch] 0.75 = Ok alpha2 ∧
            0.5 + 0.25 * 0.5 <= alpha2.
Proof.
  split; [apply two_row_alpha; lra|]. split; [apply two_row_alpha; lra|].
  apply (calc_alpha_monotone two_row_store [pair_batch] 0.25 0.75 (0.5 + 0.25 * 0.5));
    try lra.
  apply two_row_alpha. lra.
Defined.

Lemma update_touches_current_and_future_only_witness :
  ens_Z (_update_Z two_row_store two_domains 2).1 !! 1%nat = Some [0.25; 0.75] ∧
  ens_z (_update_Z two_row_store two_domains 2).1 !! 1%nat = Some [0.25; 0.75].
Proof.
  exact (update_touches_current_and_future_only two_row_store two_domains 2 1
           two_domains_past).
Defined.




Lemma epoch_needs_masked_example_witness :
  ∃ b mask, b ∈ [toy_batch] ∧
    batch_mask (ens_z (toy_updated [])) 0 b = Ok mask ∧ true ∈ mask.
Proof.
  destruct (epoch_needs_masked_example (toy_updated [])
              (@Build_module toy_backend 0 false) [toy_batch] tt 0)
    as (_ & _ & H & _).
  exact (H _ (toy_train_epoch [] _)).
Defined.

Lemma adapt_empty_list_witness : [0.5] ≠ ([] : list R).
Proof.
  destruct (adapt_empty_list toy_store 1 toy_loaders toy_args) as (_ & _ & _ & H).
  exact (H _ _ toy_adapt).
Defined.

(** * Further properties of the code *)

(** ** Softmax, blending and normalisation of probability rows *)

Lemma Rsum_cons x (v : list R) : Rsum (x :: v) = x + Rsum v.
Proof. reflexivity. Qed.

Lemma Rsum_exp_pos (v : list R) : v ≠ [] → 0 < Rsum (exp <$> v).
Proof.
  induction v as [|x v IH]; [done|]. intros _. rewrite fmap_cons, Rsum_cons.
  pose proof (exp_pos x). destruct v as [|y v].
  - simpl. lra.
  - assert (0 < Rsum (exp <$> y :: v)) by (by apply IH). lra.
Qed.

Lemma softmax_length v : length (softmax v) = length v.
Proof. unfold softmax. by rewrite length_fmap. Qed.

Lemma softmax_pos v x : x ∈ softmax v → 0 < x.
Proof.
  unfold softmax. intros Hx. apply list_elem_of_fmap in Hx as (y & -> & Hy).
  apply Rdiv_lt_0_compat; [apply exp_pos|]. apply Rsum_exp_pos. by intros ->; inversion Hy.
Qed.

Lemma Rsum_fmap_div (f : R → R) (v : list R) (d : R) :
  Rsum ((λ x, f x / d) <$> v) = Rsum (f <$> v) / d.
Proof.
  induction v as [|x v IH].
  - simpl. unfold Rdiv. ring.
  - rewrite !fmap_cons, !Rsum_cons, IH. unfold Rdiv. ring.
Qed.

Lemma softmax_sum v : v ≠ [] → Rsum (softmax v) = 1.
Proof.
  intros Hv. unfold softmax. rewrite (Rsum_fmap_div exp).
  apply Rdiv_diag. pose proof (Rsum_exp_pos v Hv). lra.
Qed.

Lemma softmax_prob v : v ≠ [] → prob_row (softmax v).
Proof.
  intros Hv. split; [|by apply softmax_sum].
  intros x Hx. apply softmax_pos in Hx. lra.
Qed.

Lemma prob_row_nonempty r : prob_row r → r ≠ [].
Proof. intros [_ Hs] ->. simpl in Hs. lra. Qed.

Lemma Rsum_blend m (ra rb : list R) :
  length ra = length rb →
  Rsum (zip_with (λ x y, m * x + (1 - m) * y) ra rb) = m * Rsum ra + (1 - m) * Rsum rb.
Proof.
  revert rb. induction ra as [|x ra IH]; intros [|y rb] Hl; simpl in Hl; try done.
  - simpl. ring.
  - cbn [zip_with]. rewrite !Rsum_cons, IH by lia. ring.
Qed.

Lemma blend_row_prob m (ra rb : list R) :
  0 <= m <= 1 → length ra = length rb → prob_row ra → prob_row rb →
  prob_row (zip_with (λ x y, m * x + (1 - m) * y) ra rb).
Proof.
  intros Hm Hl [Ha Sa] [Hb Sb]. split.
  - intros z Hz. apply elem_of_lookup_zip_with in Hz as (i & x & y & -> & Hx & Hy).
    apply list_elem_of_lookup_2 in Hx, Hy.
    specialize (Ha x Hx). specialize (Hb y Hy). nra.
  - rewrite Rsum_blend, Sa, Sb by done. ring.
Qed.

Lemma F_normalize_prob r : prob_row r → F_normalize r = r.
Proof.
  intros [Hr Hs]. unfold F_normalize. rewrite L1_norm_nonneg, Hs by done.
  rewrite Rmax_left by (unfold eps_normalize; lra).
  rewrite <- (list_fmap_id r) at 2. apply list_fmap_ext. intros _ x _. simpl. lra.
Qed.

Lemma write_rows_Forall (P : row → Prop) t idx vals :
  Forall P t → Forall P vals → Forall P (write_rows t idx vals).
Proof.
  revert t vals. induction idx as [|i idx IH]; intros t [|v vals] Ht Hv;
    cbn [write_rows]; try done.
  apply Forall_cons in Hv as [Hv Hvs]. apply IH; [|done].
  destruct (decide (i < length t)%nat) as [Hi|Hi].
  - by apply Forall_insert.
  - by rewrite list_insert_ge by lia.
Qed.

Lemma widths_insert (t : tensor) i v r :
  t !! i = Some r → length v = length r → widths (<[i := v]> t) = widths t.
Proof.
  intros Hi Hl. unfold widths. rewrite list_fmap_insert, Hl.
  apply list_insert_id. by rewrite list_lookup_fmap, Hi.
Qed.

Lemma fits_widths (t t' : tensor) i v : widths t' = widths t → fits t i v → fits t' i v.
Proof.
  unfold fits, widths. intros Hw Hf.
  destruct (t !! i) as [r|] eqn:E; [|done].
  assert (Hl : (length <$> t') !! i = Some (length r)).
  { by rewrite Hw, list_lookup_fmap, E. }
  rewrite list_lookup_fmap in Hl. destruct (t' !! i) as [r'|]; [|done].
  simpl in Hl. inversion Hl. congruence.
Qed.

Lemma write_rows_widths t idx vals :
  Forall (λ '(i, v), fits t i v) (zip idx vals) →
  widths (write_rows t idx vals) = widths t.
Proof.
  revert t vals. induction idx as [|i idx IH]; intros t [|v vals] Hf;
    cbn [write_rows]; try done.
  cbn [zip zip_with] in Hf. apply Forall_cons in Hf as [Hiv Hf].
  assert (Hw : widths (<[i := v]> t) = widths t).
  { unfold fits in Hiv. destruct (t !! i) as [r|] eqn:E; [|done].
    by eapply widths_insert. }
  rewrite IH, Hw; [done|].
  eapply Forall_impl; [exact Hf|]. intros [j w] Hjw. by eapply fits_widths.
Qed.

Lemma index_put_widths t idx vals t' :
  index_put t idx vals = Ok t' → widths t' = widths t.
Proof.
  unfold index_put. case_bool_decide as Hb; [|discriminate].
  case_bool_decide as Hs; [|discriminate]. intros H; inversion H; subst.
  apply write_rows_widths. tauto.
Qed.

Lemma blend_rows (P Q : row → Prop) m a b c :
  blend m a b = Ok c → Forall P a → Forall Q b →
  Forall (λ r, ∃ ra rb, P ra ∧ Q rb ∧ length ra = length rb ∧
                r = zip_with (λ x y, m * x + (1 - m) * y) ra rb) c.
Proof.
  unfold blend. case_bool_decide as Hl; [|discriminate]. intros H Ha Hb.
  apply Forall_forall. intros r Hr. apply list_elem_of_lookup in Hr as (k & Hk).
  pose proof (traverse_length _ _ _ H) as Hlen. rewrite length_zip in Hlen.
  destruct (zip a b !! k) as [[ra rb]|] eqn:E.
  2:{ apply lookup_ge_None in E. rewrite length_zip in E. apply lookup_lt_Some in Hk. lia. }
  destruct (traverse_lookup _ _ _ _ _ H E) as (r' & Hr' & Hk').
  rewrite Hk in Hk'. inversion Hk'; subst r'. simpl in Hr'.
  case_bool_decide as Hw; [|discriminate]. inversion Hr'; subst r.
  apply lookup_zip_with_Some in E as (x & y & Heq & Hx & Hy). inversion Heq; subst x y.
  exists ra, rb. split; [|split; [|done]].
  - eapply Forall_forall in Ha; [exact Ha|]. by eapply list_elem_of_lookup_2.
  - eapply Forall_forall in Hb; [exact Hb|]. by eapply list_elem_of_lookup_2.
Qed.

Section StoreShape.
Context `{B : Backend}.
Local Abbreviation self_t := UncertaintyAwareGradualDomainEnsemble.

Lemma same_frame_refl s : same_frame s s.
Proof. by repeat split. Qed.

Lemma same_frame_trans s1 s2 s3 : same_frame s1 s2 → same_frame s2 s3 → same_frame s1 s3.
Proof.
  intros (H1 & H2 & H3 & H4 & H5) (G1 & G2 & G3 & G4 & G5).
  repeat split; congruence.
Qed.

Lemma update_batch_frame_shape momentum (b : batch) (s : self_t) :
  same_frame s (update_batch momentum b s).1 ∧
  model (update_batch momentum b s).1 = model s.
Proof.
  unfold update_batch. destruct momentum as [[m|]|]; [| |by repeat split].
  2:{ destruct (_ ≫= _); [|by repeat split]. by destruct (b_idx b). }
  destruct (_ ≫= _) as [Z'|e] eqn:EZ; [|by repeat split].
  inv_bind EZ. apply index_put_widths in EZ.
  destruct (_ ≫= _) as [z'|e] eqn:Ez; simpl.
  - inv_bind Ez. apply index_put_widths in Ez. simpl in Ez. by repeat split.
  - by repeat split.
Qed.

Lemma update_batches_frame_shape momentum (ld : loader) (s : self_t) :
  same_frame s (update_batches momentum ld s).1 ∧
  model (update_batches momentum ld s).1 = model s.
Proof.
  revert s. induction ld as [|b ld IH]; intros s; simpl; [by repeat split|].
  destruct (update_batch_frame_shape momentum b s) as [F1 M1].
  destruct (update_batch momentum b s) as [s1 [[]|e]]; simpl in *; [|done].
  destruct (IH s1) as [F2 M2]. split; [by eapply same_frame_trans|congruence].
Qed.

Lemma update_domains_frame_shape domain_idx (ds : list (Z * loader)) momentum (s : self_t) :
  same_frame s (update_domains domain_idx ds momentum s).1 ∧
  model (update_domains domain_idx ds momentum s).1 = model s.
Proof.
  revert momentum s. induction ds as [|[d ld] ds IH]; intros momentum s; simpl;
    [by repeat split|].
  case_bool_decide as Hlt; [apply IH|].
  destruct (if bool_decide (d = domain_idx) then _ else _) as [mo|e]; [|by repeat split].
  destruct (update_batches_frame_shape mo ld s) as [F1 M1].
  destruct (update_batches mo ld s) as [s1 [[]|e]]; simpl in *; [|done].
  destruct (IH mo s1) as [F2 M2]. split; [by eapply same_frame_trans|congruence].
Qed.

(** X2.  Whatever its outcome, [_update_Z] puts the model in evaluation
    mode and leaves its weights, the slope and [pl_acc_list] alone; [Z] and
    [z] keep their number of rows and the width of every row. *)
Theorem update_keeps_shape_and_weights (s : self_t)
    (domain2trainloader : list (Z * loader)) (domain_idx : Z) :
  let s' := (_update_Z s domain2trainloader domain_idx).1 in
  model s' = set_training (model s) false ∧
  slope s' = slope s ∧ pl_acc_list s' = pl_acc_list s ∧
  length (ens_Z s') = length (ens_Z s) ∧ length (ens_z s') = length (ens_z s) ∧
  (∀ i, length <$> ens_Z s' !! i = length <$> ens_Z s !! i) ∧
  (∀ i, length <$> ens_z s' !! i = length <$> ens_z s !! i).
Proof.
  unfold _update_Z.
  destruct (update_domains_frame_shape domain_idx domain2trainloader None
              (set_model s (set_training (model s) false)))
    as [(_ & Hs & Hp & HZ & Hz) Hm].
  simpl in *. unfold widths in HZ, Hz.
  split; [done|]. split; [done|]. split; [done|].
  split; [by rewrite <- (length_fmap length), HZ, length_fmap|].
  split; [by rewrite <- (length_fmap length), Hz, length_fmap|].
  split; intros i; by rewrite <- !list_lookup_fmap, ?HZ, ?Hz.
Qed.

End StoreShape.

Lemma elem_of_concat {A : Type} (x : A) (ls : list (list A)) :
  x ∈ concat ls ↔ ∃ l, l ∈ ls ∧ x ∈ l.
Proof.
  induction ls as [|l ls IH]; simpl.
  - split; [by intros H%elem_of_nil|]. intros (l & Hl & _). by apply elem_of_nil in Hl.
  - rewrite elem_of_app, IH. split.
    + intros [Hx|(l' & Hl' & Hx)]; [exists l; split; [left|done]|].
      exists l'. split; [by right|done].
    + intros (l' & Hl' & Hx). apply elem_of_cons in Hl' as [->|Hl']; [by left|].
      right. eauto.
Qed.

Lemma write_rows_distinct t idx vals k (i : nat) :
  NoDup idx → length vals = length idx → idx !! k = Some i → (i < length t)%nat →
  write_rows t idx vals !! i = vals !! k.
Proof.
  revert t vals k. induction idx as [|j idx IH]; intros t [|v vals] k Hnd Hl Hk Hi;
    simpl in Hl; try done.
  apply NoDup_cons in Hnd as [Hj Hnd]. cbn [write_rows].
  destruct k as [|k]; simpl in Hk.
  - inversion Hk; subst j. rewrite write_rows_other by done.
    by rewrite list_lookup_insert_eq.
  - simpl. apply IH; [done|lia|done|by rewrite length_insert].
Qed.

Lemma blend_lookup m a b c k ra :
  blend m a b = Ok c → a !! k = Some ra →
  ∃ rb, b !! k = Some rb ∧ length ra = length rb ∧ c !! k = Some (blend_row m ra rb).
Proof.
  unfold blend. case_bool_decide as Hl; [|discriminate]. intros H Ha.
  destruct (b !! k) as [rb|] eqn:Eb.
  2:{ apply lookup_ge_None in Eb. apply lookup_lt_Some in Ha. lia. }
  assert (Hz : zip a b !! k = Some (ra, rb)).
  { apply lookup_zip_with_Some. eauto. }
  destruct (traverse_lookup _ _ _ _ _ H Hz) as (r & Hr & Hk). simpl in Hr.
  case_bool_decide as Hw; [|discriminate]. inversion Hr; subst. eauto.
Qed.

Section Blend.
Context `{B : Backend}.
Local Abbreviation self_t := UncertaintyAwareGradualDomainEnsemble.

Lemma update_batch_blend m (b : batch) (s s' : self_t) k i :
  update_batch (Some (Num m)) b s = (s', Ok ()) → NoDup (b_idx b) →
  b_idx b !! k = Some i → blended m s s' b k i.
Proof.
  intros H Hnd Hk. unfold update_batch in H.
  destruct (_ ≫= _) as [Z'|e] eqn:EZ; [|by inversion H].
  destruct (_ ≫= _) as [z'|e] eqn:Ez in H; inversion H; subst; clear H.
  inv_bind EZ. apply index_put_ok in EZ as (-> & Hlen & HZr).
  destruct (gather_lookup _ _ _ _ _ Ha Hk) as (zr & Hzr & Hrk).
  destruct (blend_lookup _ _ _ _ _ _ Ha0 Hrk) as (p & Hp & Hw & Hck).
  rewrite list_lookup_fmap in Hp.
  destruct (call (model s) (b_data b) !! k) as [logits|] eqn:El; [|done].
  simpl in Hp. inversion Hp; subst p. rewrite softmax_length in Hw.
  exists zr, logits. split; [done|]. split; [done|]. split; [done|]. simpl.
  rewrite (write_rows_distinct _ _ _ k); [done|done|done|done|].
  by eapply lookup_lt_Some.
Qed.

Lemma blended_frame m (s s1 s2 : self_t) b k i :
  blended m s s1 b k i → ens_Z s2 !! i = ens_Z s1 !! i → blended m s s2 b k i.
Proof.
  intros (zr & l & H1 & H2 & H3 & H4) E. exists zr, l. rewrite E. auto.
Qed.

Lemma blended_from m (s s1 s' : self_t) b k i :
  blended m s1 s' b k i → model s1 = model s → ens_Z s1 !! i = ens_Z s !! i →
  blended m s s' b k i.
Proof.
  intros (zr & l & H1 & H2 & H3 & H4) Em E. exists zr, l. rewrite <- Em, <- E. auto.
Qed.

Lemma update_batches_blend m (ld : loader) (s s' : self_t) :
  update_batches (Some (Num m)) ld s = (s', Ok ()) → NoDup (concat (b_idx <$> ld)) →
  ∀ b k i, b ∈ ld → b_idx b !! k = Some i → blended m s s' b k i.
Proof.
  revert s. induction ld as [|b0 ld IH]; intros s H Hnd b k i Hb Hk.
  { by apply elem_of_nil in Hb. }
  cbn [update_batches] in H. rewrite fmap_cons in Hnd. cbn [concat] in Hnd.
  apply NoDup_app in Hnd as (Hnd0 & Hdis & Hndr).
  destruct (update_batch (Some (Num m)) b0 s) as [s1 [[]|e]] eqn:E; [|by inversion H].
  pose proof (update_batch_frame_shape (Some (Num m)) b0 s) as [_ Hm1]. rewrite E in Hm1.
  simpl in Hm1.
  assert (Hin : i ∈ b_idx b) by (by eapply list_elem_of_lookup_2).
  destruct (decide (i ∈ b_idx b0)) as [Hi0|Hi0].
  - (* written by the first batch, never again *)
    assert (Hrest : ∀ b', b' ∈ ld → i ∉ b_idx b').
    { intros b' Hb' Hi'. apply (Hdis i Hi0). apply elem_of_concat.
      exists (b_idx b'). split; [by apply list_elem_of_fmap_2|done]. }
    apply elem_of_cons in Hb as [->|Hb]; [|by destruct (Hrest b Hb)].
    eapply blended_frame; [by eapply update_batch_blend|].
    destruct (update_batches_frame (Some (Num m)) ld s1 i Hrest) as [EZ _].
    by rewrite H in EZ.
  - apply elem_of_cons in Hb as [->|Hb]; [done|].
    eapply blended_from; [by eapply IH|done|].
    destruct (update_batch_frame (Some (Num m)) b0 s i Hi0) as [EZ _]. by rewrite E in EZ.
Qed.

End Blend.

Lemma blend_row_zero (zr p : row) : length zr = length p → blend_row 0 zr p = p.
Proof.
  unfold blend_row. revert p. induction zr as [|x zr IH]; intros [|y p] Hl;
    simpl in Hl; try done.
  cbn [zip_with]. rewrite IH by lia. f_equal. lra.
Qed.

Section BlendDomains.
Context `{B : Backend}.
Local Abbreviation self_t := UncertaintyAwareGradualDomainEnsemble.

Lemma touched_ids_cons domain_idx d (ld : loader) ds :
  touched_ids domain_idx ((d, ld) :: ds) =
  (if bool_decide (domain_idx <= d)%Z then concat (b_idx <$> ld) else [])
  ++ touched_ids domain_idx ds.
Proof. reflexivity. Qed.

Lemma elem_of_loader_ids (ld : loader) (i : nat) :
  i ∈ concat (b_idx <$> ld) ↔ ∃ b, b ∈ ld ∧ i ∈ b_idx b.
Proof.
  rewrite elem_of_concat. split.
  - intros (l & Hl & Hi). apply list_elem_of_fmap in Hl as (b & -> & Hb). eauto.
  - intros (b & Hb & Hi). exists (b_idx b). split; [by apply list_elem_of_fmap_2|done].
Qed.

Lemma elem_of_touched_ids domain_idx (ds : list (Z * loader)) (i : nat) :
  i ∈ touched_ids domain_idx ds ↔
  ∃ d ld b, (d, ld) ∈ ds ∧ (domain_idx <= d)%Z ∧ b ∈ ld ∧ i ∈ b_idx b.
Proof.
  induction ds as [|[d0 ld0] ds IH].
  - split; [by intros H%elem_of_nil|]. intros (d & ld & b & H & _). by apply elem_of_nil in H.
  - rewrite touched_ids_cons, elem_of_app, IH. split.
    + intros [Hi|(d & ld & b & Hd & Hle & Hb & Hi)].
      * case_bool_decide as Hle; [|by apply elem_of_nil in Hi].
        apply elem_of_loader_ids in Hi as (b & Hb & Hi).
        exists d0, ld0, b. split; [left|done].
      * exists d, ld, b. split; [by right|done].
    + intros (d & ld & b & Hd & Hle & Hb & Hi).
      apply elem_of_cons in Hd as [Heq|Hd].
      * inversion Heq; subst. left. rewrite bool_decide_eq_true_2 by done.
        apply elem_of_loader_ids. eauto.
      * right. eauto 10.
Qed.

(** One loader blended with [m], then the rest of the dict. *)
Lemma blend_step domain_idx m d0 (ld0 : loader) (ds : list (Z * loader))
    (s s1 s' : self_t) :
  (domain_idx <= d0)%Z →
  update_batches (Some (Num m)) ld0 s = (s1, Ok ()) →
  (update_domains domain_idx ds (Some (Num m)) s1).1 = s' →
  NoDup (touched_ids domain_idx ((d0, ld0) :: ds)) →
  (∀ d ld b k i, (d, ld) ∈ ds → (domain_idx <= d)%Z → b ∈ ld →
                 b_idx b !! k = Some i → blended m s1 s' b k i) →
  ∀ d ld b k i, (d, ld) ∈ (d0, ld0) :: ds → (domain_idx <= d)%Z → b ∈ ld →
                b_idx b !! k = Some i → blended m s s' b k i.
Proof.
  intros Hd0 H1 H2 Hnd Hrest d ld b k i Hd Hle Hb Hk.
  rewrite touched_ids_cons, bool_decide_eq_true_2 in Hnd by done.
  apply NoDup_app in Hnd as (Hnd0 & Hdis & _).
  assert (Hin : i ∈ b_idx b) by (by eapply list_elem_of_lookup_2).
  pose proof (update_batches_frame_shape (Some (Num m)) ld0 s) as [_ Hm1].
  rewrite H1 in Hm1. simpl in Hm1.
  destruct (decide (i ∈ concat (b_idx <$> ld0))) as [Hi0|Hi0].
  - assert (Hnot : ∀ d ld b, (d, ld) ∈ ds → (domain_idx <= d)%Z → b ∈ ld → i ∉ b_idx b).
    { intros d' ld' b' Hd' Hle' Hb' Hi'. apply (Hdis i Hi0).
      apply elem_of_touched_ids. eauto 10. }
    apply elem_of_cons in Hd as [Heq|Hd]; [|by destruct (Hnot d ld b Hd Hle Hb)].
    inversion Heq; subst d ld.
    eapply blended_frame; [by eapply update_batches_blend|].
    destruct (update_domains_frame domain_idx ds (Some (Num m)) s1 i Hnot) as [EZ _].
    by rewrite H2 in EZ.
  - assert (Hnot : ∀ b, b ∈ ld0 → i ∉ b_idx b).
    { intros b' Hb' Hi'. apply Hi0. apply elem_of_loader_ids. eauto. }
    apply elem_of_cons in Hd as [Heq|Hd].
    { inversion Heq; subst d ld. by destruct (Hnot b Hb). }
    eapply blended_from; [by eapply Hrest|done|].
    destruct (update_batches_frame (Some (Num m)) ld0 s i Hnot) as [EZ _]. by rewrite H1 in EZ.
Qed.

Lemma update_domains_blend_tail domain_idx m (ds : list (Z * loader)) (s s' : self_t) :
  update_domains domain_idx ds (Some (Num m)) s = (s', Ok ()) →
  domain_idx ∉ ds.*1 → NoDup (touched_ids domain_idx ds) →
  ∀ d ld b k i, (d, ld) ∈ ds → (domain_idx <= d)%Z → b ∈ ld →
                b_idx b !! k = Some i → blended m s s' b k i.
Proof.
  revert s. induction ds as [|[d0 ld0] ds IH]; intros s H Hkey Hnd d ld b k i Hd.
  { by apply elem_of_nil in Hd. }
  rewrite fmap_cons in Hkey. apply not_elem_of_cons in Hkey as [Hne Hkey]. simpl in Hne.
  cbn [update_domains] in H. revert Hd. case_bool_decide as Hlt.
  - intros Hd Hle Hb Hk. rewrite touched_ids_cons, bool_decide_eq_false_2 in Hnd by lia.
    apply elem_of_cons in Hd as [Heq|Hd]; [inversion Heq; lia|].
    by eapply (IH s H Hkey Hnd).
  - rewrite bool_decide_eq_false_2 in H by done.
    destruct (update_batches (Some (Num m)) ld0 s) as [s1 [[]|e]] eqn:E; [|by inversion H].
    intros Hd.
    apply (blend_step domain_idx m d0 ld0 ds s s1 s' ltac:(lia) E ltac:(by rewrite H) Hnd);
      [|done].
    apply (IH s1 H Hkey). rewrite touched_ids_cons in Hnd. by apply NoDup_app in Hnd as (_ & _ & ?).
Qed.

(** While the momentum is unbound and the domain being adapted to is not
    met, nothing is written: the loop goes on over empty loaders or stops
    on the first batch. *)
Lemma update_domains_unbound domain_idx (ds : list (Z * loader)) (s : self_t) :
  domain_idx ∉ ds.*1 →
  update_domains domain_idx ds None s = (s, Ok ()) ∨
  update_domains domain_idx ds None s = (s, Err UnboundLocalError).
Proof.
  induction ds as [|[d0 ld0] ds IH]; intros Hkey; [by left|].
  rewrite fmap_cons in Hkey. apply not_elem_of_cons in Hkey as [Hne Hkey]. simpl in Hne.
  cbn [update_domains]. case_bool_decide as Hlt; [by apply IH|].
  rewrite bool_decide_eq_false_2 by done.
  destruct ld0 as [|b ld0]; simpl; [by apply IH|by right].
Qed.

(** A NaN momentum lets the update return only when no batch it meets
    has an id: nothing is written. *)
Lemma update_batches_nan (ld : loader) (s s' : self_t) :
  update_batches (Some NaN) ld s = (s', Ok ()) →
  s' = s ∧ ∀ b, b ∈ ld → b_idx b = [].
Proof.
  revert s. induction ld as [|b ld IH]; intros s H.
  - inversion H. split; [done|]. intros b Hb. by apply elem_of_nil in Hb.
  - cbn [update_batches] in H.
    destruct (update_batch (Some NaN) b s) as [s1 [[]|e]] eqn:E; [|by inversion H].
    unfold update_batch in E. destruct (_ ≫= _); [|by inversion E].
    destruct (b_idx b) eqn:Eb; inversion E; subst s1.
    destruct (IH _ H) as [-> Hall]. split; [done|].
    intros b' Hb'. apply elem_of_cons in Hb' as [->|Hb']; [done|by apply Hall].
Qed.

Lemma update_domains_nan domain_idx (ds : list (Z * loader)) (s s' : self_t) :
  domain_idx ∉ ds.*1 →
  update_domains domain_idx ds (Some NaN) s = (s', Ok ()) →
  s' = s ∧
  ∀ d ld b, (d, ld) ∈ ds → (domain_idx <= d)%Z → b ∈ ld → b_idx b = [].
Proof.
  revert s. induction ds as [|[d0 ld0] ds IH]; intros s Hkey H.
  { inversion H. split; [done|]. intros d ld b Hd. by apply elem_of_nil in Hd. }
  rewrite fmap_cons in Hkey. apply not_elem_of_cons in Hkey as [Hne Hkey]. simpl in Hne.
  cbn [update_domains] in H. case_bool_decide as Hlt.
  - destruct (IH _ Hkey H) as [-> Hall]. split; [done|]. intros d ld b Hd Hle Hb.
    apply elem_of_cons in Hd as [Heq|Hd]; [inversion Heq; lia|]. by eapply Hall.
  - rewrite bool_decide_eq_false_2 in H by done.
    destruct (update_batches (Some NaN) ld0 s) as [s1 [[]|e]] eqn:E; [|by inversion H].
    apply update_batches_nan in E as [-> Hall0].
    destruct (IH _ Hkey H) as [-> Hall]. split; [done|]. intros d ld b Hd Hle Hb.
    apply elem_of_cons in Hd as [Heq|Hd]; [inversion Heq; subst; by apply Hall0|].
    by eapply Hall.
Qed.

Lemma update_domains_blend_head domain_idx (ds : list (Z * loader)) (s s' : self_t) :
  update_domains domain_idx ds None s = (s', Ok ()) →
  NoDup ds.*1 → NoDup (touched_ids domain_idx ds) →
  ∀ d ld b k i, (d, ld) ∈ ds → (domain_idx <= d)%Z → b ∈ ld → b_idx b !! k = Some i →
  ∃ ld0 m, dict_get ds domain_idx = Ok ld0 ∧
           compute_momentum s domain_idx ld0 = Ok (Num m) ∧ blended m s s' b k i.
Proof.
  induction ds as [|[d0 ld0] ds IH]; intros H Hkeys Hnd d ld b k i Hd.
  { by apply elem_of_nil in Hd. }
  rewrite fmap_cons in Hkeys. apply NoDup_cons in Hkeys as [Hk0 Hkeys]. simpl in Hk0.
  cbn [update_domains] in H. cbn [dict_get]. revert Hd. case_bool_decide as Hlt.
  - intros Hd Hle Hb Hk. rewrite touched_ids_cons, bool_decide_eq_false_2 in Hnd by lia.
    rewrite bool_decide_eq_false_2 by lia.
    apply elem_of_cons in Hd as [Heq|Hd]; [inversion Heq; lia|].
    by eapply (IH H Hkeys Hnd).
  - case_bool_decide as Heq.
    + subst d0. intros Hd Hle Hb Hk.
      destruct (compute_momentum s domain_idx ld0) as [[m|]|e] eqn:Em; [| |by inversion H].
      2:{ cbn [mbind res_bind] in H.
          destruct (update_batches (Some NaN) ld0 s) as [s1 [[]|e]] eqn:E;
            [|by inversion H].
          apply update_batches_nan in E as [-> Hall0].
          apply update_domains_nan in H as [_ Hall]; [|done].
          assert (Hno : b_idx b = []).
          { apply elem_of_cons in Hd as [Heq|Hd];
              [inversion Heq; subst; by apply Hall0|by eapply Hall]. }
          by rewrite Hno in Hk. }
      cbn [mbind res_bind] in H.
      destruct (update_batches (Some (Num m)) ld0 s) as [s1 [[]|e]] eqn:E; [|by inversion H].
      exists ld0, m. split; [done|]. split; [done|].
      refine (blend_step domain_idx m domain_idx ld0 ds s s1 s' ltac:(lia) E
                ltac:(by rewrite H) Hnd _ d ld b k i Hd Hle Hb Hk).
      apply (update_domains_blend_tail _ _ _ _ _ H Hk0).
      rewrite touched_ids_cons in Hnd. by apply NoDup_app in Hnd as (_ & _ & ?).
    + intros Hd Hle Hb Hk. destruct ld0 as [|b0 ld0]; [|by inversion H].
      cbn [update_batches] in H.
      rewrite touched_ids_cons in Hnd. apply NoDup_app in Hnd as (_ & _ & Hnd).
      apply elem_of_cons in Hd as [Hd|Hd].
      { inversion Hd; subst. by apply elem_of_nil in Hb. }
      by eapply (IH H Hkeys Hnd).
Qed.

Lemma compute_momentum_first (s : self_t) (ld : loader) mo :
  compute_momentum s 1 ld = Ok mo → mo = Num 0.
Proof.
  unfold compute_momentum. intros H. inv_bind H. destruct a as [te tc]. inv_bind H.
  unfold momentum_of in H. rewrite bool_decide_eq_false_2 in H by (intros Hn; by apply Hn).
  by inversion H.
Qed.


End BlendDomains.

Section Idempotent.
Context `{B : Backend}.

Local Abbreviation self_t := UncertaintyAwareGradualDomainEnsemble.

Lemma set_training_idem (m : module) b :
  set_training (set_training m b) b = set_training m b.
Proof. done. Qed.

(** The rows a returning update for the first domain leaves at a touched
    id: the softmax of the model's logits, in both accumulators up to
    normalisation. *)
Lemma first_update_rows (s s' : self_t) (ds : list (Z * loader)) (i : nat) :
  update_domains 1 ds None s = (s', Ok ()) →
  NoDup ds.*1 → NoDup (touched_ids 1 ds) →
  i ∈ touched_ids 1 ds →
  ∃ b k logits, b_idx b !! k = Some i ∧ (∃ d ld, (d, ld) ∈ ds ∧ (1 <= d)%Z ∧ b ∈ ld) ∧
    call (model s) (b_data b) !! k = Some logits ∧
    ens_Z s' !! i = Some (softmax logits) ∧
    ens_z s' !! i = Some (F_normalize (softmax logits)).
Proof.
  intros H Hkeys Hnd Hi.
  pose proof Hi as Hi'. apply elem_of_touched_ids in Hi' as (d & ld & b & Hd & Hle & Hb & Hib).
  apply list_elem_of_lookup in Hib as (k & Hk).
  destruct (update_domains_blend_head _ _ _ _ H Hkeys Hnd d ld b k i Hd Hle Hb Hk)
    as (ld0 & m & _ & Hm & zr & logits & HZ & Hl & Hw & HZ').
  apply compute_momentum_first in Hm. inversion Hm; subst m.
  rewrite blend_row_zero in HZ' by (by rewrite softmax_length).
  destruct (update_domains_sync _ _ _ _ _ i H) as (r & Hr & Hrz).
  { left. exists d, ld, b. repeat split; try done. by eapply list_elem_of_lookup_2. }
  rewrite HZ' in Hr. inversion Hr; subst r.
  exists b, k, logits. repeat split; try done. eauto.
Qed.

(** X5.  For the first domain the update is idempotent: with distinct
    keys and every example id yielded once, a second call of [_update_Z]
    that returns leaves the instance exactly as the first call left it. *)
Theorem first_domain_update_idempotent (s s1 s2 : self_t)
    (domain2trainloader : list (Z * loader)) :
  NoDup domain2trainloader.*1 →
  NoDup (touched_ids 1 domain2trainloader) →
  _update_Z s domain2trainloader 1 = (s1, Ok ()) →
  _update_Z s1 domain2trainloader 1 = (s2, Ok ()) →
  s2 = s1.
Proof.
  intros Hkeys Hnd H1 H2. unfold _update_Z in H1, H2.
  pose proof (update_domains_frame_shape 1 domain2trainloader None
                (set_model s (set_training (model s) false))) as [F1 M1].
  rewrite H1 in F1, M1. simpl in F1, M1.
  assert (Hs1 : set_model s1 (set_training (model s1) false) = s1).
  { rewrite M1, set_training_idem, <- M1. by destruct s1. }
  rewrite Hs1 in H2.
  pose proof (update_domains_frame_shape 1 domain2trainloader None s1) as [F2 M2].
  rewrite H2 in F2, M2. simpl in F2, M2.
  destruct F2 as (_ & Hsl & Hpl & HwZ & Hwz).
  assert (Hrows : ∀ i, ens_Z s2 !! i = ens_Z s1 !! i ∧ ens_z s2 !! i = ens_z s1 !! i).
  { intros i. destruct (decide (i ∈ touched_ids 1 domain2trainloader)) as [Hi|Hi].
    - destruct (first_update_rows _ _ _ _ H1 Hkeys Hnd Hi)
        as (b & k & logits & Hk & _ & Hl & HZ & Hz).
      destruct (first_update_rows _ _ _ _ H2 Hkeys Hnd Hi)
        as (b' & k' & logits' & Hk' & Hin' & Hl' & HZ' & Hz').
      simpl in Hl. rewrite M1 in Hl'. simpl in Hl'.
      assert (Hsame : softmax logits' = softmax logits).
      { destruct Hin' as (d' & ld' & Hd' & Hle' & Hb').
        destruct (update_domains_blend_head _ _ _ _ H1 Hkeys Hnd d' ld' b' k' i Hd' Hle' Hb' Hk')
          as (ld0 & m & _ & Hm & zr & lg & _ & Hlg & Hw & HZ1).
        apply compute_momentum_first in Hm. inversion Hm; subst m.
        simpl in Hlg. rewrite Hl' in Hlg. inversion Hlg; subst lg.
        rewrite blend_row_zero in HZ1 by (by rewrite softmax_length).
        rewrite HZ in HZ1. by inversion HZ1. }
      rewrite HZ, Hz, HZ', Hz', Hsame. done.
    - pose proof (update_domains_frame 1 domain2trainloader None s1 i) as Hf.
      rewrite H2 in Hf. simpl in Hf. apply Hf. intros d ld b Hd Hle Hb Hib.
      apply Hi, elem_of_touched_ids. eauto 10. }
  assert (HZ : ens_Z s2 = ens_Z s1) by (apply list_eq; intros i; by destruct (Hrows i)).
  assert (Hz : ens_z s2 = ens_z s1) by (apply list_eq; intros i; by destruct (Hrows i)).
  clear -M2 Hsl Hpl HZ Hz. destruct s1, s2; simpl in *. congruence.
Qed.

End Idempotent.

Section Runs.
Context `{B : Backend}.
Local Abbreviation self_t := UncertaintyAwareGradualDomainEnsemble.

Lemma dict_get_missing {V : Type} (d : list (Z * V)) k :
  k ∉ d.*1 → dict_get d k = Err KeyError.
Proof.
  induction d as [|[k' v] d IH]; intros Hk; [done|].
  rewrite fmap_cons in Hk. apply not_elem_of_cons in Hk as [Hne Hk]. simpl in Hne.
  cbn [dict_get]. rewrite bool_decide_eq_false_2 by done. by apply IH.
Qed.

Lemma dict_get_elem {V : Type} (d : list (Z * V)) k v :
  dict_get d k = Ok v → (k, v) ∈ d.
Proof.
  induction d as [|[k' v'] d IH]; [done|]. cbn [dict_get].
  case_bool_decide as Hk.
  - intros H; inversion H; subst. left.
  - intros H. right. by apply IH.
Qed.

(** X6.  When [domain_idx] is not a key of [domain2trainloader],
    [_update_Z] writes nothing: it returns, or raises UnboundLocalError at
    the first batch of a later domain ([momentum] was never assigned), and
    the instance is the one of before with the model in evaluation mode.
    [_adapt_train_eval] then raises KeyError at line 81, or that
    UnboundLocalError. *)
Theorem update_without_domain_entry (s : self_t)
    (domain2trainloader : list (Z * loader)) (domain_idx : Z)
    (confidence_q : R) (args : config) :
  domain_idx ∉ domain2trainloader.*1 →
  let s0 := set_model s (set_training (model s) false) in
  (_update_Z s domain2trainloader domain_idx = (s0, Ok ()) ∨
   _update_Z s domain2trainloader domain_idx = (s0, Err UnboundLocalError)) ∧
  (_adapt_train_eval s domain_idx domain2trainloader confidence_q args
     = (s0, Err KeyError) ∨
   _adapt_train_eval s domain_idx domain2trainloader confidence_q args
     = (s0, Err UnboundLocalError)).
Proof.
  intros Hk s0. unfold _adapt_train_eval, _update_Z. fold s0.
  destruct (update_domains_unbound domain_idx domain2trainloader s0 Hk) as [H|H];
    rewrite H.
  - split; [by left|]. left. by rewrite dict_get_missing.
  - split; [by right|]. by right.
Qed.

Lemma update_domains_empty_loader domain_idx (ds : list (Z * loader)) (s : self_t) :
  dict_get ds domain_idx = Ok [] →
  update_domains domain_idx ds None s = (s, Err CatEmptyError) ∨
  update_domains domain_idx ds None s = (s, Err UnboundLocalError).
Proof.
  induction ds as [|[d0 ld0] ds IH]; [done|]. cbn [dict_get update_domains].
  case_bool_decide as Heq.
  - intros H; inversion H; subst. rewrite bool_decide_eq_false_2 by lia. by left.
  - intros H. case_bool_decide as Hlt; [by apply IH|].
    destruct ld0 as [|b ld0]; simpl; [by apply IH|by right].
Qed.

(** X7.  When the loader of [domain_idx] is empty, [_update_Z] raises
    before it writes anything: [torch.cat] fails on the empty list of line
    120, or a later domain met earlier in the dict raises UnboundLocalError;
    [_adapt_train_eval] raises the same exception, and the instance is the
    one of before with the model in evaluation mode. *)
Theorem update_with_empty_domain_loader (s : self_t)
    (domain2trainloader : list (Z * loader)) (domain_idx : Z)
    (confidence_q : R) (args : config) :
  dict_get domain2trainloader domain_idx = Ok [] →
  let s0 := set_model s (set_training (model s) false) in
  ∃ e, (e = CatEmptyError ∨ e = UnboundLocalError) ∧
       _update_Z s domain2trainloader domain_idx = (s0, Err e) ∧
       _adapt_train_eval s domain_idx domain2trainloader confidence_q args
         = (s0, Err e).
Proof.
  intros Hg s0. unfold _adapt_train_eval, _update_Z. fold s0.
  destruct (update_domains_empty_loader domain_idx domain2trainloader s0 Hg) as [H|H];
    rewrite H; eauto.
Qed.

Lemma run_epochs_last (s : self_t) ld alpha n m o last m' o' last' :
  run_epochs s ld alpha n (m, o, last) = Ok (m', o', last') →
  (n = 0%nat ∧ m' = m ∧ last' = last) ∨
  (n ≠ 0%nat ∧ training m' = false ∧ ∃ sc pl, last' = Some (sc, pl)).
Proof.
  revert m o last. induction n as [|n IH]; intros m o last H; simpl in H.
  - inversion H; subst. by left.
  - right. split; [done|]. inv_bind H. destruct a as [[m1 o1] [tl ts]].
    inv_bind H. destruct a as [m2 [ta pl]].
    unfold _oracle_eval_epoch in Ha0. inv_bind Ha0. destruct a as [[c1 c2] num].
    destruct num; [discriminate|]. inversion Ha0; subst m2.
    destruct (IH _ _ _ H) as [(-> & -> & ->)|(_ & Ht & Hl)]; [|done].
    split; [done|]. eauto.
Qed.

(** What one run of [_adapt_train_eval] does to the instance and what it
    hands back. *)
Lemma adapt_train_eval_frame (s s' : self_t) domain_idx ds q args r :
  _adapt_train_eval s domain_idx ds q args = (s', r) →
  weights (model s') = weights (model s) ∧ training (model s') = false ∧
  slope s' = slope s ∧
  widths (ens_Z s') = widths (ens_Z s) ∧ widths (ens_z s') = widths (ens_z s) ∧
  match r with
  | Ok (m, _) => adapt_epochs args ≠ 0%nat ∧ training m = false ∧
                 ∃ pl, pl_acc_list s' = pl_acc_list s ++ [pl]
  | Err _ => pl_acc_list s' = pl_acc_list s
  end.
Proof.
  unfold _adapt_train_eval, _update_Z.
  pose proof (update_domains_frame_shape domain_idx ds None
                (set_model s (set_training (model s) false)))
    as [(Hw & Hs & Hp & HZ & Hz) Hm].
  destruct (update_domains _ _ _ _) as [s1 [[]|e]]; simpl in *.
  2:{ intros H; inversion H; subst. rewrite Hm. by repeat split. }
  destruct (_ ≫= _) as [[[m' o'] [[sc pl]|]]|e] eqn:E; intros H; inversion H; subst;
    simpl; rewrite ?Hm; repeat split; try done.
  - inv_bind E. by apply run_epochs_last in E as [(Hn & _ & Hl)|(Hn & _)].
  - inv_bind E. by apply run_epochs_last in E as [(Hn & _ & Hl)|(Hn & Ht & _)].
  - exists pl. by rewrite Hp.
Qed.

(** X8.  With [adapt_epochs = 0] no run returns: [_adapt_train_eval]
    raises, and so does [adapt] on every non-empty list; when the update,
    the lookup of the loader and the threshold all succeed the exception is
    the UnboundLocalError of line 94, where [pl_acc] was never assigned. *)
Theorem adapt_zero_epochs (s : self_t) (domain_idx : Z)
    (domain2trainloader : list (Z * loader)) (confidence_q : R)
    (qs : list R) (args : config) :
  adapt_epochs args = 0%nat →
  (∃ s' e, _adapt_train_eval s domain_idx domain2trainloader confidence_q args
           = (s', Err e)) ∧
  (∃ s' e, adapt s domain_idx domain2trainloader (confidence_q :: qs) args
           = (s', Err e)) ∧
  (∀ train_loader alpha,
     dict_get domain2trainloader domain_idx = Ok train_loader →
     _update_Z s domain2trainloader domain_idx
       = ((_update_Z s domain2trainloader domain_idx).1, Ok ()) →
     _calc_alpha (_update_Z s domain2trainloader domain_idx).1 train_loader confidence_q
       = Ok alpha →
     (_adapt_train_eval s domain_idx domain2trainloader confidence_q args).2
       = Err UnboundLocalError).
Proof.
  intros H0.
  assert (Hrun : ∃ s' e, _adapt_train_eval s domain_idx domain2trainloader
                           confidence_q args = (s', Err e)).
  { destruct (_adapt_train_eval s domain_idx domain2trainloader confidence_q args)
      as [s' [[m sc]|e]] eqn:E; [|eauto].
    apply adapt_train_eval_frame in E as (_ & _ & _ & _ & _ & Hn & _). done. }
  split; [done|]. split.
  - destruct Hrun as (s' & e & E). unfold adapt. cbn [sweep]. rewrite E. eauto.
  - intros ld alpha Hg Hu Ha. unfold _adapt_train_eval. rewrite Hu, Hg. simpl.
    rewrite Ha. simpl. by rewrite H0.
Qed.

End Runs.

Section AdaptFrame.
Context `{B : Backend}.
Local Abbreviation self_t := UncertaintyAwareGradualDomainEnsemble.

Lemma sweep_runs_frame (s s' : self_t) domain_idx ds args qs r :
  sweep_runs s domain_idx ds args qs = (s', r) →
  weights (model s') = weights (model s) ∧ slope s' = slope s ∧
  widths (ens_Z s') = widths (ens_Z s) ∧ widths (ens_z s') = widths (ens_z s) ∧
  match r with
  | Ok runs =>
      length (pl_acc_list s') = (length (pl_acc_list s) + length qs)%nat ∧
      ∀ e, e ∈ runs → training e.2.1 = false
  | Err _ => (length (pl_acc_list s') < length (pl_acc_list s) + length qs)%nat
  end.
Proof.
  revert s s' r. induction qs as [|q qs IH]; intros s s' r H; simpl in H.
  - inversion H; subst. repeat split; simpl; try lia.
    intros e He. by apply elem_of_nil in He.
  - destruct (_adapt_train_eval s domain_idx ds q args) as [s1 [[m sc]|e]] eqn:E.
    + apply adapt_train_eval_frame in E as (Hw & _ & Hs & HZ & Hz & _ & Ht & pl & Hp).
      destruct (sweep_runs s1 domain_idx ds args qs) as [s2 r2] eqn:E2.
      destruct (IH _ _ _ E2) as (Hw2 & Hs2 & HZ2 & Hz2 & Hr).
      assert (Hl : length (pl_acc_list s1) = S (length (pl_acc_list s))).
      { rewrite Hp, length_app. simpl. lia. }
      destruct r2 as [runs|e]; inversion H; subst;
        (split; [congruence|]); (split; [congruence|]); (split; [congruence|]);
        (split; [congruence|]); simpl.
      * destruct Hr as [Hl2 Hr]. split; [lia|].
        intros e He. apply elem_of_cons in He as [->|He]; [done|by apply Hr].
      * lia.
    + apply adapt_train_eval_frame in E as (Hw & _ & Hs & HZ & Hz & Hp).
      inversion H; subst. repeat split; try done. simpl. rewrite Hp. lia.
Qed.

(** X9.  What [adapt] changes.  Whatever its outcome it keeps the slope
    and the number of rows of [Z] and [z].  When it returns, the committed
    model is in evaluation mode and [pl_acc_list] has grown by one entry per
    element of [confidence_q_list]; when it raises, the weights of
    [self.model] are the ones of before and [pl_acc_list] has grown by at
    most that many entries. *)
Theorem adapt_replaces_model_only_on_success (s s' : self_t) (domain_idx : Z)
    (domain2trainloader : list (Z * loader)) (confidence_q_list : list R)
    (args : config) (r : res unit) :
  adapt s domain_idx domain2trainloader confidence_q_list args = (s', r) →
  slope s' = slope s ∧
  length (ens_Z s') = length (ens_Z s) ∧ length (ens_z s') = length (ens_z s) ∧
  match r with
  | Ok _ =>
      training (model s') = false ∧
      length (pl_acc_list s') =
        (length (pl_acc_list s) + length confidence_q_list)%nat
  | Err _ =>
      weights (model s') = weights (model s) ∧
      (length (pl_acc_list s') <=
         length (pl_acc_list s) + length confidence_q_list)%nat
  end.
Proof.
  unfold adapt. rewrite sweep_as_runs.
  destruct (sweep_runs s domain_idx domain2trainloader args confidence_q_list)
    as [s1 r1] eqn:E.
  apply sweep_runs_frame in E as (Hw & Hs & HZ & Hz & Hr).
  assert (HlZ : length (ens_Z s1) = length (ens_Z s)).
  { unfold widths in HZ. by rewrite <- (length_fmap length), HZ, length_fmap. }
  assert (Hlz : length (ens_z s1) = length (ens_z s)).
  { unfold widths in Hz. by rewrite <- (length_fmap length), Hz, length_fmap. }
  destruct r1 as [runs|e].
  - destruct Hr as [Hl Hr].
    destruct (select_best (dict_of_runs [] runs) NegInf None) as [bs [m|]] eqn:Es;
      intros H; inversion H; subst; simpl.
    + split; [done|]. split; [done|]. split; [done|]. split; [|done].
      destruct (select_best_first_max (dict_of_runs [] runs) m) as (q & sc & Hf).
      { by rewrite Es. }
      destruct Hf as (l1 & l2 & Heq & _).
      assert (Hin : (q, (m, sc)) ∈ dict_of_runs [] runs).
      { rewrite Heq. apply elem_of_app. right. left. }
      apply dict_of_runs_entries in Hin as [Hn|Hin]; [by apply elem_of_nil in Hn|].
      by apply Hr in Hin.
    + split; [done|]. split; [done|]. split; [done|]. split; [done|]. lia.
  - intros H; inversion H; subst.
    split; [done|]. split; [done|]. split; [done|]. split; [done|]. lia.
Qed.

End AdaptFrame.

(** ** The sign of the loss and its weighting by the callers *)




Lemma masked_sum_cons x b v mask :
  masked_sum (x :: v) (b :: mask) = (if b then x else 0) + masked_sum v mask.
Proof.
  rewrite <- !weighted_sum_masked. cbn [zip_with]. rewrite Rsum_cons.
  destruct b; simpl; lra.
Qed.


Lemma count_true_le mask : (count_true mask <= length mask)%nat.
Proof. unfold count_true. apply length_filter. Qed.

Lemma masked_sum_all v mask :
  length v = length mask → count_true mask = length mask → masked_sum v mask = Rsum v.
Proof.
  revert mask. induction v as [|x v IH]; intros [|b mask] Hl Hc; simpl in Hl; try done.
  rewrite masked_sum_cons, Rsum_cons.
  unfold count_true in Hc. rewrite filter_cons in Hc. destruct b; simpl in Hc.
  - rewrite IH; [done|lia|]. unfold count_true. lia.
  - pose proof (count_true_le mask). unfold count_true in *. lia.
Qed.



(** ** The quantile lies among the values *)

Lemma traverse_lookup_inv {A C : Type} (f : A → res C) l l' i c :
  traverse f l = Ok l' → l' !! i = Some c →
  ∃ a, l !! i = Some a ∧ f a = Ok c.
Proof.
  intros H Hi. pose proof (traverse_length _ _ _ H) as Hl.
  destruct (l !! i) as [a|] eqn:E.
  - destruct (traverse_lookup _ _ _ _ _ H E) as (c' & Hc & Hi').
    rewrite Hi in Hi'. inversion Hi'; subst. eauto.
  - apply lookup_ge_None in E. apply lookup_lt_Some in Hi. lia.
Qed.

Lemma traverse_err {A C : Type} (f : A → res C) l e :
  traverse f l = Err e → ∃ a, a ∈ l ∧ f a = Err e.
Proof.
  induction l as [|a l IH]; simpl; [discriminate|].
  destruct (f a) as [c|e'] eqn:E; simpl.
  - destruct (traverse f l) as [cs|e'']; simpl; [discriminate|].
    intros H; inversion H; subst. destruct (IH eq_refl) as (a' & Ha' & He).
    exists a'. split; [by right|done].
  - intros H; inversion H; subst. exists a. split; [left|done].
Qed.

Lemma sort_asc_elem l x : x ∈ sort_asc l ↔ x ∈ l.
Proof.
  induction l as [|y l IH]; [done|]. unfold sort_asc in *. cbn [foldr].
  rewrite insert_sorted_elem, IH, elem_of_cons. done.
Qed.

Lemma nth_elem (l : list R) i : (i < length l)%nat → nth i l 0 ∈ l.
Proof.
  intros Hi. destruct (lookup_lt_is_Some_2 l i Hi) as [x Hx].
  rewrite (nth_lookup_Some _ _ 0 _ Hx). by eapply list_elem_of_lookup_2.
Qed.

Lemma floorZ_INR n : floorZ (INR n) = Z.of_nat n.
Proof.
  pose proof (floorZ_bounds (INR n)) as [H1 H2]. rewrite INR_IZR_INZ in *.
  apply le_IZR in H1. rewrite <- succ_IZR in H2. apply lt_IZR in H2. lia.
Qed.

Lemma ceilZ_INR n : ceilZ (INR n) = Z.of_nat n.
Proof.
  pose proof (ceilZ_bounds (INR n)) as [H1 H2]. rewrite INR_IZR_INZ in *.
  apply le_IZR in H1. rewrite <- succ_IZR in H2. apply lt_IZR in H2. lia.
Qed.

Lemma quantile_range v q a :
  quantile v q = Ok a →
  (∃ x, x ∈ v ∧ x <= a) ∧ (∃ y, y ∈ v ∧ a <= y) ∧
  (q = 0 → ∀ x, x ∈ v → a <= x) ∧
  (q = 1 → ∀ x, x ∈ v → x <= a).
Proof.
  intros H. apply quantile_ok in H as (Hv & Hq & ->).
  set (l := sort_asc v).
  assert (Hs : StronglySorted Rle l) by apply sort_asc_ascending.
  assert (Hlen : length l = length v) by apply sort_asc_length.
  assert (Hpos : (0 < length v)%nat) by (destruct v; [done|simpl; lia]).
  assert (Hn : INR (length v - 1) = INR (length l) - 1).
  { rewrite Hlen, minus_INR by lia. simpl (INR 1). lra. }
  assert (H0 : 0 <= INR (length v - 1)) by apply pos_INR.
  set (p := q * INR (length v - 1)).
  assert (Hp : 0 <= p <= INR (length l) - 1) by (unfold p; nra).
  destruct (rank_indices l p Hp) as [Hf Hi].
  pose proof (at_rank_bounds l p Hs Hp) as [Hlo Hhi].
  split; [|split; [|split]].
  - exists (nth (Z.to_nat (floorZ p)) l 0). split; [|done].
    apply sort_asc_elem. fold l. apply nth_elem. lia.
  - exists (nth (Z.to_nat (ceilZ p)) l 0). split; [|done].
    apply sort_asc_elem. fold l. apply nth_elem. lia.
  - intros -> x Hx. apply sort_asc_elem in Hx. fold l in Hx.
    apply list_elem_of_lookup in Hx as (j & Hj).
    assert (Hp0 : p = INR 0) by (unfold p; simpl; lra).
    rewrite Hp0, ceilZ_INR, Nat2Z.id in Hhi.
    pose proof (lookup_lt_Some _ _ _ Hj) as Hjl.
    pose proof (ascending_nth l 0 j Hs ltac:(lia)) as Hle.
    rewrite (nth_lookup_Some _ _ 0 _ Hj) in Hle. rewrite Hp0. lra.
  - intros -> x Hx. apply sort_asc_elem in Hx. fold l in Hx.
    apply list_elem_of_lookup in Hx as (j & Hj).
    assert (Hp1 : p = INR (length v - 1)) by (unfold p; lra).
    rewrite Hp1, floorZ_INR, Nat2Z.id in Hlo.
    pose proof (lookup_lt_Some _ _ _ Hj) as Hjl.
    pose proof (ascending_nth l j (length v - 1) Hs ltac:(lia)) as Hle.
    rewrite (nth_lookup_Some _ _ 0 _ Hj) in Hle. rewrite Hp1. lra.
Qed.

Section Threshold.
Context `{B : Backend}.

Local Abbreviation self_t := UncertaintyAwareGradualDomainEnsemble.

(** The list [_calc_alpha] takes the quantile of holds exactly the
    confidences of the rows of [Z] at the ids the loader yields. *)
Lemma calc_alpha_confidences (s : self_t) (ld : loader) q alpha :
  _calc_alpha s ld q = Ok alpha →
  ∃ conf, quantile conf q = Ok alpha ∧
    ∀ c, c ∈ conf ↔ ∃ i, i ∈ concat (b_idx <$> ld) ∧ confidence_of (ens_Z s) i c.
Proof.
  unfold _calc_alpha. intros H. inv_bind H.
  apply cat_ok in Ha0 as [-> _].
  exists (zip_with Rminus a1 a2). split; [done|].
  pose proof (traverse_length _ _ _ Ha1) as L1.
  pose proof (traverse_length _ _ _ Ha2) as L2.
  intros c. split.
  - intros Hc. apply list_elem_of_lookup in Hc as (n & Hn).
    apply lookup_zip_with_Some in Hn as (M & m & -> & HM & Hm).
    destruct (traverse_lookup_inv _ _ _ _ _ Ha1 HM) as (r & Hr & HrM).
    destruct (traverse_lookup_inv _ _ _ _ _ Ha2 Hm) as (r' & Hr' & Hrm).
    rewrite Hr in Hr'. inversion Hr'; subst r'.
    apply list_elem_of_lookup_2 in Hr. apply elem_of_concat in Hr as (g & Hg & Hrg).
    apply list_elem_of_lookup in Hg as (kb & Hkb).
    destruct (traverse_lookup_inv _ _ _ _ _ Ha Hkb) as (b & Hb & Hgb).
    apply list_elem_of_lookup in Hrg as (k & Hk).
    destruct (traverse_lookup_inv _ _ _ _ _ Hgb Hk) as (i & Hi & HZ).
    destruct (ens_Z s !! i) as [r0|] eqn:E; [|discriminate]. inversion HZ; subst r0.
    exists i. split.
    + apply elem_of_loader_ids. exists b.
      split; by eapply list_elem_of_lookup_2.
    + exists r, M, m. split; [done|]. split; [by apply amax_spec|].
      split; [by apply amin_spec|done].
  - intros (i & Hi & r & M & m & HZ & HM & Hm & ->).
    apply elem_of_loader_ids in Hi as (b & Hb & Hi).
    apply list_elem_of_lookup in Hb as (kb & Hkb).
    destruct (traverse_lookup _ _ _ _ _ Ha Hkb) as (g & Hg & Hkg).
    apply list_elem_of_lookup in Hi as (k & Hk).
    destruct (gather_lookup _ _ _ _ _ Hg Hk) as (r' & HZ' & Hgr).
    rewrite HZ in HZ'. inversion HZ'; subst r'.
    assert (Hin : r ∈ concat a).
    { apply elem_of_concat. exists g. split; by eapply list_elem_of_lookup_2. }
    apply list_elem_of_lookup in Hin as (n & Hn).
    destruct (traverse_lookup _ _ _ _ _ Ha1 Hn) as (M' & HM' & HnM).
    destruct (traverse_lookup _ _ _ _ _ Ha2 Hn) as (m' & Hm' & Hnm).
    apply amax_spec in HM'. apply amin_spec in Hm'.
    rewrite (is_max_unique _ _ _ HM HM'), (is_min_unique _ _ _ Hm Hm').
    apply list_elem_of_lookup. exists n. apply lookup_zip_with_Some. eauto.
Qed.

(** X11.  The threshold [_calc_alpha] returns lies between the
    confidences (largest minus least entry of the row of [Z]) of two ids the
    loader yields; at [confidence_q = 0] it is at most every such
    confidence, at [confidence_q = 1] at least every one. *)
Theorem calc_alpha_range (s : self_t) (ld : loader) (q alpha : R) :
  _calc_alpha s ld q = Ok alpha →
  (∃ i c, i ∈ concat (b_idx <$> ld) ∧ confidence_of (ens_Z s) i c ∧ c <= alpha) ∧
  (∃ i c, i ∈ concat (b_idx <$> ld) ∧ confidence_of (ens_Z s) i c ∧ alpha <= c) ∧
  (q = 0 → ∀ i c, i ∈ concat (b_idx <$> ld) → confidence_of (ens_Z s) i c → alpha <= c) ∧
  (q = 1 → ∀ i c, i ∈ concat (b_idx <$> ld) → confidence_of (ens_Z s) i c → c <= alpha).
Proof.
  intros H. apply calc_alpha_confidences in H as (conf & Hq & Hconf).
  apply quantile_range in Hq as ((x & Hx & Hxa) & (y & Hy & Hya) & H0 & H1).
  split; [|split; [|split]].
  - apply Hconf in Hx as (i & Hi & Hc). eauto.
  - apply Hconf in Hy as (i & Hi & Hc). eauto.
  - intros Hq0 i c Hi Hc. apply (H0 Hq0). apply Hconf. eauto.
  - intros Hq1 i c Hi Hc. apply (H1 Hq1). apply Hconf. eauto.
Qed.

End Threshold.

(** ** No epoch divides by zero at the threshold of its own loader *)

Lemma count_true_elem mask : true ∈ mask → count_true mask ≠ 0%nat.
Proof.
  unfold count_true. intros H Hc. apply length_zero_iff_nil in Hc.
  assert (Hin : true ∈ filter (λ b, b = true) mask) by (by apply list_elem_of_filter).
  rewrite Hc in Hin. by apply elem_of_nil in Hin.
Qed.

Lemma sum_list_lookup_pos (l : list nat) k n :
  l !! k = Some n → n ≠ 0%nat → sum_list l ≠ 0%nat.
Proof.
  revert k. induction l as [|x l IH]; intros k Hk Hn; [done|].
  rewrite sum_list_cons. destruct k as [|k]; simpl in Hk.
  - inversion Hk; subst. lia.
  - specialize (IH k Hk Hn). lia.
Qed.

Lemma gather_err t idx e : gather t idx = Err e → e = IndexError.
Proof.
  unfold gather. intros H. apply traverse_err in H as (i & _ & Hi).
  destruct (t !! i); [discriminate|]. by inversion Hi.
Qed.

Lemma amax_err r e : amax r = Err e → e = ReductionEmptyError.
Proof. destruct r; simpl; intros H; by inversion H. Qed.

Lemma amin_err r e : amin r = Err e → e = ReductionEmptyError.
Proof. destruct r; simpl; intros H; by inversion H. Qed.

Lemma argmax_err r e : argmax r = Err e → e = ReductionEmptyError.
Proof. destruct r; simpl; intros H; by inversion H. Qed.

Lemma nll_loss_err logp target e :
  nll_loss logp target = Err e → e = IndexError ∨ e = ShapeError.
Proof.
  unfold nll_loss. case_bool_decide as Hl.
  - intros H. apply traverse_err in H as ([r t] & _ & Hrt).
    destruct (r !! t); [discriminate|]. inversion Hrt. by left.
  - intros H. inversion H. by right.
Qed.

Lemma pseudo_label_loss_err student ens alpha e :
  _pseudo_label_loss student ens alpha = Err e → e ≠ ZeroDivisionError.
Proof.
  unfold _pseudo_label_loss.
  destruct (traverse amax ens) as [mx|e1] eqn:E1; simpl.
  2:{ intros H; inversion H; subst. apply traverse_err in E1 as (r & _ & Hr).
      by rewrite (amax_err _ _ Hr). }
  destruct (traverse amin ens) as [mn|e2] eqn:E2; simpl.
  2:{ intros H; inversion H; subst. apply traverse_err in E2 as (r & _ & Hr).
      by rewrite (amin_err _ _ Hr). }
  destruct (traverse argmax ens) as [tp|e3] eqn:E3; simpl.
  2:{ intros H; inversion H; subst. apply traverse_err in E3 as (r & _ & Hr).
      by rewrite (argmax_err _ _ Hr). }
  destruct (nll_loss _ tp) as [nll|e4] eqn:E4; simpl; [discriminate|].
  intros H; inversion H; subst. by destruct (nll_loss_err _ _ _ E4) as [->| ->].
Qed.

Section NoZeroDivision.
Context `{B : Backend}.

Local Abbreviation self_t := UncertaintyAwareGradualDomainEnsemble.

Lemma train_batches_err z alpha (ld : loader) st e :
  train_batches z alpha ld st = Err e → e ≠ ZeroDivisionError.
Proof.
  revert st. induction ld as [|b ld IH]; intros [[m o] t]; [discriminate|].
  cbn [train_batches].
  destruct (gather z (b_idx b)) as [ens|e1] eqn:E1; simpl.
  2:{ intros H; inversion H; subst. by rewrite (gather_err _ _ _ E1). }
  destruct (_pseudo_label_loss _ ens alpha) as [[loss mask]|e2] eqn:E2; simpl.
  2:{ intros H; inversion H; subst. by eapply pseudo_label_loss_err. }
  destruct (opt_step _ _ _ _ _) as [w' o']. apply IH.
Qed.

Lemma eval_batches_err z alpha m (ld : loader) t e :
  eval_batches z alpha m ld t = Err e → e ≠ ZeroDivisionError.
Proof.
  revert t. induction ld as [|b ld IH]; intros t; [discriminate|].
  cbn [eval_batches].
  destruct (gather z (b_idx b)) as [ens|e1] eqn:E1; simpl.
  2:{ intros H; inversion H; subst. by rewrite (gather_err _ _ _ E1). }
  destruct (_pseudo_label_loss _ ens alpha) as [[loss mask]|e2] eqn:E2; simpl.
  2:{ intros H; inversion H; subst. by eapply pseudo_label_loss_err. }
  apply IH.
Qed.

Lemma finish_epoch_nonzero t :
  total_num t ≠ 0%nat → finish_epoch t ≠ Err ZeroDivisionError.
Proof.
  unfold finish_epoch. destruct (total_num t); [done|]. intros _. simpl.
  destruct (total_logits t); simpl; discriminate.
Qed.

Lemma batch_mask_lookup z alpha (b : batch) mask k i r M m :
  batch_mask z alpha b = Ok mask → b_idx b !! k = Some i → z !! i = Some r →
  is_max M r → is_min m r → mask !! k = Some (bool_decide (M - m >= alpha)).
Proof.
  unfold batch_mask. intros H Hk Hz HM Hm. inv_bind H. inversion H; subst; clear H.
  destruct (gather_lookup _ _ _ _ _ Ha Hk) as (r' & Hz' & Hr).
  rewrite Hz in Hz'. inversion Hz'; subst r'.
  destruct (traverse_lookup _ _ _ _ _ Ha0 Hr) as (M' & HM' & HkM).
  destruct (traverse_lookup _ _ _ _ _ Ha1 Hr) as (m' & Hm' & Hkm).
  apply amax_spec in HM'. apply amin_spec in Hm'.
  rewrite (is_max_unique _ _ _ HM HM'), (is_min_unique _ _ _ Hm Hm').
  rewrite list_lookup_fmap. erewrite (proj2 (lookup_zip_with_Some _ _ _ _ _)); [done|].
  eauto.
Qed.

(** When [z] agrees with [Z] on the loader's ids, an example of largest
    confidence passes the mask at every threshold [_calc_alpha] gives. *)
Lemma threshold_masks_nonzero (s : self_t) (ld : loader) q alpha masks :
  _calc_alpha s ld q = Ok alpha →
  (∀ i, i ∈ concat (b_idx <$> ld) → ens_z s !! i = ens_Z s !! i) →
  traverse (batch_mask (ens_z s) alpha) ld = Ok masks →
  sum_list (count_true <$> masks) ≠ 0%nat.
Proof.
  intros Ha Hz Hm.
  apply calc_alpha_confidences in Ha as (conf & Hq & Hconf).
  apply quantile_range in Hq as (_ & (y & Hy & Hya) & _).
  apply Hconf in Hy as (i & Hi & r & M & m & HZ & HM & Hmn & ->).
  pose proof (Hz i Hi) as Hzi. rewrite HZ in Hzi.
  apply elem_of_loader_ids in Hi as (b & Hb & Hi).
  apply list_elem_of_lookup in Hb as (kb & Hkb).
  apply list_elem_of_lookup in Hi as (k & Hk).
  destruct (traverse_lookup _ _ _ _ _ Hm Hkb) as (mask & Hmask & Hkm).
  pose proof (batch_mask_lookup _ _ _ _ _ _ _ _ _ Hmask Hk Hzi HM Hmn) as Hmk.
  rewrite bool_decide_eq_true_2 in Hmk by lra.
  apply (sum_list_lookup_pos _ kb (count_true mask)).
  - by rewrite list_lookup_fmap, Hkm.
  - apply count_true_elem. by eapply list_elem_of_lookup_2.
Qed.

(** X12.  At a threshold [_calc_alpha] computed from a loader, neither
    [_adapt_train_epoch] nor [_adapt_eval_epoch] on that loader raises
    ZeroDivisionError when [z] and [Z] hold the same rows at the loader's
    ids: an example of largest confidence passes the mask. *)
Theorem epochs_never_divide_by_zero (s : self_t) (ld : loader) (q alpha : R)
    (m : module) (o : optim) :
  _calc_alpha s ld q = Ok alpha →
  (∀ i, i ∈ concat (b_idx <$> ld) → ens_z s !! i = ens_Z s !! i) →
  _adapt_train_epoch s m ld o alpha ≠ Err ZeroDivisionError ∧
  _adapt_eval_epoch s m ld alpha ≠ Err ZeroDivisionError.
Proof.
  intros Ha Hz. split.
  - unfold _adapt_train_epoch.
    destruct (train_batches _ _ _ _) as [[[m' o'] t]|e] eqn:E; simpl.
    + destruct (train_batches_totals _ _ _ _ _ _ _ _ _ E) as (masks & Hm & Hn & _).
      pose proof (threshold_masks_nonzero _ _ _ _ _ Ha Hz Hm) as Hpos.
      assert (Hne : total_num t ≠ 0%nat) by (simpl in Hn; lia).
      pose proof (finish_epoch_nonzero t Hne) as Hf.
      destruct (finish_epoch t) as [r|e]; simpl; [discriminate|].
      intros H; inversion H; subst. done.
    + intros H; inversion H; subst. by eapply train_batches_err.
  - unfold _adapt_eval_epoch.
    destruct (eval_batches _ _ _ _ _) as [t|e] eqn:E; simpl.
    + destruct (eval_batches_totals _ _ _ _ _ _ E) as (masks & Hm & Hn & _).
      pose proof (threshold_masks_nonzero _ _ _ _ _ Ha Hz Hm) as Hpos.
      assert (Hne : total_num t ≠ 0%nat) by (simpl in Hn; lia).
      pose proof (finish_epoch_nonzero t Hne) as Hf.
      destruct (finish_epoch t) as [r|e]; simpl; [discriminate|].
      intros H; inversion H; subst. done.
    + intros H; inversion H; subst. by eapply eval_batches_err.
Qed.

End NoZeroDivision.

Section Oracle.
Context `{B : Backend}.

Local Abbreviation self_t := UncertaintyAwareGradualDomainEnsemble.

(** The comparison counts at most as many entries as the longer vector
    has. *)
Lemma count_eq_le a b n :
  count_eq a b = Ok n → (n <= length a `max` length b)%nat.
Proof.
  unfold count_eq. case_bool_decide as Hl.
  - intros H; inversion H; subst. etrans; [apply length_filter|].
    rewrite length_zip. lia.
  - destruct a as [|x [|x' a]]; destruct b as [|y [|y' b]]; intros H;
      inversion H; subst; clear H;
      first [ simpl; lia
            | match goal with
              | |- context [length (filter ?P ?l)] =>
                  pose proof (length_filter P l); simpl in *; lia
              end ].
Qed.

Lemma oracle_batches_counts z m (ld : loader) c p n c' p' n' :
  oracle_batches z m ld (c, p, n) = Ok (c', p', n') →
  n' = (n + sum_list ((λ b, batch_len (b_data b)) <$> ld))%nat ∧
  (batches_within m ld →
   (c' - c <= n' - n)%nat ∧ (p' - p <= n' - n)%nat ∧ (n <= n')%nat).
Proof.
  revert c p n. induction ld as [|b ld IH]; intros c p n H.
  - inversion H; subst. rewrite fmap_nil. simpl. split; [lia|]. intros _. lia.
  - cbn [oracle_batches] in H. inv_bind H.
    apply IH in H as [Hn Hle]. rewrite fmap_cons, sum_list_cons.
    split; [lia|]. intros Hb.
    destruct Hle as (Hc & Hp & Hnn); [intros b' Hb'; apply Hb; by right|].
    destruct (Hb b ltac:(left)) as (Hout & Hy & Hid).
    apply traverse_length in Ha, Ha1, Ha2.
    apply count_eq_le in Ha0, Ha3. lia.
Qed.

Lemma oracle_batches_pl z m1 m2 (ld : loader) c1 c2 p n c1' c2' p1 p2 n1 n2 :
  oracle_batches z m1 ld (c1, p, n) = Ok (c1', p1, n1) →
  oracle_batches z m2 ld (c2, p, n) = Ok (c2', p2, n2) →
  p1 = p2 ∧ n1 = n2.
Proof.
  revert c1 c2 p n. induction ld as [|b ld IH]; intros c1 c2 p n H1 H2.
  - inversion H1; inversion H2; subst. done.
  - cbn [oracle_batches] in H1, H2. inv_bind H1. inv_bind H2.
    rewrite Ha1 in Ha6. inversion Ha6; subst.
    rewrite Ha2 in Ha7. inversion Ha7; subst.
    rewrite Ha3 in Ha8. inversion Ha8; subst.
    eapply IH; eauto.
Qed.

(** X13.  When [_oracle_eval_epoch] returns, the model it hands back is
    the given one in evaluation mode, some batch has a non-zero
    [data.shape[0]] and both accuracies are at least 0.  They are at most 1
    when no batch has more output rows, labels or ids than inputs: with a
    single label or id [torch.eq] broadcasts, and a batch that counts more
    comparisons than inputs takes an accuracy above 1.  The pseudo-label
    accuracy does not depend on the model. *)
Theorem oracle_epoch_accuracies (s : self_t) (m m' : module) (ld : loader) (acc pl : R) :
  _oracle_eval_epoch s m ld = Ok (m', (acc, pl)) →
  m' = set_training m false ∧ 0 <= acc ∧ 0 <= pl ∧
  (∃ b, b ∈ ld ∧ batch_len (b_data b) ≠ 0%nat) ∧
  (batches_within (set_training m false) ld → acc <= 1 ∧ pl <= 1) ∧
  (∀ m2 m2' acc2 pl2,
     _oracle_eval_epoch s m2 ld = Ok (m2', (acc2, pl2)) → pl2 = pl).
Proof.
  unfold _oracle_eval_epoch. intros H.
  destruct (oracle_batches _ _ _ _) as [[[c p] n]|e] eqn:E; simpl in H; [|discriminate].
  destruct n as [|n]; [discriminate|]. inversion H; subst; clear H.
  destruct (oracle_batches_counts _ _ _ _ _ _ _ _ _ E) as [Hn Hle].
  assert (Hpos : 0 < INR (S n)) by (apply lt_0_INR; lia).
  assert (Hdiv : ∀ k : nat, 0 <= INR k / INR (S n)).
  { intros k. unfold Rdiv. apply Rmult_le_pos; [apply pos_INR|].
    left. by apply Rinv_0_lt_compat. }
  assert (Hone : ∀ k : nat, (k <= S n)%nat → INR k / INR (S n) <= 1).
  { intros k Hk. apply le_INR in Hk.
    apply (Rmult_le_reg_r (INR (S n))); [done|].
    unfold Rdiv. rewrite Rmult_assoc, Rinv_l by lra. lra. }
  split; [done|]. split; [apply Hdiv|]. split; [apply Hdiv|]. split; [|split].
  - destruct (sum_list_pos ((λ b, batch_len (b_data b)) <$> ld)) as (k & x & Hk & Hx).
    { simpl in Hn. lia. }
    apply list_lookup_fmap_Some in Hk as (b & -> & Eb). exists b.
    split; [by eapply list_elem_of_lookup_2|exact Hx].
  - intros Hb. destruct (Hle Hb) as (Hc & Hp & _). split; apply Hone; lia.
  - intros m2 m2' acc2 pl2 H2.
    destruct (oracle_batches _ (set_training m2 false) _ _) as [[[c2 p2] n2]|e] eqn:E2;
      simpl in H2; [|discriminate].
    destruct (oracle_batches_pl _ _ _ _ _ _ _ _ _ _ _ _ _ _ E E2) as [-> <-].
    by inversion H2.
Qed.

(** ** [target_validate] *)

Lemma eval_batches_logits z alpha m (ld : loader) t t' :
  eval_batches z alpha m ld t = Ok t' →
  total_logits t' = total_logits t ++ ((λ b, call m (b_data b)) <$> ld).
Proof.
  revert t. induction ld as [|b ld IH]; intros t H.
  - inversion H; subst. by rewrite fmap_nil, app_nil_r.
  - cbn [eval_batches] in H. inv_bind H. destruct a0 as [loss mask].
    apply IH in H. rewrite H. cbn [account total_logits].
    by rewrite fmap_cons, <- app_assoc.
Qed.

(** X14.  [target_validate] raises on the empty loader ([torch.cat] of no
    tensor) and returns on every other one; for a model in evaluation mode
    its score is the score [_adapt_eval_epoch] returns for [get_model()] on
    the same loader, at any threshold. *)
Theorem target_validate_score (s : self_t) (ld : loader) :
  (ld = [] → target_validate s ld = Err CatEmptyError) ∧
  (ld ≠ [] → ∃ score, target_validate s ld = Ok score) ∧
  (∀ alpha m' l score,
     training (get_model s) = false →
     _adapt_eval_epoch s (get_model s) ld alpha = Ok (m', (l, score)) →
     target_validate s ld = Ok score).
Proof.
  split; [by intros ->|]. split.
  - intros Hne. unfold target_validate. destruct ld as [|b ld]; [done|].
    rewrite fmap_cons. simpl. eauto.
  - intros alpha m' l score Ht H. unfold _adapt_eval_epoch, get_model in H.
    assert (Hm : set_training (model s) false = model s).
    { unfold get_model in Ht. destruct (model s) as [w t]. simpl in Ht. by subst t. }
    rewrite Hm in H. inv_bind H. inversion H; subst; clear H.
    apply eval_batches_logits in Ha. simpl in Ha.
    unfold finish_epoch in Ha0. inv_bind Ha0. inversion Ha0; subst; clear Ha0.
    unfold target_validate. rewrite <- Ha, Ha2. done.
Qed.

End Oracle.

(** ** The entropy of probability rows, and how far the momentum moves *)

Lemma ln_le_mono x y : 0 < x → x <= y → ln x <= ln y.
Proof.
  intros Hx [Hlt| ->]; [|lra]. left. by apply ln_increasing.
Qed.

Lemma ln_le_minus_one y : 0 < y → ln y <= y - 1.
Proof.
  intros Hy. rewrite <- (ln_exp (y - 1)). apply ln_le_mono; [done|].
  pose proof (exp_ineq1_le (y - 1)). lra.
Qed.

Lemma Rsum_le_affine (g : R → R) (a b : R) (r : list R) :
  (∀ x, x ∈ r → g x <= a * x + b) →
  Rsum (g <$> r) <= a * Rsum r + b * INR (length r).
Proof.
  induction r as [|x r IH]; intros H.
  - simpl. lra.
  - rewrite fmap_cons, !Rsum_cons. cbn [length]. rewrite S_INR.
    assert (g x <= a * x + b) by (apply H; left).
    assert (Rsum (g <$> r) <= a * Rsum r + b * INR (length r)).
    { apply IH. intros y Hy. apply H. by right. }
    lra.
Qed.

Lemma Rsum_opp (f : R → R) (r : list R) :
  - Rsum (f <$> r) = Rsum ((λ x, - f x) <$> r).
Proof.
  induction r as [|x r IH]; [simpl; lra|].
  rewrite !fmap_cons, !Rsum_cons, <- IH. lra.
Qed.

Lemma Rsum_elem_le (r : list R) x :
  (∀ y, y ∈ r → 0 <= y) → x ∈ r → x <= Rsum r.
Proof.
  induction r as [|y r IH]; intros Hr Hx; [by apply elem_of_nil in Hx|].
  rewrite Rsum_cons.
  assert (0 <= y) by (apply Hr; left).
  assert (Hr' : ∀ z, z ∈ r → 0 <= z) by (intros z Hz; apply Hr; by right).
  apply elem_of_cons in Hx as [->|Hx].
  - assert (0 <= Rsum r); [|lra].
    clear -Hr'. induction r as [|z r IH]; [simpl; lra|]. rewrite Rsum_cons.
    assert (0 <= z) by (apply Hr'; left).
    assert (0 <= Rsum r) by (apply IH; intros w Hw; apply Hr'; by right). lra.
  - specialize (IH Hr' Hx). lra.
Qed.

(** One term of the entropy, from above. *)
Lemma entropy_term_upper (p N : R) :
  0 <= p → 0 < N → - (p * ln (p + eps_log)) <= (ln N - 1) * p + / N.
Proof.
  intros [Hp| <-] HN.
  2:{ rewrite Rmult_0_l, Rmult_0_r, Ropp_0, Rplus_0_l. left. by apply Rinv_0_lt_compat. }
  assert (He : 0 < eps_log) by (unfold eps_log; lra).
  assert (H1 : ln p <= ln (p + eps_log)) by (apply ln_le_mono; lra).
  assert (HNp : 0 < N * p) by (by apply Rmult_lt_0_compat).
  pose proof (ln_le_minus_one (/ (N * p)) (Rinv_0_lt_compat _ HNp)) as H2.
  rewrite ln_Rinv, ln_mult in H2 by done.
  assert (H3 : p * / (N * p) = / N).
  { field. split; lra. }
  assert (H4 : p * (- (ln N + ln p)) <= p * (/ (N * p) - 1)).
  { apply Rmult_le_compat_l; lra. }
  rewrite Rmult_minus_distr_l, H3 in H4. nra.
Qed.

(** One term of the entropy, from below. *)
Lemma entropy_term_lower (p : R) :
  0 <= p <= 1 → p * ln (p + eps_log) <= eps_log * p.
Proof.
  intros [H0 H1].
  assert (He : 0 < eps_log) by (unfold eps_log; lra).
  pose proof (ln_le_minus_one (p + eps_log) ltac:(lra)) as H2.
  nra.
Qed.

Lemma row_entropy_bounds (r : row) :
  prob_row r → - eps_log <= row_entropy r <= ln (INR (length r)).
Proof.
  intros Hp. pose proof (prob_row_nonempty r Hp) as Hne. destruct Hp as [Hr Hs].
  assert (HN : 0 < INR (length r)).
  { apply lt_0_INR. destruct r; [done|simpl; lia]. }
  unfold row_entropy. split.
  - pose proof (Rsum_le_affine (λ p, p * ln (p + eps_log)) eps_log 0 r) as H.
    rewrite Hs in H. cut (Rsum ((λ p, p * ln (p + eps_log)) <$> r) <= eps_log); [lra|].
    etrans; [apply H|lra]. intros x Hx. rewrite Rplus_0_r.
    apply entropy_term_lower. split; [by apply Hr|].
    rewrite <- Hs. by apply Rsum_elem_le.
  - rewrite (Rsum_opp (λ p, p * ln (p + eps_log))).
    pose proof (Rsum_le_affine (λ p, - (p * ln (p + eps_log)))
                  (ln (INR (length r)) - 1) (/ INR (length r)) r) as H.
    rewrite Hs, Rinv_l in H by lra.
    etrans; [apply H|lra]. intros x Hx. apply entropy_term_upper; [by apply Hr|done].
Qed.

Lemma mean_bounds (v : list R) lo hi :
  v ≠ [] → (∀ x, x ∈ v → lo <= x <= hi) → ∃ h, mean v = Num h ∧ lo <= h <= hi.
Proof.
  intros Hne Hv. unfold mean. destruct v as [|x0 v0] eqn:E; [done|]. rewrite <- E in *.
  clear E x0 v0. eexists. split; [done|].
  assert (HN : 0 < INR (length v)).
  { apply lt_0_INR. destruct v; [done|simpl; lia]. }
  assert (Hsum : lo * INR (length v) <= Rsum v <= hi * INR (length v)).
  { clear Hne HN. induction v as [|x v IH]; [simpl; lra|].
    rewrite Rsum_cons. cbn [length]. rewrite S_INR.
    assert (lo <= x <= hi) by (apply Hv; left).
    assert (lo * INR (length v) <= Rsum v <= hi * INR (length v)).
    { apply IH. intros y Hy. apply Hv. by right. }
    lra. }
  split.
  - apply (Rmult_le_reg_r (INR (length v))); [done|].
    unfold Rdiv. rewrite Rmult_assoc, Rinv_l by lra. lra.
  - apply (Rmult_le_reg_r (INR (length v))); [done|].
    unfold Rdiv. rewrite Rmult_assoc, Rinv_l by lra. lra.
Qed.

(** X15.  On a non-empty tensor of probability rows with [n] entries
    each, [_entropy] is a number between [-1e-20] and [ln n]. *)
Theorem entropy_bounds (probs : tensor) (n : nat) :
  probs ≠ [] → Forall (λ r, prob_row r ∧ length r = n) probs →
  ∃ h, _entropy probs = Num h ∧ - eps_log <= h <= ln (INR n).
Proof.
  intros Hne Hp. unfold _entropy. apply mean_bounds.
  - destruct probs; [done|]. by rewrite fmap_cons.
  - intros x Hx. apply list_elem_of_fmap in Hx as (r & -> & Hr).
    eapply Forall_forall in Hp; [|exact Hr]. destruct Hp as [Hpr <-].
    by apply row_entropy_bounds.
Qed.

Lemma clip_towards_half x : Rabs (clip x 0 1 - 0.5) <= Rabs (x - 0.5).
Proof.
  unfold clip, Rmin, Rmax. repeat destruct (Rle_dec _ _); unfold Rabs;
    repeat destruct (Rcase_abs _); lra.
Qed.

Section MomentumRange.
Context `{B : Backend}.

Local Abbreviation self_t := UncertaintyAwareGradualDomainEnsemble.

Lemma collect_probs_rows (P Q : row → Prop) (s : self_t) (bs : loader) te tc te' tc' :
  collect_probs s bs (te, tc) = Ok (te', tc') →
  Forall P (ens_z s) →
  (∀ b, b ∈ bs → Forall Q (softmax <$> call (model s) (b_data b))) →
  Forall (Forall P) te → Forall (Forall Q) tc →
  Forall (Forall P) te' ∧ Forall (Forall Q) tc'.
Proof.
  intros H Hz. revert te tc H. induction bs as [|b bs IH]; intros te tc H Hb Hte Htc.
  - inversion H; subst. done.
  - cbn [collect_probs] in H. inv_bind H. apply (IH _ _ H).
    + intros b' Hb'. apply Hb. by right.
    + apply Forall_app. split; [done|]. apply Forall_singleton.
      apply gather_rows_from in Ha. eapply Forall_impl; [exact Ha|].
      intros r Hr. simpl in Hr. by eapply Forall_forall in Hz.
    + apply Forall_app. split; [done|]. apply Forall_singleton. apply Hb. left.
Qed.

Lemma entropy_num_range (probs : tensor) (n : nat) h :
  _entropy probs = Num h → Forall (λ r, prob_row r ∧ length r = n) probs →
  - eps_log <= h <= ln (INR n).
Proof.
  intros Hh Hp. unfold _entropy in Hh.
  destruct (mean_bounds (row_entropy <$> probs) (- eps_log) (ln (INR n)))
    as (h' & Hh' & Hr).
  - intros E. rewrite E in Hh. discriminate.
  - intros x Hx. apply list_elem_of_fmap in Hx as (r & -> & Hr).
    eapply Forall_forall in Hp; [|exact Hr]. destruct Hp as [Hpr <-].
    by apply row_entropy_bounds.
  - rewrite Hh in Hh'. by inversion Hh'.
Qed.

Lemma gathered_empty (t : tensor) (ld : loader) zs :
  traverse (λ b, gather t (b_idx b)) ld = Ok zs → concat zs = [] →
  concat (b_idx <$> ld) = [].
Proof.
  revert zs. induction ld as [|b ld IH]; intros zs H Hz; [done|].
  cbn [traverse] in H. inv_bind H. inversion H; subst zs; clear H.
  cbn [concat] in Hz. apply app_eq_nil in Hz as [-> Hz].
  apply traverse_length in Ha. rewrite fmap_cons. cbn [concat].
  rewrite (IH _ Ha0 Hz), app_nil_r. destruct (b_idx b); [done|discriminate].
Qed.

Lemma softmax_rows_empty (m : module) (ld : loader) :
  concat ((λ b, softmax <$> call m (b_data b)) <$> ld) = [] →
  concat ((λ b, call m (b_data b)) <$> ld) = [].
Proof.
  induction ld as [|b ld IH]; [done|]. rewrite !fmap_cons. cbn [concat].
  intros H. apply app_eq_nil in H as [H1 H2]. apply fmap_nil_inv in H1.
  by rewrite H1, IH.
Qed.

(** X16.  The slope bounds how far the momentum moves from 0.5.  On a store
    [z] of probability rows with [n] entries each and a model that gives
    [n] logits per example, the momentum [compute_momentum] returns for a
    domain other than the first is either a number within
    [|slope| * (ln n + 1e-20)] of 0.5, or NaN, and NaN only when the loader
    yields no example id or the model no output row. *)
Theorem momentum_near_half (s : self_t) (domain_idx : Z) (ld : loader) (n : nat)
    (momentum : scalar) :
  domain_idx ≠ 1%Z → (0 < n)%nat →
  Forall (λ r, prob_row r ∧ length r = n) (ens_z s) →
  (∀ b, b ∈ ld → Forall (λ l, length l = n) (call (model s) (b_data b))) →
  compute_momentum s domain_idx ld = Ok momentum →
  match momentum with
  | Num m => Rabs (m - 0.5) <= Rabs (slope s) * (ln (INR n) + eps_log)
  | NaN => concat (b_idx <$> ld) = [] ∨
           concat ((λ b, call (model s) (b_data b)) <$> ld) = []
  end.
Proof.
  intros Hd Hn Hz Hl H. unfold compute_momentum in H. inv_bind H.
  destruct a as [te tc]. inv_bind H.
  apply cat_ok in Ha0 as [-> _]. apply cat_ok in Ha1 as [-> _].
  destruct (collect_probs_rows (λ r, prob_row r ∧ length r = n)
              (λ r, prob_row r ∧ length r = n) _ _ _ _ _ _ Ha Hz) as [Hte Htc].
  { intros b Hb. apply Forall_fmap. eapply Forall_impl; [exact (Hl b Hb)|].
    intros l Hlen. simpl in *. split; [|by rewrite softmax_length].
    apply softmax_prob. intros ->. simpl in Hlen. lia. }
  { apply Forall_nil_2. }
  { apply Forall_nil_2. }
  apply Forall_concat in Hte, Htc.
  destruct (collect_probs_spec _ _ _ _ _ _ Ha) as (zs & Hzs & Ete & Etc).
  rewrite app_nil_l in Ete, Etc.
  unfold momentum_of in H. rewrite bool_decide_eq_true_2 in H by done.
  destruct (_entropy (concat tc)) as [c|] eqn:Ec.
  2:{ inversion H. right. apply entropy_nan in Ec. subst tc.
      by apply softmax_rows_empty. }
  destruct (_entropy (concat te)) as [e|] eqn:Ee.
  2:{ inversion H. left. apply entropy_nan in Ee. subst te.
      by eapply gathered_empty. }
  inversion H; subst momentum.
  pose proof (entropy_num_range _ _ _ Ec Htc) as Hc.
  pose proof (entropy_num_range _ _ _ Ee Hte) as He.
  etrans; [apply clip_towards_half|].
  replace (0.5 + slope s * (c - e) - 0.5) with (slope s * (c - e)) by lra.
  rewrite Rabs_mult. apply Rmult_le_compat_l; [apply Rabs_pos|].
  unfold Rabs. destruct (Rcase_abs _); lra.
Qed.

End MomentumRange.

(** ** Rows that stay probability rows *)

Lemma blend_same_shape m (a b : tensor) :
  length a = length b →
  (∀ k ra rb, a !! k = Some ra → b !! k = Some rb → length ra = length rb) →
  ∃ c, blend m a b = Ok c.
Proof.
  intros Hl Hw. unfold blend. rewrite bool_decide_eq_true_2 by done.
  apply traverse_total. apply Forall_forall. intros [ra rb] Hin.
  apply list_elem_of_lookup in Hin as (k & Hk).
  apply lookup_zip_with_Some in Hk as (x & y & Heq & Hx & Hy). inversion Heq; subst x y.
  rewrite bool_decide_eq_true_2 by (by eapply Hw). eauto.
Qed.

Lemma index_put_fits (t : tensor) idx vals :
  Forall (λ i, (i < length t)%nat) idx → length vals = length idx →
  (∀ k i v, idx !! k = Some i → vals !! k = Some v → fits t i v) →
  index_put t idx vals = Ok (write_rows t idx vals).
Proof.
  intros Hr Hl Hf. unfold index_put. rewrite bool_decide_eq_true_2 by done.
  rewrite bool_decide_eq_true_2; [done|]. split; [done|].
  apply Forall_forall. intros [i v] Hin. apply list_elem_of_lookup in Hin as (k & Hk).
  apply lookup_zip_with_Some in Hk as (x & y & Heq & Hx & Hy). inversion Heq; subst x y.
  by eapply Hf.
Qed.

Lemma index_put_out_of_range (t : tensor) idx vals :
  ¬ Forall (λ i, (i < length t)%nat) idx → index_put t idx vals = Err IndexError.
Proof. intros Hr. unfold index_put. by rewrite bool_decide_eq_false_2. Qed.

Lemma gather_in_range (t : tensor) idx rows :
  gather t idx = Ok rows → Forall (λ i, (i < length t)%nat) idx.
Proof.
  intros Hg. apply Forall_forall. intros i Hi. apply list_elem_of_lookup in Hi as (k & Hk).
  destruct (gather_lookup _ _ _ _ _ Hg Hk) as (r & Hr & _). by eapply lookup_lt_Some.
Qed.

Lemma Rabs_le_bounds x a : Rabs x <= a → - a <= x <= a.
Proof. unfold Rabs. destruct (Rcase_abs x); lra. Qed.

Lemma Rsum_nonneg (r : list R) : (∀ x, x ∈ r → 0 <= x) → 0 <= Rsum r.
Proof.
  induction r as [|x r IH]; intros H; [simpl; lra|]. rewrite Rsum_cons.
  assert (0 <= x) by (apply H; left).
  assert (0 <= Rsum r) by (apply IH; intros y Hy; apply H; by right). lra.
Qed.

Lemma near_prob_row_softmax tol n (l : row) :
  0 <= tol → length l = n → l ≠ [] → near_prob_row tol n (softmax l).
Proof.
  intros Ht Hl Hne. destruct (softmax_prob l Hne) as [Hp Hs].
  split; [by rewrite softmax_length|]. split; [done|].
  rewrite Hs. replace (1 - 1) with 0 by lra. by rewrite Rabs_R0.
Qed.

Lemma near_prob_row_blend tol n m (ra rb : row) :
  0 <= tol → 0 <= m <= 1 →
  near_prob_row tol n ra → near_prob_row 0 n rb →
  near_prob_row tol n (zip_with (λ x y, m * x + (1 - m) * y) ra rb).
Proof.
  intros Ht Hm (La & Ha & Sa) (Lb & Hb & Sb).
  assert (Sb' : Rsum rb = 1).
  { apply Rabs_le_bounds in Sb. lra. }
  split; [rewrite length_zip_with; lia|]. split.
  - intros z Hz. apply elem_of_lookup_zip_with in Hz as (i & x & y & -> & Hx & Hy).
    apply list_elem_of_lookup_2 in Hx, Hy.
    specialize (Ha x Hx). specialize (Hb y Hy). nra.
  - rewrite Rsum_blend, Sb' by lia.
    replace (m * Rsum ra + (1 - m) * 1 - 1) with (m * (Rsum ra - 1)) by lra.
    rewrite Rabs_mult, (Rabs_pos_eq m) by lra.
    pose proof (Rabs_pos (Rsum ra - 1)). nra.
Qed.

Lemma near_prob_row_normalize tol n (r : row) :
  0 <= tol <= 0.5 → near_prob_row tol n r → near_prob_row tol n (F_normalize r).
Proof.
  intros Ht (L & Hr & S). apply Rabs_le_bounds in S.
  assert (Hd : Rmax (L1_norm r) eps_normalize = Rsum r).
  { rewrite L1_norm_nonneg by done. apply Rmax_left. unfold eps_normalize. lra. }
  split; [unfold F_normalize; by rewrite length_fmap|]. split.
  - intros x Hx. unfold F_normalize in Hx.
    apply list_elem_of_fmap in Hx as (y & -> & Hy). rewrite Hd.
    specialize (Hr y Hy). unfold Rdiv. apply Rmult_le_pos; [done|].
    left. apply Rinv_0_lt_compat. lra.
  - rewrite (proj2 (F_normalize_sum_one r)) by (by rewrite Hd).
    replace (1 - 1) with 0 by lra. rewrite Rabs_R0. lra.
Qed.

Lemma near_prob_row_nonempty tol n (r : row) :
  tol <= 0.5 → near_prob_row tol n r → (0 < n)%nat.
Proof.
  intros Ht (L & _ & S). destruct r; [|simpl in L; lia].
  simpl in S. rewrite Rabs_left in S by lra. lra.
Qed.

Section ProbabilityRows.
Context `{B : Backend}.

Local Abbreviation self_t := UncertaintyAwareGradualDomainEnsemble.

(** The momentum is unbound, or a weight in [0, 1]. *)
Lemma update_batch_near tol n mo (b : batch) (s s' : self_t) r :
  0 <= tol <= 0.5 → momentum_ok mo → mo ≠ Some NaN →
  Forall (near_prob_row tol n) (ens_Z s) → Forall (near_prob_row tol n) (ens_z s) →
  length (call (model s) (b_data b)) = length (b_idx b) →
  Forall (λ l, length l = n) (call (model s) (b_data b)) →
  update_batch mo b s = (s', r) →
  Forall (near_prob_row tol n) (ens_Z s') ∧ Forall (near_prob_row tol n) (ens_z s') ∧
  returns_or_raises r.
Proof.
  intros Ht Hmo Hnan HZ Hz Hrows Hcols. unfold update_batch, returns_or_raises.
  destruct mo as [[m|]|]; [|by destruct Hnan|].
  2:{ intros H; inversion H; subst. auto 10. }
  specialize (Hmo m eq_refl).
  destruct (gather (ens_Z s) (b_idx b)) as [rows|e] eqn:Eg; cbn [mbind res_bind].
  2:{ intros H; inversion H; subst. apply gather_err in Eg as ->. auto 10. }
  pose proof (traverse_length _ _ _ Eg) as Lrows.
  pose proof (gather_rows_from _ _ _ Eg) as Hrin.
  assert (HProws : Forall (near_prob_row tol n) rows).
  { eapply Forall_impl; [exact Hrin|]. intros r0 Hr0. simpl in Hr0.
    by eapply Forall_forall in HZ. }
  destruct (blend_same_shape m rows (softmax <$> call (model s) (b_data b)))
    as (vals & Eb).
  { rewrite length_fmap. lia. }
  { intros k ra rb Hra Hrb. apply list_lookup_fmap_Some in Hrb as (l & -> & Hl).
    rewrite softmax_length.
    eapply Forall_forall in HProws; [|by eapply list_elem_of_lookup_2].
    eapply Forall_forall in Hcols; [|by eapply list_elem_of_lookup_2].
    destruct HProws as (-> & _). by rewrite Hcols. }
  rewrite Eb. cbn [mbind res_bind].
  assert (HPvals : Forall (near_prob_row tol n) vals).
  { pose proof (blend_rows (near_prob_row tol n) (near_prob_row 0 n) _ _ _ _ Eb HProws)
      as Hb.
    eapply Forall_impl; [apply Hb|].
    - apply Forall_forall. intros rb Hrb.
      apply list_elem_of_fmap in Hrb as (l & -> & Hin).
      pose proof Hin as Hl. eapply Forall_forall in Hl; [|exact Hcols]. simpl in Hl.
      apply near_prob_row_softmax; [lra|done|]. intros ->.
      destruct rows as [|r0 rows'].
      + simpl in Lrows. rewrite <- Lrows in Hrows.
        destruct (call (model s) (b_data b)); [by apply elem_of_nil in Hin|discriminate].
      + apply Forall_cons in HProws as [H0 _].
        apply near_prob_row_nonempty in H0; [|lra]. simpl in Hl. lia.
    - intros r0 (ra & rb & Hra & Hrb & _ & ->). simpl.
      apply near_prob_row_blend; [lra|done|done|done]. }
  assert (Lvals : length vals = length (b_idx b)).
  { unfold blend in Eb. case_bool_decide; [|discriminate].
    apply traverse_length in Eb. rewrite length_zip in Eb. lia. }
  rewrite (index_put_fits (ens_Z s) (b_idx b) vals).
  2:{ by eapply gather_in_range. }
  2:{ done. }
  2:{ intros k i v Hk Hv. unfold fits.
      destruct (gather_lookup _ _ _ _ _ Eg Hk) as (r0 & Hr0 & _). rewrite Hr0.
      eapply Forall_forall in HPvals; [|by eapply list_elem_of_lookup_2].
      eapply Forall_forall in HZ; [|by eapply list_elem_of_lookup_2].
      destruct HPvals as (-> & _). by destruct HZ as (-> & _). }
  set (Z' := write_rows (ens_Z s) (b_idx b) vals).
  assert (HZ' : Forall (near_prob_row tol n) Z') by (by apply write_rows_Forall).
  cbn [ens_z set_Z].
  destruct (gather Z' (b_idx b)) as [rows'|e] eqn:Eg'; cbn [mbind res_bind].
  2:{ intros H; inversion H; subst. apply gather_err in Eg' as ->. simpl. auto 10. }
  pose proof (traverse_length _ _ _ Eg') as Lrows'.
  assert (HProws' : Forall (near_prob_row tol n) rows').
  { pose proof (gather_rows_from _ _ _ Eg') as Hin.
    eapply Forall_impl; [exact Hin|]. intros r0 Hr0. simpl in Hr0.
    by eapply Forall_forall in HZ'. }
  destruct (decide (Forall (λ i, (i < length (ens_z s))%nat) (b_idx b))) as [Hin|Hout].
  2:{ rewrite index_put_out_of_range by done. intros H; inversion H; subst. simpl. auto 10. }
  rewrite index_put_fits; [|done|by rewrite length_fmap|].
  - intros H; inversion H; subst. simpl. split; [done|]. split; [|auto 10].
    apply write_rows_Forall; [done|]. apply Forall_fmap.
    eapply Forall_impl; [exact HProws'|]. intros r0 Hr0. simpl.
    by apply near_prob_row_normalize.
  - intros k i v Hk Hv. unfold fits.
    eapply Forall_forall in Hin; [|by eapply list_elem_of_lookup_2].
    destruct (lookup_lt_is_Some_2 _ _ Hin) as [r0 Hr0]. rewrite Hr0.
    apply list_lookup_fmap_Some in Hv as (r1 & -> & Hr1).
    eapply Forall_forall in HProws'; [|by eapply list_elem_of_lookup_2].
    eapply Forall_forall in Hz; [|by eapply list_elem_of_lookup_2].
    unfold F_normalize. rewrite length_fmap.
    destruct HProws' as (-> & _). by destruct Hz as (-> & _).
Qed.

Lemma update_batches_near tol n mo (ld : loader) (s s' : self_t) r :
  0 <= tol <= 0.5 → momentum_ok mo → mo ≠ Some NaN →
  Forall (near_prob_row tol n) (ens_Z s) → Forall (near_prob_row tol n) (ens_z s) →
  (∀ b, b ∈ ld →
     length (call (model s) (b_data b)) = length (b_idx b) ∧
     Forall (λ l, length l = n) (call (model s) (b_data b))) →
  update_batches mo ld s = (s', r) →
  Forall (near_prob_row tol n) (ens_Z s') ∧ Forall (near_prob_row tol n) (ens_z s') ∧
  returns_or_raises r.
Proof.
  intros Ht Hmo Hnan. revert s. induction ld as [|b ld IH]; intros s HZ Hz Hfit H.
  - inversion H; subst. unfold returns_or_raises. auto.
  - cbn [update_batches] in H.
    destruct (update_batch mo b s) as [s1 r1] eqn:E.
    pose proof (update_batch_frame_shape mo b s) as [_ Hm]. rewrite E in Hm. simpl in Hm.
    destruct (Hfit b ltac:(left)) as [Hrows Hcols].
    destruct (update_batch_near tol n mo b s s1 r1 Ht Hmo Hnan HZ Hz Hrows Hcols E)
      as (HZ1 & Hz1 & Hr1).
    destruct r1 as [[]|e]; [|by inversion H; subst].
    apply (IH s1); [done|done| |done].
    intros b' Hb'. rewrite Hm. apply Hfit. by right.
Qed.

Lemma collect_probs_err (s : self_t) (ld : loader) acc e :
  collect_probs s ld acc = Err e → e = IndexError.
Proof.
  revert acc. induction ld as [|b ld IH]; intros [te tc] H; [discriminate|].
  cbn [collect_probs] in H.
  destruct (gather (ens_z s) (b_idx b)) as [zs|e'] eqn:Eg; cbn [mbind res_bind] in H.
  - by eapply IH.
  - inversion H; subst. by eapply gather_err.
Qed.

Lemma compute_momentum_err (s : self_t) domain_idx (ld : loader) e :
  compute_momentum s domain_idx ld = Err e → e = IndexError ∨ e = CatEmptyError.
Proof.
  unfold compute_momentum.
  destruct (collect_probs s ld ([], [])) as [[te tc]|e'] eqn:Ec; cbn [mbind res_bind].
  2:{ intros H; inversion H; subst. left. by eapply collect_probs_err. }
  destruct te; cbn; [intros H; inversion H; auto|].
  destruct tc; cbn; [intros H; inversion H; auto|]. discriminate.
Qed.

Lemma rows_of_ids (m : module) (ld : loader) :
  (∀ b, b ∈ ld → length (call m (b_data b)) = length (b_idx b)) →
  concat ((λ b, call m (b_data b)) <$> ld) = [] → concat (b_idx <$> ld) = [].
Proof.
  induction ld as [|b ld IH]; intros Hfit; [done|]. rewrite !fmap_cons. cbn [concat].
  intros H. apply app_eq_nil in H as [H1 H2].
  rewrite IH, app_nil_r; [|intros b' Hb'; apply Hfit; by right|done].
  pose proof (Hfit b ltac:(left)) as Hl. rewrite H1 in Hl.
  destruct (b_idx b); [done|discriminate].
Qed.

(** With an example to take the means over, the momentum is a number. *)
Lemma compute_momentum_defined (s : self_t) domain_idx (ld : loader) mo :
  domain_idx = 1%Z ∨ concat (b_idx <$> ld) ≠ [] →
  (∀ b, b ∈ ld → length (call (model s) (b_data b)) = length (b_idx b)) →
  compute_momentum s domain_idx ld = Ok mo →
  ∃ m, mo = Num m ∧ 0 <= m <= 1.
Proof.
  intros Hdef Hfit H. unfold compute_momentum in H. inv_bind H.
  destruct a as [te tc]. inv_bind H.
  apply cat_ok in Ha0 as [-> _]. apply cat_ok in Ha1 as [-> _].
  destruct (collect_probs_spec _ _ _ _ _ _ Ha) as (zs & Hzs & -> & ->).
  rewrite !app_nil_l in H. inversion H; subst mo; clear H. unfold momentum_of.
  case_bool_decide as Hd; [|exists 0; split; [done|lra]].
  destruct Hdef as [->|Hids]; [done|].
  destruct (_entropy (concat (_ <$> ld))) as [c|] eqn:Ec.
  2:{ apply entropy_nan in Ec. apply softmax_rows_empty in Ec.
      apply rows_of_ids in Ec; done. }
  destruct (_entropy (concat zs)) as [e|] eqn:Ee.
  2:{ apply entropy_nan in Ee. by apply (gathered_empty _ _ _ Hzs) in Ee. }
  eexists. split; [done|]. apply clip_bounds.
Qed.

Lemma update_domains_near tol n domain_idx (ds : list (Z * loader)) mo
    (s s' : self_t) r :
  0 <= tol <= 0.5 → momentum_ok mo → mo ≠ Some NaN →
  Forall (near_prob_row tol n) (ens_Z s) → Forall (near_prob_row tol n) (ens_z s) →
  logits_fit (model s) n domain_idx ds → momentum_defined domain_idx ds →
  update_domains domain_idx ds mo s = (s', r) →
  Forall (near_prob_row tol n) (ens_Z s') ∧ Forall (near_prob_row tol n) (ens_z s') ∧
  returns_or_raises r.
Proof.
  intros Ht. revert mo s.
  induction ds as [|[d ld] ds IH]; intros mo s Hmo Hnan HZ Hz Hfit Hdef H.
  { inversion H; subst. unfold returns_or_raises. auto. }
  assert (Hfit' : logits_fit (model s) n domain_idx ds).
  { intros d' ld' b' Hd'. apply Hfit. by right. }
  assert (Hdef' : momentum_defined domain_idx ds).
  { destruct Hdef as [->|Hdef]; [by left|right]. intros ld' Hld'. apply Hdef. by right. }
  cbn [update_domains] in H. case_bool_decide as Hlt; [by eapply IH|].
  assert (Hld : ∀ b, b ∈ ld →
            length (call (model s) (b_data b)) = length (b_idx b) ∧
            Forall (λ l, length l = n) (call (model s) (b_data b))).
  { intros b Hb. apply (Hfit d ld); [left|lia|done]. }
  destruct (if bool_decide (d = domain_idx) then _ else _) as [mo'|e] eqn:E.
  2:{ inversion H; subst s' r. case_bool_decide as Hd; [|discriminate].
      destruct (compute_momentum s domain_idx ld) as [m|e'] eqn:Em; [discriminate|].
      inversion E; subst e'. unfold returns_or_raises.
      destruct (compute_momentum_err _ _ _ _ Em) as [-> | ->]; auto 10. }
  assert (Hmo' : momentum_ok mo' ∧ mo' ≠ Some NaN).
  { case_bool_decide as Hd; [|by inversion E; subst].
    subst d. inv_bind E. inversion E; subst mo'.
    destruct (compute_momentum_defined s domain_idx ld a) as (m & -> & Hm).
    - destruct Hdef as [->|Hdef]; [by left|right]. apply Hdef. left.
    - intros b Hb. by apply Hld.
    - done.
    - split; [|discriminate]. intros m' Hm'. by inversion Hm'; subst. }
  destruct Hmo' as [Hmo' Hnan'].
  destruct (update_batches mo' ld s) as [s1 r1] eqn:E1.
  pose proof (update_batches_frame_shape mo' ld s) as [_ Hm]. rewrite E1 in Hm.
  simpl in Hm.
  destruct (update_batches_near tol n mo' ld s s1 r1 Ht Hmo' Hnan' HZ Hz Hld E1)
    as (HZ1 & Hz1 & Hr1).
  destruct r1 as [[]|e]; [|by inversion H; subst].
  apply (IH mo' s1); try done. by rewrite Hm.
Qed.

(** X1.  [_update_Z] keeps rows that are probability rows up to a
    tolerance.  Let every row of [Z] and of [z] have [n] non-negative
    entries with a sum within [tol] of 1, let the network give one row of
    [n] logits per example id (nothing is broadcast), and let the momentum
    be a number (the first domain, or a loader that yields an example).
    Then the call returns or raises IndexError, the [torch.cat] error or
    UnboundLocalError, never a shape error, and whatever the outcome every
    row of [Z] and of [z] still has [n] non-negative entries with a sum
    within [tol] of 1. *)
Theorem update_keeps_probability_rows (s s' : self_t)
    (domain2trainloader : list (Z * loader)) (domain_idx : Z)
    (tol : R) (n : nat) (r : res unit) :
  0 <= tol <= 0.5 →
  Forall (near_prob_row tol n) (ens_Z s) → Forall (near_prob_row tol n) (ens_z s) →
  logits_fit (set_training (model s) false) n domain_idx domain2trainloader →
  momentum_defined domain_idx domain2trainloader →
  _update_Z s domain2trainloader domain_idx = (s', r) →
  Forall (near_prob_row tol n) (ens_Z s') ∧ Forall (near_prob_row tol n) (ens_z s') ∧
  returns_or_raises r.
Proof.
  intros Ht HZ Hz Hfit Hdef H. unfold _update_Z in H.
  apply (update_domains_near tol n domain_idx domain2trainloader None
           (set_model s (set_training (model s) false)) s' r Ht); try done.
Qed.

End ProbabilityRows.

Section RunCopy.
Context `{B : Backend}.

Local Abbreviation self_t := UncertaintyAwareGradualDomainEnsemble.

(** X17.  [_adapt_train_eval] trains a copy.  Whatever its outcome,
    [self.model] is the model of before in evaluation mode, and [Z], [z]
    are as [_update_Z] left them: the epochs write neither.  A run that
    returns hands back a model in evaluation mode and has appended one
    entry to [pl_acc_list]; a run that raises leaves [pl_acc_list] as it
    was. *)
Theorem run_trains_a_copy (s s' : self_t) (domain_idx : Z)
    (domain2trainloader : list (Z * loader)) (confidence_q : R) (args : config)
    (r : res (module * R)) :
  _adapt_train_eval s domain_idx domain2trainloader confidence_q args = (s', r) →
  model s' = set_training (model s) false ∧
  ens_Z s' = ens_Z (_update_Z s domain2trainloader domain_idx).1 ∧
  ens_z s' = ens_z (_update_Z s domain2trainloader domain_idx).1 ∧
  slope s' = slope s ∧
  match r with
  | Ok (m, _) => training m = false ∧ ∃ pl, pl_acc_list s' = pl_acc_list s ++ [pl]
  | Err _ => pl_acc_list s' = pl_acc_list s
  end.
Proof.
  unfold _adapt_train_eval, _update_Z.
  pose proof (update_domains_frame_shape domain_idx domain2trainloader None
                (set_model s (set_training (model s) false)))
    as [(_ & Hs & Hp & _ & _) Hm].
  destruct (update_domains _ _ _ _) as [s1 [[]|e]]; simpl in *.
  2:{ intros H; inversion H; subst. by rewrite Hm. }
  destruct (_ ≫= _) as [[[m' o'] [[sc pl]|]]|e] eqn:E; intros H; inversion H; subst;
    simpl; rewrite ?Hm; repeat split; try done.
  - inv_bind E. by apply run_epochs_last in E as [(Hn & _ & Hl)|(Hn & Ht & _)].
  - exists pl. by rewrite Hp.
Qed.

End RunCopy.

(** ** The further properties at concrete inputs *)

Lemma prob_row_one_hot : prob_row [1; 0].
Proof.
  split; [|simpl; lra]. intros x Hx.
  apply elem_of_cons in Hx as [->|Hx]; [lra|].
  apply list_elem_of_singleton in Hx. subst. lra.
Qed.

Lemma toy_keys_distinct : NoDup toy_loaders.*1.
Proof. apply NoDup_singleton. Qed.

Lemma toy_ids_distinct : NoDup (touched_ids 1 toy_loaders).
Proof. apply NoDup_singleton. Qed.

Lemma toy_no_second_domain : 2%Z ∉ toy_loaders.*1.
Proof. intros H. apply list_elem_of_singleton in H. discriminate. Qed.

Lemma toy_update_again pl :
  _update_Z (toy_updated pl) toy_loaders 1 = (toy_updated pl, Ok ()).
Proof.
  unfold _update_Z, toy_loaders, toy_updated. cbn [update_domains].
  rewrite bool_decide_eq_false_2 by lia.
  rewrite bool_decide_eq_true_2 by done.
  unfold compute_momentum, update_batches. cbn -[softmax update_batch momentum_of].
  unfold momentum_of. rewrite bool_decide_eq_false_2 by (intros H; by apply H).
  cbn -[softmax F_normalize]. rewrite softmax_00.
  unfold blend. cbn -[F_normalize]. rdecide. cbn -[F_normalize].
  unfold index_put. cbn -[F_normalize]. rdecide. cbn -[F_normalize]. rdecide.
  replace [0 * 0.5 + (1 - 0) * 0.5; 0 * 0.5 + (1 - 0) * 0.5] with [0.5; 0.5] by req.
  rewrite F_normalize_half_half. reflexivity.
Qed.

Lemma toy_batches_within (m : @module toy_backend) : batches_within m [toy_batch].
Proof.
  intros b Hb. apply list_elem_of_singleton in Hb. subst. simpl. lia.
Qed.


Lemma update_without_domain_entry_witness :
  _adapt_train_eval toy_store 2 toy_loaders 0.5 toy_args
    = (set_model toy_store (set_training (model toy_store) false), Err KeyError) ∨
  _adapt_train_eval toy_store 2 toy_loaders 0.5 toy_args
    = (set_model toy_store (set_training (model toy_store) false), Err UnboundLocalError).
Proof.
  exact (proj2 (update_without_domain_entry toy_store toy_loaders 2 0.5 toy_args
                  toy_no_second_domain)).
Defined.

Lemma update_with_empty_domain_loader_witness :
  ∃ e, (e = CatEmptyError ∨ e = UnboundLocalError) ∧
       _update_Z toy_store empty_loaders 1
         = (set_model toy_store (set_training (model toy_store) false), Err e) ∧
       _adapt_train_eval toy_store 1 empty_loaders 0.5 toy_args
         = (set_model toy_store (set_training (model toy_store) false), Err e).
Proof.
  exact (update_with_empty_domain_loader toy_store empty_loaders 1 0.5 toy_args eq_refl).
Defined.

Lemma adapt_zero_epochs_witness :
  ∃ s' e, adapt toy_store 1 toy_loaders [0.5] zero_epoch_args = (s', Err e).
Proof.
  exact (proj1 (proj2 (adapt_zero_epochs toy_store 1 toy_loaders 0.5 [] zero_epoch_args
                         eq_refl))).
Defined.

Lemma adapt_replaces_model_only_on_success_witness :
  training (model (set_model (toy_updated [1]) (@Build_module toy_backend 0 false))) = false ∧
  length (pl_acc_list (set_model (toy_updated [1]) (@Build_module toy_backend 0 false)))
    = (length (pl_acc_list toy_store) + length [0.5%R])%nat.
Proof.
  destruct (adapt_replaces_model_only_on_success _ _ _ _ _ _ _ toy_adapt)
    as (_ & _ & _ & H).
  exact H.
Defined.


Lemma calc_alpha_range_witness :
  ∃ i c, i ∈ concat (b_idx <$> [toy_batch]) ∧
         confidence_of (ens_Z (toy_updated [])) i c ∧ 0 <= c.
Proof.
  destruct (calc_alpha_range (toy_updated []) [toy_batch] 0.5 0) as (_ & H & _).
  - apply toy_alpha. lra.
  - exact H.
Defined.

Lemma epochs_never_divide_by_zero_witness :
  _adapt_train_epoch (toy_updated []) (@Build_module toy_backend 0 false) [toy_batch] tt 0
    ≠ Err ZeroDivisionError ∧
  _adapt_eval_epoch (toy_updated []) (@Build_module toy_backend 0 false) [toy_batch] 0
    ≠ Err ZeroDivisionError.
Proof.
  apply (epochs_never_divide_by_zero (toy_updated []) [toy_batch] 0.5 0).
  - apply toy_alpha. lra.
  - intros i _. reflexivity.
Defined.

Lemma oracle_epoch_accuracies_witness :
  (∃ b, b ∈ [toy_batch] ∧ batch_len (b_data b) ≠ 0%nat) ∧ 1 <= 1 ∧ 1 <= 1.
Proof.
  destruct (oracle_epoch_accuracies (toy_updated []) (@Build_module toy_backend 0 true)
              _ [toy_batch] 1 1 (toy_oracle_epoch [] _))
    as (_ & _ & _ & Hb & Hle & _).
  split; [exact Hb|]. apply Hle, toy_batches_within.
Defined.

Lemma first_domain_update_idempotent_witness :
  _update_Z (toy_updated []) toy_loaders 1 = (toy_updated [], Ok ()) ∧
  toy_updated [] = toy_updated [].
Proof.
  split; [apply toy_update_again|].
  exact (first_domain_update_idempotent toy_store (toy_updated []) (toy_updated [])
           toy_loaders toy_keys_distinct toy_ids_distinct (toy_update [])
           (toy_update_again [])).
Defined.

Lemma prob_row_half_half : prob_row [0.5; 0.5].
Proof.
  split; [|simpl; lra]. intros x Hx.
  apply elem_of_cons in Hx as [->|Hx]; [lra|].
  apply list_elem_of_singleton in Hx. subst. lra.
Qed.

Lemma steep_store_prob :
  Forall (λ r, prob_row r ∧ length r = 2%nat) (ens_z steep_store).
Proof.
  apply Forall_singleton. split; [apply prob_row_one_hot|done].
Qed.

Lemma row_entropy_one_hot : row_entropy [1; 0] = - ln (1 + eps_log).
Proof. unfold row_entropy. cbn. lra. Qed.

Lemma ln_one_eps : 0 <= ln (1 + eps_log).
Proof.
  rewrite <- ln_1. apply ln_le_mono; [lra|]. unfold eps_log. lra.
Qed.

(** With slope 2 the entropy gap between the uniform prediction and the
    one-hot row of [z] saturates the momentum at 1. *)
Lemma steep_momentum : compute_momentum steep_store 2 [toy_batch] = Ok (Num 1).
Proof.
  unfold compute_momentum. cbn -[softmax momentum_of]. rewrite softmax_00.
  unfold momentum_of. rewrite bool_decide_eq_true_2 by done.
  unfold _entropy. cbn -[row_entropy]. do 2 f_equal. apply clip_sat_hi.
  rewrite row_entropy_half_half, row_entropy_one_hot.
  pose proof ln_half_eps. pose proof ln_one_eps. lra.
Qed.

Lemma toy_logits_width (b : @batch toy_backend) :
  b ∈ [toy_batch] → Forall (λ l, length l = 2%nat) (call (model steep_store) (b_data b)).
Proof. intros _. apply Forall_singleton. reflexivity. Qed.

Lemma entropy_bounds_witness :
  ∃ h, _entropy [[0.5; 0.5]] = Num h ∧ - eps_log <= h <= ln (INR 2).
Proof.
  apply (entropy_bounds [[0.5; 0.5]] 2).
  - discriminate.
  - apply Forall_singleton. split; [apply prob_row_half_half|reflexivity].
Defined.

Lemma momentum_near_half_witness :
  Rabs (1 - 0.5) <= Rabs 2 * (ln (INR 2) + eps_log).
Proof.
  apply (momentum_near_half steep_store 2 [toy_batch] 2 (Num 1)).
  - discriminate.
  - lia.
  - apply steep_store_prob.
  - apply toy_logits_width.
  - apply steep_momentum.
Defined.

Lemma run_trains_a_copy_witness :
  model (toy_updated ([] ++ [1])) = set_training (model toy_store) false ∧
  ens_Z (toy_updated ([] ++ [1])) = ens_Z (_update_Z toy_store toy_loaders 1).1.
Proof.
  destruct (run_trains_a_copy toy_store _ 1 toy_loaders 0.5 toy_args _
              (toy_run [] 0.5 ltac:(lra))) as (Hm & HZ & _).
  split; [exact Hm|exact HZ].
Defined.

Lemma near_prob_row_pair tol (a b : R) :
  0 <= tol → 0 <= a → 0 <= b → a + b = 1 → near_prob_row tol 2 [a; b].
Proof.
  intros Ht Ha Hb Hs. split; [done|]. split.
  - intros x Hx. apply elem_of_cons in Hx as [->|Hx]; [done|].
    apply list_elem_of_singleton in Hx. by subst.
  - cbn. replace (a + (b + 0) - 1) with 0 by lra. by rewrite Rabs_R0.
Qed.

Lemma two_row_near : Forall (near_prob_row 1e-6 2) [[1; 0]; [0.25; 0.75]].
Proof.
  apply Forall_cons. split; [apply near_prob_row_pair; lra|].
  apply Forall_singleton. apply near_prob_row_pair; lra.
Qed.

Lemma two_domains_fit :
  logits_fit (set_training (model two_row_store) false) 2 2 two_domains.
Proof.
  intros d ld b Hd Hle Hb. unfold two_domains in Hd.
  apply elem_of_cons in Hd as [Hd|Hd]; [inversion Hd; lia|].
  apply list_elem_of_singleton in Hd. inversion Hd; subst.
  apply list_elem_of_singleton in Hb. subst b.
  split; [done|]. by apply Forall_singleton.
Qed.

Lemma two_domains_defined : momentum_defined 2 two_domains.
Proof.
  right. intros ld Hd. unfold two_domains in Hd.
  apply elem_of_cons in Hd as [Hd|Hd]; [inversion Hd|].
  apply list_elem_of_singleton in Hd. inversion Hd; subst. discriminate.
Qed.

Lemma update_keeps_probability_rows_witness :
  Forall (near_prob_row 1e-6 2) (ens_Z (_update_Z two_row_store two_domains 2).1) ∧
  Forall (near_prob_row 1e-6 2) (ens_z (_update_Z two_row_store two_domains 2).1) ∧
  returns_or_raises (_update_Z two_row_store two_domains 2).2.
Proof.
  apply (update_keeps_probability_rows two_row_store _ two_domains 2 1e-6 2 _).
  - lra.
  - exact two_row_near.
  - exact two_row_near.
  - exact two_domains_fit.
  - exact two_domains_defined.
  - apply surjective_pairing.
Defined.

(** With two ids, one input and one label [torch.eq] broadcasts the label:
    two comparisons are counted for one input, and the pseudo-label
    accuracy is 2. *)
Lemma oracle_accuracy_above_one (m : @module toy_backend) :
  _oracle_eval_epoch two_row_store m
    [@Build_batch toy_backend [0%nat; 0%nat] tt [0%nat]]
  = Ok (set_training m false, (1, 2)).
Proof.
  unfold _oracle_eval_epoch. cbn. rdecide. cbn. unfold count_eq. cbn. rdecide. cbn.
  rdecide. cbn. do 3 f_equal; lra.
Qed.
